(** * Client state synchronisation of the multiplayer world viewer (src/main.js)

    A shallow embedding of the client: the game state record, the camera
    derivation, the remote-player interpolation, the protocol message
    handler and the throttled movement loop, followed by the properties
    the specification states about them.

    Conventions of the embedding.
    - A JavaScript number is an exact rational ([Q]); binary64 rounding is
      outside the model.  The values [NaN] and the infinities only occur as
      results of converting payload values and are kept in [number].
    - A payload is a JSON value ([jsval]).  The objects of the program
      ([state.otherPlayers.byId], [keysPressed], [keyMap], the payload
      objects) are ordinary objects: a read that finds no own property goes
      on to the prototype chain, which ends in [Object.prototype].  The
      properties the program itself leaves on [Object.prototype] and on the
      functions it holds are part of the state.
    - The script runs in sloppy mode: an assignment to a property of a
      primitive is dropped.
    - A conversion to a primitive ([v | 0], a value used as property key)
      throws a [TypeError] on an object whose own [toString] is not
      callable, as every [toString] of a payload is.
    - [Date.now()] is an input of every event; one reading per event.
    - Asset caching, drawing and the DOM widgets are collaborators and
      appear only as effects. *)

From Stdlib Require Import QArith Qabs Qminmax Qround Lqa ZArith Lia.
From stdpp Require Import gmap strings list fin_maps pretty.

Local Open Scope Z_scope.

(** ** Numbers *)

Inductive number :=
  | Finite (q : Q)
  | NaN
  | Infinity (negative : bool).

(** [Math.floor], [Math.round], [Math.max], [Math.min], [Math.abs] on finite numbers. *)
Definition Math_floor (q : Q) : Q := inject_Z (Qfloor q).
Definition Math_round (q : Q) : Q := inject_Z (Qfloor (q + (1 # 2))).
Definition Math_max (a b : Q) : Q := Qmax a b.
Definition Math_min (a b : Q) : Q := Qmin a b.
Definition Math_abs (a : Q) : Q := Qabs a.

(** [a > b] and [a === b] on finite numbers. *)
Definition Qgtb (a b : Q) : bool := negb (Qle_bool a b).
Definition Qeqb (a b : Q) : bool := Qeq_bool a b.

(** The integer part of a rational, rounding toward zero. *)
Definition Qtrunc (q : Q) : Z := Z.quot (Qnum q) (Zpos (Qden q)).

(** Reduction of an integer modulo 2^32 into the signed range. *)
Definition wrap32 (z : Z) : Z := (z + 2 ^ 31) mod 2 ^ 32 - 2 ^ 31.

(** ECMAScript [ToInt32] on a number: the operation behind [n | 0]. *)
Definition ToInt32 (n : number) : Z :=
  match n with
  | Finite q => wrap32 (Qtrunc q)
  | NaN => 0
  | Infinity _ => 0
  end.

(** ** Utility *)

Definition clamp (value min max : Q) : Q :=
  Math_max min (Math_min max value).

(** ** Payload values

    The result of [JSON.parse]: scalars, arrays and plain objects (properties
    in enumeration order).  [VUndef] is the value of a missing property. *)

#[warnings="-register-all"] Inductive jsval :=
  | VUndef
  | VNull
  | VBool (b : bool)
  | VNum (n : number)
  | VStr (s : string)
  | VArr (elems : list jsval)
  | VObj (props : list (string * jsval)).

(** What the host provides and the code relies on: [StringToNumber] for
    [ToNumber] of a string, [Number::toString] for a number used as a
    property key, the source text of the built-in function that is the
    member [name] of [Object.prototype] (what such a function becomes as a
    property key), and whether the built-in prototype of an array, a string,
    a number or a boolean has a property of its own under a name. *)
Class Host := {
  StringToNumber : string -> number;
  NumberToString : number -> string;
  FunctionToString : string -> string;
  prototypeHas : jsval -> string -> bool
}.

(** [ToBoolean]: truthiness. *)
Definition ToBoolean (v : jsval) : bool :=
  match v with
  | VUndef | VNull => false
  | VBool b => b
  | VNum (Finite q) => negb (Qeqb q 0)
  | VNum NaN => false
  | VNum (Infinity _) => true
  | VStr s => negb (String.eqb s EmptyString)
  | VArr _ | VObj _ => true
  end.

(** [a || b]. *)
Definition js_or (a b : jsval) : jsval := if ToBoolean a then a else b.

(** [v === "lit"] for a string literal, and [v === false]. *)
Definition is_str (v : jsval) (lit : string) : bool :=
  match v with VStr s => String.eqb s lit | _ => false end.
Definition is_false (v : jsval) : bool :=
  match v with VBool false => true | _ => false end.

(** [v == null]: the test of optional chaining. *)
Definition nullish (v : jsval) : bool :=
  match v with VUndef | VNull => true | _ => false end.

(** The characters of a string as one-character strings (ASCII payloads). *)
Definition chars (s : string) : list jsval :=
  (fun a => VStr (String a EmptyString)) <$> String.list_ascii_of_string s.

Definition indexed (l : list jsval) : list (string * jsval) :=
  imap (fun i v => (pretty i, v)) l.

(** The enumerable own properties, as [Object.entries] lists them. *)
Definition entries (v : jsval) : list (string * jsval) :=
  match v with
  | VObj props => props
  | VArr elems => indexed elems
  | VStr s => indexed (chars s)
  | _ => []
  end.

Fixpoint assoc (k : string) (props : list (string * jsval)) : jsval :=
  match props with
  | [] => VUndef
  | (k', v) :: rest => if String.eqb k' k then v else assoc k rest
  end.

Definition Zlength_num {A} (l : list A) : jsval :=
  VNum (Finite (inject_Z (Z.of_nat (length l)))).

(** The own property [k] of [v]; [VUndef] when [v] has none. *)
Definition prop (v : jsval) (k : string) : jsval :=
  match v with
  | VObj props => assoc k props
  | VArr elems =>
      if String.eqb k "length" then Zlength_num elems else assoc k (indexed elems)
  | VStr s =>
      if String.eqb k "length" then Zlength_num (chars s) else assoc k (indexed (chars s))
  | _ => VUndef
  end.

Definition hasKey {A} (k : string) (props : list (string * A)) : bool :=
  existsb (fun e => String.eqb (fst e) k) props.

(** [v] has an own property [k]. *)
Definition hasOwn (v : jsval) (k : string) : bool :=
  match v with
  | VObj props => hasKey k props
  | VArr elems => String.eqb k "length" || hasKey k (indexed elems)
  | VStr s => String.eqb k "length" || hasKey k (indexed (chars s))
  | _ => false
  end.

(** Induction on a payload value through the elements of its arrays. *)
Section PayloadInduction.
Variable P : jsval -> Prop.
Hypothesis P_undef : P VUndef.
Hypothesis P_null : P VNull.
Hypothesis P_bool : forall b, P (VBool b).
Hypothesis P_num : forall n, P (VNum n).
Hypothesis P_str : forall s, P (VStr s).
Hypothesis P_arr : forall elems, Forall P elems -> P (VArr elems).
Hypothesis P_obj : forall props, P (VObj props).

Fixpoint jsval_elements_ind (v : jsval) : P v :=
  match v with
  | VUndef => P_undef
  | VNull => P_null
  | VBool b => P_bool b
  | VNum n => P_num n
  | VStr s => P_str s
  | VArr elems =>
      P_arr elems
        ((fix all (l : list jsval) : Forall P l :=
            match l with
            | [] => @List.Forall_nil jsval P
            | e :: rest => @List.Forall_cons jsval P e rest (jsval_elements_ind e) (all rest)
            end) elems)
  | VObj props => P_obj props
  end.
End PayloadInduction.

Section Conversions.
Context `{Host}.

(** [ToString] with [ToPrimitive], as used for property keys: [None] is
    the [TypeError] of [OrdinaryToPrimitive].  A plain object answers
    through [Object.prototype.toString] unless an own [toString] (never
    callable in a payload) hides it, and then its [valueOf], own or
    inherited, yields no primitive either; an array answers through
    [Array.prototype.join]. *)
Fixpoint ToString (v : jsval) : option string :=
  match v with
  | VUndef => Some "undefined"
  | VNull => Some "null"
  | VBool true => Some "true"
  | VBool false => Some "false"
  | VNum n => Some (NumberToString n)
  | VStr s => Some s
  | VArr elems =>
      let fix join (l : list jsval) : option (list string) :=
        match l with
        | [] => Some []
        | e :: rest =>
            match
              match e with
              | VUndef | VNull => Some EmptyString
              | _ => ToString e
              end
            with
            | Some t =>
                match join rest with
                | Some ts => Some (t :: ts)
                | None => None
                end
            | None => None
            end
        end in
      match join elems with
      | Some ts => Some (String.concat "," ts)
      | None => None
      end
  | VObj props => if hasKey "toString" props then None else Some "[object Object]"
  end.

(** The strings of the elements of an array, as [Array.prototype.join]
    takes them. *)
Definition elementString (e : jsval) : option string :=
  match e with
  | VUndef | VNull => Some EmptyString
  | _ => ToString e
  end.

(** [ToNumber]; the string of a plain object is no numeric literal. *)
Definition ToNumber (v : jsval) : option number :=
  match v with
  | VUndef => Some NaN
  | VNull => Some (Finite 0)
  | VBool true => Some (Finite 1)
  | VBool false => Some (Finite 0)
  | VNum n => Some n
  | VStr s => Some (StringToNumber s)
  | VArr _ => StringToNumber <$> ToString v
  | VObj props => if hasKey "toString" props then None else Some NaN
  end.

(** [v | 0]. *)
Definition or0 (v : jsval) : option Q :=
  (fun n => inject_Z (ToInt32 n)) <$> ToNumber v.
End Conversions.

(** ** Built-in objects a property read can reach

    [Object.prototype], the function held by one of its members, and the
    member [name] of another built-in prototype (of arrays, strings, numbers
    or booleans). *)

Inductive builtin :=
  | ObjectPrototype
  | Member (name : string)
  | Foreign (name : string).

(** The result of a read with a computed key. *)
Inductive val :=
  | Val (v : jsval)
  | Ref (b : builtin).

Coercion Val : jsval >-> val.

Definition truthy (v : val) : bool :=
  match v with
  | Val j => ToBoolean j
  | Ref _ => true
  end.

Definition nullishV (v : val) : bool :=
  match v with
  | Val j => nullish j
  | Ref _ => false
  end.

(** The function-valued properties of [Object.prototype] (ECMA-262, 20.1.3
    and B.2.2); its remaining property, the accessor [__proto__], is treated
    where it is read or written. *)
Definition ObjectPrototype_members : list string :=
  ["constructor"; "__defineGetter__"; "__defineSetter__"; "hasOwnProperty";
   "__lookupGetter__"; "__lookupSetter__"; "isPrototypeOf";
   "propertyIsEnumerable"; "toString"; "valueOf"; "toLocaleString"].

Definition isMember (k : string) : bool :=
  existsb (String.eqb k) ObjectPrototype_members.

(** ** Game state *)

Module World.
Record t := mk {
  width : Q;
  height : Q;
  ready : bool
}.
End World.

Module Me.
Record t := mk {
  id : jsval;
  username : jsval;
  x : Q;
  y : Q;
  facing : jsval;
  animationFrame : Q;
  avatarName : jsval;
  ready : bool;
  hasServerPosition : bool
}.

Definition set_id (v : jsval) (m : t) : t :=
  mk v (username m) (x m) (y m) (facing m) (animationFrame m) (avatarName m)
    (ready m) (hasServerPosition m).
Definition set_x (q : Q) (m : t) : t :=
  mk (id m) (username m) q (y m) (facing m) (animationFrame m) (avatarName m)
    (ready m) (hasServerPosition m).
Definition set_y (q : Q) (m : t) : t :=
  mk (id m) (username m) (x m) q (facing m) (animationFrame m) (avatarName m)
    (ready m) (hasServerPosition m).
Definition set_facing (v : jsval) (m : t) : t :=
  mk (id m) (username m) (x m) (y m) v (animationFrame m) (avatarName m)
    (ready m) (hasServerPosition m).
Definition set_animationFrame (q : Q) (m : t) : t :=
  mk (id m) (username m) (x m) (y m) (facing m) q (avatarName m)
    (ready m) (hasServerPosition m).
Definition set_avatarName (v : jsval) (m : t) : t :=
  mk (id m) (username m) (x m) (y m) (facing m) (animationFrame m) v
    (ready m) (hasServerPosition m).
Definition set_ready (b : bool) (m : t) : t :=
  mk (id m) (username m) (x m) (y m) (facing m) (animationFrame m) (avatarName m)
    b (hasServerPosition m).
Definition set_hasServerPosition (b : bool) (m : t) : t :=
  mk (id m) (username m) (x m) (y m) (facing m) (animationFrame m) (avatarName m)
    (ready m) b.
End Me.

(** An entry of [state.otherPlayers.byId]. *)
Module Player.
Record t := mk {
  id : jsval;
  x : Q;
  y : Q;
  facing : jsval;
  animationFrame : Q;
  username : jsval;
  avatarName : jsval;
  targetX : option Q;       (* [None] is [undefined] *)
  targetY : option Q;
  lastUpdate : Z
}.

Definition set_targetX (q : Q) (p : t) : t :=
  mk (id p) (x p) (y p) (facing p) (animationFrame p) (username p) (avatarName p)
    (Some q) (targetY p) (lastUpdate p).
Definition set_targetY (q : Q) (p : t) : t :=
  mk (id p) (x p) (y p) (facing p) (animationFrame p) (username p) (avatarName p)
    (targetX p) (Some q) (lastUpdate p).
Definition set_facing (v : jsval) (p : t) : t :=
  mk (id p) (x p) (y p) v (animationFrame p) (username p) (avatarName p)
    (targetX p) (targetY p) (lastUpdate p).
Definition set_animationFrame (q : Q) (p : t) : t :=
  mk (id p) (x p) (y p) (facing p) q (username p) (avatarName p)
    (targetX p) (targetY p) (lastUpdate p).
Definition set_lastUpdate (now : Z) (p : t) : t :=
  mk (id p) (x p) (y p) (facing p) (animationFrame p) (username p) (avatarName p)
    (targetX p) (targetY p) now.

Definition coordinate (q : option Q) : jsval :=
  match q with
  | Some q => VNum (Finite q)
  | None => VUndef
  end.

(** The own property [k] of the record, when it has one. *)
Definition prop (p : t) (k : string) : option jsval :=
  if String.eqb k "id" then Some (id p)
  else if String.eqb k "x" then Some (VNum (Finite (x p)))
  else if String.eqb k "y" then Some (VNum (Finite (y p)))
  else if String.eqb k "facing" then Some (facing p)
  else if String.eqb k "animationFrame" then Some (VNum (Finite (animationFrame p)))
  else if String.eqb k "username" then Some (username p)
  else if String.eqb k "avatarName" then Some (avatarName p)
  else if String.eqb k "targetX" then Some (coordinate (targetX p))
  else if String.eqb k "targetY" then Some (coordinate (targetY p))
  else if String.eqb k "lastUpdate" then Some (VNum (Finite (inject_Z (lastUpdate p))))
  else None.
End Player.

(** The properties the loop of [players_moved] (lines 716-720) leaves on a
    built-in object it takes for a player; [None] is a property never
    assigned. *)
Module Stray.
Record t := mk {
  targetX : option Q;
  targetY : option Q;
  facing : option jsval;
  animationFrame : option Q;
  lastUpdate : option Z
}.

Definition empty : t := mk None None None None None.

Definition set_targetX (q : Q) (st : t) : t :=
  mk (Some q) (targetY st) (facing st) (animationFrame st) (lastUpdate st).
Definition set_targetY (q : Q) (st : t) : t :=
  mk (targetX st) (Some q) (facing st) (animationFrame st) (lastUpdate st).
Definition set_facing (v : jsval) (st : t) : t :=
  mk (targetX st) (targetY st) (Some v) (animationFrame st) (lastUpdate st).
Definition set_animationFrame (q : Q) (st : t) : t :=
  mk (targetX st) (targetY st) (facing st) (Some q) (lastUpdate st).
Definition set_lastUpdate (now : Z) (st : t) : t :=
  mk (targetX st) (targetY st) (facing st) (animationFrame st) (Some now).

(** The property [k], when it was assigned. *)
Definition own (st : t) (k : string) : option jsval :=
  if String.eqb k "targetX" then (fun q => VNum (Finite q)) <$> targetX st
  else if String.eqb k "targetY" then (fun q => VNum (Finite q)) <$> targetY st
  else if String.eqb k "facing" then facing st
  else if String.eqb k "animationFrame" then (fun q => VNum (Finite q)) <$> animationFrame st
  else if String.eqb k "lastUpdate" then
    (fun now => VNum (Finite (inject_Z now))) <$> lastUpdate st
  else None.

Definition prop (st : t) (k : string) : jsval := default VUndef (own st k).
End Stray.

Module Viewport.
Record t := mk {
  width : Q;
  height : Q;
  cameraX : Q;
  cameraY : Q
}.
End Viewport.

(** [keysPressed]: the four declared properties and, in the order of their
    creation, the properties a key event added. *)
Module Keys.
Record t := mk {
  up : bool;
  down : bool;
  left : bool;
  right : bool;
  others : list (string * bool)
}.
End Keys.

(** A property name of [keysPressed]. *)
Inductive direction := Up | Down | Left | Right | Other (name : string).

Inductive ReadyState := CONNECTING | OPEN | CLOSING | CLOSED.

(** The variables of the closure: [state], the input state and the socket.
    [byIdPrototype] is the record an assignment to [byId["__proto__"]]
    installed as prototype of [byId] ([None]: still [Object.prototype]);
    [objectPrototype] and [members] hold the properties left on
    [Object.prototype] and on the functions of its members.
    [movementLoopId] is [true] while a timer of the movement loop is armed
    (the numeric id is immaterial).  [pendingJoins] counts the [join_game]
    handlers suspended at their [await]. *)
Record State := mkState {
  world : World.t;
  me : Me.t;
  otherPlayers : gmap string Player.t;
  byIdPrototype : option Player.t;
  objectPrototype : Stray.t;
  members : gmap string Stray.t;
  viewport : Viewport.t;
  keysPressed : Keys.t;
  movementLoopId : bool;
  lastMoveTime : Z;
  canSendMoveCommands : bool;
  ws : option ReadyState;
  pendingJoins : nat
}.

Definition set_world (w : World.t) (s : State) : State :=
  mkState w (me s) (otherPlayers s) (byIdPrototype s) (objectPrototype s) (members s)
    (viewport s) (keysPressed s) (movementLoopId s) (lastMoveTime s)
    (canSendMoveCommands s) (ws s) (pendingJoins s).
Definition set_me (m : Me.t) (s : State) : State :=
  mkState (world s) m (otherPlayers s) (byIdPrototype s) (objectPrototype s) (members s)
    (viewport s) (keysPressed s) (movementLoopId s) (lastMoveTime s)
    (canSendMoveCommands s) (ws s) (pendingJoins s).
Definition set_otherPlayers (o : gmap string Player.t) (s : State) : State :=
  mkState (world s) (me s) o (byIdPrototype s) (objectPrototype s) (members s)
    (viewport s) (keysPressed s) (movementLoopId s) (lastMoveTime s)
    (canSendMoveCommands s) (ws s) (pendingJoins s).
Definition set_byIdPrototype (p : option Player.t) (s : State) : State :=
  mkState (world s) (me s) (otherPlayers s) p (objectPrototype s) (members s)
    (viewport s) (keysPressed s) (movementLoopId s) (lastMoveTime s)
    (canSendMoveCommands s) (ws s) (pendingJoins s).
Definition set_objectPrototype (st : Stray.t) (s : State) : State :=
  mkState (world s) (me s) (otherPlayers s) (byIdPrototype s) st (members s)
    (viewport s) (keysPressed s) (movementLoopId s) (lastMoveTime s)
    (canSendMoveCommands s) (ws s) (pendingJoins s).
Definition set_members (m : gmap string Stray.t) (s : State) : State :=
  mkState (world s) (me s) (otherPlayers s) (byIdPrototype s) (objectPrototype s) m
    (viewport s) (keysPressed s) (movementLoopId s) (lastMoveTime s)
    (canSendMoveCommands s) (ws s) (pendingJoins s).
Definition set_viewport (v : Viewport.t) (s : State) : State :=
  mkState (world s) (me s) (otherPlayers s) (byIdPrototype s) (objectPrototype s) (members s)
    v (keysPressed s) (movementLoopId s) (lastMoveTime s)
    (canSendMoveCommands s) (ws s) (pendingJoins s).
Definition set_keysPressed (k : Keys.t) (s : State) : State :=
  mkState (world s) (me s) (otherPlayers s) (byIdPrototype s) (objectPrototype s) (members s)
    (viewport s) k (movementLoopId s) (lastMoveTime s)
    (canSendMoveCommands s) (ws s) (pendingJoins s).
Definition set_movementLoopId (b : bool) (s : State) : State :=
  mkState (world s) (me s) (otherPlayers s) (byIdPrototype s) (objectPrototype s) (members s)
    (viewport s) (keysPressed s) b (lastMoveTime s)
    (canSendMoveCommands s) (ws s) (pendingJoins s).
Definition set_lastMoveTime (t : Z) (s : State) : State :=
  mkState (world s) (me s) (otherPlayers s) (byIdPrototype s) (objectPrototype s) (members s)
    (viewport s) (keysPressed s) (movementLoopId s) t
    (canSendMoveCommands s) (ws s) (pendingJoins s).
Definition set_canSendMoveCommands (b : bool) (s : State) : State :=
  mkState (world s) (me s) (otherPlayers s) (byIdPrototype s) (objectPrototype s) (members s)
    (viewport s) (keysPressed s) (movementLoopId s) (lastMoveTime s)
    b (ws s) (pendingJoins s).
Definition set_ws (w : option ReadyState) (s : State) : State :=
  mkState (world s) (me s) (otherPlayers s) (byIdPrototype s) (objectPrototype s) (members s)
    (viewport s) (keysPressed s) (movementLoopId s) (lastMoveTime s)
    (canSendMoveCommands s) w (pendingJoins s).
Definition set_pendingJoins (n : nat) (s : State) : State :=
  mkState (world s) (me s) (otherPlayers s) (byIdPrototype s) (objectPrototype s) (members s)
    (viewport s) (keysPressed s) (movementLoopId s) (lastMoveTime s)
    (canSendMoveCommands s) (ws s) n.

(** The state at module load (lines 22-66). *)
Definition initial : State :=
  mkState
    (World.mk 0 0 false)
    (Me.mk VNull (VStr "Tim") 1024 1024 (VStr "south") 0 VNull false false)
    ∅ None Stray.empty ∅
    (Viewport.mk 0 0 0 0)
    (Keys.mk false false false false [])
    false 0 false None 0.

(** ** Property reads

    [inherited s k] is what a plain object without own property [k] yields
    for [k] other than [__proto__]: the member of [Object.prototype] or the
    property left there. *)
Definition inherited (s : State) (k : string) : val :=
  if isMember k then Ref (Member k) else Val (Stray.prop (objectPrototype s) k).

(** [v.k] for a property name [k] of the protocol ([action], [success],
    [playerId], [players], [avatars], [player], [avatar], [id], [x], [y],
    [facing], [animationFrame], [username], [message]) on a value that is
    neither [null] nor [undefined].  No built-in object has a property of one
    of these names, so a value without an own one yields what the program
    left on [Object.prototype]; a function is asked for what was left on it
    first. *)
Definition field (s : State) (v : val) (k : string) : jsval :=
  match v with
  | Val j => if hasOwn j k then prop j k else Stray.prop (objectPrototype s) k
  | Ref (Member name) =>
      match members s !! name ≫= (fun st => Stray.own st k) with
      | Some w => w
      | None => Stray.prop (objectPrototype s) k
      end
  | Ref ObjectPrototype | Ref (Foreign _) => Stray.prop (objectPrototype s) k
  end.

Section Reads.
Context `{Host}.

(** [base[k]] for a payload value [base] that is neither [null] nor
    [undefined] and a computed key [k]. *)
Definition lookup (s : State) (base : jsval) (k : string) : val :=
  if hasOwn base k then Val (prop base k)
  else
    match base with
    | VObj _ =>
        if String.eqb k "__proto__" then Ref ObjectPrototype else inherited s k
    | _ =>
        if prototypeHas base k || String.eqb k "__proto__" then Ref (Foreign k)
        else inherited s k
    end.

End Reads.

(** What [state.otherPlayers.byId[k]] finds: an own entry, the record
    installed as prototype (under [__proto__]), or something else on the
    prototype chain. *)
Inductive found :=
  | OwnEntry (p : Player.t)
  | PrototypeRecord (p : Player.t)
  | Elsewhere (v : val).

Definition byId (s : State) (k : string) : found :=
  match otherPlayers s !! k with
  | Some p => OwnEntry p
  | None =>
      match byIdPrototype s with
      | Some record =>
          match Player.prop record k with
          | Some v => Elsewhere (Val v)
          | None =>
              if String.eqb k "__proto__" then PrototypeRecord record
              else Elsewhere (inherited s k)
          end
      | None =>
          if String.eqb k "__proto__" then Elsewhere (Ref ObjectPrototype)
          else Elsewhere (inherited s k)
      end
  end.

(** The truthiness of what was found. *)
Definition present (f : found) : bool :=
  match f with
  | OwnEntry _ | PrototypeRecord _ => true
  | Elsewhere v => truthy v
  end.

(** Where an assignment to a property of what [byId[k]] found lands: in the
    own entry, in the record installed as prototype, on a built-in object,
    on a payload object (such a property is read back by nothing but the
    same assignment of a later message, and the state does not keep it), or
    nowhere (a primitive). *)
Inductive target :=
  | Entry (id : string)
  | Prototype
  | Builtin (b : builtin)
  | Payload
  | Dropped.

Definition targetOf (k : string) (f : found) : target :=
  match f with
  | OwnEntry _ => Entry k
  | PrototypeRecord _ => Prototype
  | Elsewhere (Ref b) => Builtin b
  | Elsewhere (Val (VObj _)) | Elsewhere (Val (VArr _)) => Payload
  | Elsewhere (Val _) => Dropped
  end.

(** One assignment of lines 716-720, on a player record and as a stray
    property. *)
Record Assignment := mkAssignment {
  onPlayer : Player.t -> Player.t;
  onStray : Stray.t -> Stray.t
}.

Definition assignTargetX (q : Q) : Assignment :=
  mkAssignment (Player.set_targetX q) (Stray.set_targetX q).
Definition assignTargetY (q : Q) : Assignment :=
  mkAssignment (Player.set_targetY q) (Stray.set_targetY q).
Definition assignFacing (v : jsval) : Assignment :=
  mkAssignment (Player.set_facing v) (Stray.set_facing v).
Definition assignAnimationFrame (q : Q) : Assignment :=
  mkAssignment (Player.set_animationFrame q) (Stray.set_animationFrame q).
Definition assignLastUpdate (now : Z) : Assignment :=
  mkAssignment (Player.set_lastUpdate now) (Stray.set_lastUpdate now).

Definition assign (t : target) (a : Assignment) (s : State) : State :=
  match t with
  | Entry id => set_otherPlayers (alter (onPlayer a) id (otherPlayers s)) s
  | Prototype => set_byIdPrototype (onPlayer a <$> byIdPrototype s) s
  | Builtin ObjectPrototype => set_objectPrototype (onStray a (objectPrototype s)) s
  | Builtin (Member name) =>
      set_members
        (<[name := onStray a (default Stray.empty (members s !! name))]> (members s)) s
  | Builtin (Foreign _) | Payload | Dropped => s
  end.

(** [player.facing] for the player an assignment lands in. *)
Definition facingOf (s : State) (t : target) : jsval :=
  match t with
  | Entry id => from_option Player.facing VUndef (otherPlayers s !! id)
  | Prototype => from_option Player.facing VUndef (byIdPrototype s)
  | Builtin b => field s (Ref b) "facing"
  | Payload | Dropped => VUndef
  end.

(** [byId[key] = record]: an assignment to [__proto__] goes to the setter
    of [Object.prototype] and replaces the prototype of [byId]. *)
Definition store (key : string) (record : Player.t) (s : State) : State :=
  if String.eqb key "__proto__" then set_byIdPrototype (Some record) s
  else set_otherPlayers (<[key := record]> (otherPlayers s)) s.

(** ** Camera (lines 118-142) *)

Definition updateCamera (s : State) : State :=
  if negb (World.ready (world s))
     || Qeqb (World.width (world s)) 0
     || Qeqb (World.height (world s)) 0
     || negb (Me.hasServerPosition (me s))
  then s
  else
    let vw := Viewport.width (viewport s) in
    let vh := Viewport.height (viewport s) in
    let ww := World.width (world s) in
    let wh := World.height (world s) in
    let desiredX := (Me.x (me s) - Math_floor (vw / 2))%Q in
    let desiredY := (Me.y (me s) - Math_floor (vh / 2))%Q in
    let maxX := Math_max 0 (ww - vw)%Q in
    let maxY := Math_max 0 (wh - vh)%Q in
    set_viewport
      (Viewport.mk vw vh (clamp desiredX 0 maxX) (clamp desiredY 0 maxY)) s.

(** [resizeCanvas] (lines 97-116) with the window's inner size. *)
Definition resizeCanvas (innerWidth innerHeight : Q) (s : State) : State :=
  updateCamera
    (set_viewport
       (Viewport.mk innerWidth innerHeight
          (Viewport.cameraX (viewport s)) (Viewport.cameraY (viewport s))) s).

(** ** Interpolation of the remote players (lines 317-337) *)

Definition interpolationSpeed : Q := 1 # 10.

Definition interpolate (player : Player.t) : Player.t :=
  match Player.targetX player, Player.targetY player with
  | Some targetX, Some targetY =>
      let dx := (targetX - Player.x player)%Q in
      let dy := (targetY - Player.y player)%Q in
      let '(x', y') :=
        if Qgtb (Math_abs dx) (1 # 2) || Qgtb (Math_abs dy) (1 # 2)
        then ((Player.x player + dx * interpolationSpeed)%Q,
              (Player.y player + dy * interpolationSpeed)%Q)
        else (targetX, targetY) in
      Player.mk (Player.id player) x' y' (Player.facing player)
        (Player.animationFrame player) (Player.username player)
        (Player.avatarName player) (Player.targetX player)
        (Player.targetY player) (Player.lastUpdate player)
  | _, _ => player
  end.

(** [Object.values] lists the own entries of [byId]. *)
Definition updatePlayerInterpolation (s : State) : State :=
  set_otherPlayers (interpolate <$> otherPlayers s) s.

(** [render] (lines 345-360): drawing has no effect on the state. *)
Definition render (s : State) : State :=
  if negb (World.ready (world s)) then s else updatePlayerInterpolation s.

(** ** Effects

    What a handler hands to its collaborators.  [Send] records, next to the
    message given to [ws.send], the value [canSendMoveCommands] has at that
    moment. *)

Inductive OutMsg :=
  | JoinGame (username : jsval)        (* {action:"join_game", username} *)
  | MoveDir (d : direction)            (* {action:"move", direction} *)
  | MoveTo (x y : Q)                   (* {action:"move", x, y} *)
  | Stop                               (* {action:"stop"} *)
  | Chat (message : string).           (* {action:"chat", message} *)

Definition action (m : OutMsg) : string :=
  match m with
  | JoinGame _ => "join_game"
  | MoveDir _ | MoveTo _ _ => "move"
  | Stop => "stop"
  | Chat _ => "chat"
  end.

Inductive Effect :=
  | Send (gateOpen : bool) (m : OutMsg)
  | Console (level : string)
  | UpdateUI
  | AddChatMessage (type content username : jsval)
  | CacheAvatarFrames (avatar : jsval)
  | AwaitAvatarFrames (avatars avatarName : jsval).

(** ** Handlers as state transformers that may throw

    A computation returns [None] when it throws (the [TypeError] of a
    property read on [null] or [undefined], or of a failed conversion to a
    primitive); the state reached and the effects produced up to there
    remain. *)

Definition M (A : Type) : Type := State -> option A * State * list Effect.

Definition ret {A} (a : A) : M A := fun s => (Some a, s, []).

Definition bind {A B} (c : M A) (k : A -> M B) : M B :=
  fun s =>
    match c s with
    | (Some a, s1, out1) =>
        match k a s1 with
        | (r, s2, out2) => (r, s2, out1 ++ out2)
        end
    | (None, s1, out1) => (None, s1, out1)
    end.

Declare Scope js_scope.
Delimit Scope js_scope with js.
Notation "x <- c ;; k" := (bind c (fun x => k))
  (at level 20, c at level 99, k at level 200, only parsing) : js_scope.
Local Open Scope js_scope.

Definition getState : M State := fun s => (Some s, s, []).
Definition modify (f : State -> State) : M unit := fun s => (Some tt, f s, []).
Definition throw {A} : M A := fun s => (None, s, []).
Definition emit (e : Effect) : M unit := fun s => (Some tt, s, [e]).

(** The result of a conversion: [None] throws. *)
Definition lift {A} (o : option A) : M A :=
  match o with
  | Some a => ret a
  | None => throw
  end.

(** [ws.send(JSON.stringify(m))]. *)
Definition send (m : OutMsg) : M unit :=
  fun s => (Some tt, s, [Send (canSendMoveCommands s) m]).

(** [v.k]: a [TypeError] on [null] and [undefined]. *)
Definition getProp (v : val) (k : string) : M jsval :=
  fun s => if nullishV v then (None, s, []) else (Some (field s v k), s, []).

Definition when (b : bool) (c : M unit) : M unit := if b then c else ret tt.

(** [for (const item of items) body]. *)
Fixpoint forEach {A} (items : list A) (body : A -> M unit) : M unit :=
  match items with
  | [] => ret tt
  | item :: rest => _ <- body item ;; forEach rest body
  end.

Definition setMe (f : Me.t -> Me.t) : M unit :=
  modify (fun s => set_me (f (me s)) s).

Definition finalState {A} (c : M A) (s : State) : State := snd (fst (c s)).
Definition effects {A} (c : M A) (s : State) : list Effect := snd (c s).
Definition outcome {A} (c : M A) (s : State) : option A := fst (fst (c s)).

(** ** Input (lines 370-430) *)

(** The own properties of [keyMap]. *)
Definition keyMap (key : string) : option direction :=
  if String.eqb key "ArrowUp" then Some Up
  else if String.eqb key "ArrowDown" then Some Down
  else if String.eqb key "ArrowLeft" then Some Left
  else if String.eqb key "ArrowRight" then Some Right
  else if String.eqb key "KeyW" then Some Up
  else if String.eqb key "KeyS" then Some Down
  else if String.eqb key "KeyA" then Some Left
  else if String.eqb key "KeyD" then Some Right
  else None.

Definition keyName (d : direction) : string :=
  match d with
  | Up => "up"
  | Down => "down"
  | Left => "left"
  | Right => "right"
  | Other name => name
  end.

(** The property of [keysPressed] a name denotes. *)
Definition directionOf (name : string) : direction :=
  if String.eqb name "up" then Up
  else if String.eqb name "down" then Down
  else if String.eqb name "left" then Left
  else if String.eqb name "right" then Right
  else Other name.

Fixpoint lookupOther (name : string) (l : list (string * bool)) : option bool :=
  match l with
  | [] => None
  | (n, b) :: rest => if String.eqb n name then Some b else lookupOther name rest
  end.

(** Assignment to an added property: in place when it exists, at the end
    when it is new. *)
Fixpoint setOther (name : string) (b : bool) (l : list (string * bool))
    : list (string * bool) :=
  match l with
  | [] => [(name, b)]
  | (n, v) :: rest =>
      if String.eqb n name then (n, b) :: rest else (n, v) :: setOther name b rest
  end.

(** The own property [d] of [keysPressed], when there is one. *)
Definition ownKey (k : Keys.t) (d : direction) : option bool :=
  match d with
  | Up => Some (Keys.up k)
  | Down => Some (Keys.down k)
  | Left => Some (Keys.left k)
  | Right => Some (Keys.right k)
  | Other name => lookupOther name (Keys.others k)
  end.

Definition pressed (k : Keys.t) (d : direction) : bool := default false (ownKey k d).

Definition press (d : direction) (b : bool) (k : Keys.t) : Keys.t :=
  match d with
  | Up => Keys.mk b (Keys.down k) (Keys.left k) (Keys.right k) (Keys.others k)
  | Down => Keys.mk (Keys.up k) b (Keys.left k) (Keys.right k) (Keys.others k)
  | Left => Keys.mk (Keys.up k) (Keys.down k) b (Keys.right k) (Keys.others k)
  | Right => Keys.mk (Keys.up k) (Keys.down k) (Keys.left k) b (Keys.others k)
  | Other name =>
      Keys.mk (Keys.up k) (Keys.down k) (Keys.left k) (Keys.right k)
        (setOther name b (Keys.others k))
  end.

(** [keyMap[key]]. *)
Definition keyMapGet (s : State) (key : string) : val :=
  match keyMap key with
  | Some d => Val (VStr (keyName d))
  | None =>
      if String.eqb key "__proto__" then Ref ObjectPrototype else inherited s key
  end.

(** [keysPressed[name]]. *)
Definition keysPressedGet (s : State) (name : string) : val :=
  match ownKey (keysPressed s) (directionOf name) with
  | Some b => Val (VBool b)
  | None =>
      if String.eqb name "__proto__" then Ref ObjectPrototype else inherited s name
  end.

(** [keysPressed[name] = b]: the setter of [__proto__] ignores a boolean. *)
Definition keysPressedSet (name : string) (b : bool) (s : State) : State :=
  if String.eqb name "__proto__" then s
  else set_keysPressed (press (directionOf name) b (keysPressed s)) s.

(** [ws && ws.readyState === WebSocket.OPEN]. *)
Definition ws_open (s : State) : bool :=
  match ws s with Some OPEN => true | _ => false end.

(** The click listener (lines 410-429). *)
Definition onClick (clientX clientY rectLeft rectTop : Q) : M unit :=
  s <- getState ;;
  if negb (canSendMoveCommands s) || negb (ws_open s) then ret tt
  else
    let clickX := (clientX - rectLeft)%Q in
    let clickY := (clientY - rectTop)%Q in
    let worldX := (clickX + Viewport.cameraX (viewport s))%Q in
    let worldY := (clickY + Viewport.cameraY (viewport s))%Q in
    send (MoveTo (Math_round worldX) (Math_round worldY)).

(** ** Movement loop (lines 432-483) *)

Definition MOVE_THROTTLE_MS : Z := 100.

Fixpoint digitsValue (acc : Z) (s : string) : option Z :=
  match s with
  | EmptyString => Some acc
  | String c rest =>
      let n := Z.of_nat (Ascii.nat_of_ascii c) in
      if (48 <=? n) && (n <=? 57) then digitsValue (10 * acc + (n - 48)) rest
      else None
  end.

(** The array index a property name denotes: a canonical decimal numeral
    below 2^32 - 1. *)
Definition arrayIndex (name : string) : option Z :=
  match digitsValue 0 name with
  | Some z =>
      if String.eqb (pretty z) name && (z <? 2 ^ 32 - 1) then Some z else None
  | None => None
  end.

Fixpoint insertByIndex (e : Z * (string * bool)) (l : list (Z * (string * bool)))
    : list (Z * (string * bool)) :=
  match l with
  | [] => [e]
  | h :: rest => if fst e <? fst h then e :: l else h :: insertByIndex e rest
  end.

Definition indexKeys (l : list (string * bool)) : list (Z * (string * bool)) :=
  foldr insertByIndex []
    (omap (fun e => (fun i => (i, e)) <$> arrayIndex (fst e)) l).

Definition nameKeys (l : list (string * bool)) : list (string * bool) :=
  List.filter (fun e => negb (bool_decide (is_Some (arrayIndex (fst e))))) l.

(** [Object.entries(keysPressed)]: the array indices in ascending order,
    then the other names in the order of their creation. *)
Definition keyEntries (k : Keys.t) : list (direction * bool) :=
  ((fun e => (Other (fst (snd e)), snd (snd e))) <$> indexKeys (Keys.others k))
  ++ [(Up, Keys.up k); (Down, Keys.down k); (Left, Keys.left k); (Right, Keys.right k)]
  ++ ((fun e => (Other (fst e), snd e)) <$> nameKeys (Keys.others k)).

(** The scan of the pressed keys: [(hasActiveKeys, activeDirections)]. *)
Definition scanKeys (k : Keys.t) : bool * list direction :=
  fold_left
    (fun (acc : bool * list direction) (entry : direction * bool) =>
       if snd entry then (true, snd acc ++ [fst entry]) else acc)
    (keyEntries k) (false, []).

Definition movementLoop (now : Z) : M unit :=
  s <- getState ;;
  if negb (ws_open s) then modify (set_movementLoopId true)
  else
    let hasActiveKeys := fst (scanKeys (keysPressed s)) in
    let activeDirections := snd (scanKeys (keysPressed s)) in
    _ <- (if hasActiveKeys && canSendMoveCommands s
        && (MOVE_THROTTLE_MS <=? now - lastMoveTime s)
     then
       _ <- forEach activeDirections (fun d => send (MoveDir d)) ;;
       modify (set_lastMoveTime now)
     else if negb hasActiveKeys && canSendMoveCommands s then send Stop
     else ret tt) ;;
    modify (set_movementLoopId true).

Definition startMovementLoop (now : Z) : M unit :=
  s <- getState ;;
  if movementLoopId s then ret tt else movementLoop now.

Definition stopMovementLoop (s : State) : State :=
  if movementLoopId s then set_movementLoopId false s else s.

(** The [Enter] key of the chat input (lines 566-581), [message] trimmed. *)
Definition onChatEnter (message : string) : M unit :=
  if String.eqb message EmptyString then ret tt
  else
    s <- getState ;;
    _ <- emit (AddChatMessage (VStr "player") (VStr message) (Me.username (me s))) ;;
    when (ws_open s) (send (Chat message)).

(** ** Key events and protocol message handler (lines 382-396, 623-762) *)

Section Client.
Context `{Host}.

(** [v | 0]. *)
Definition toInt32 (v : jsval) : M Q := lift (or0 v).

(** The property key a value denotes. *)
Definition toKey (v : val) : M string :=
  match v with
  | Val j => lift (ToString j)
  | Ref ObjectPrototype => ret "[object Object]"
  | Ref (Member name) | Ref (Foreign name) => ret (FunctionToString name)
  end.

Definition handleKeyDown (key : string) : M unit :=
  s <- getState ;;
  let direction := keyMapGet s key in
  when (truthy direction)
    (name <- toKey direction ;;
     when (negb (truthy (keysPressedGet s name)))
       (modify (keysPressedSet name true))).

Definition handleKeyUp (key : string) : M unit :=
  s <- getState ;;
  let direction := keyMapGet s key in
  when (truthy direction)
    (name <- toKey direction ;;
     modify (keysPressedSet name false)).

(** [players[id]] for a payload value [players] that is neither [null] nor
    [undefined]. *)
Definition lookupIn (players id : jsval) : M val :=
  key <- toKey id ;;
  s <- getState ;;
  ret (lookup s players key).

(** A remote player as [join_game] and [player_joined] build it. *)
Definition newPlayer (id : jsval) (x y : Q) (facing : jsval) (animationFrame : Q)
    (username avatar : jsval) (now : Z) : Player.t :=
  Player.mk id x y (js_or facing (VStr "south")) animationFrame username avatar
    (Some x) (Some y) now.

(** The body of the loop over [data.players] of [join_game] (lines 653-666). *)
Definition joinOther (now : Z) (entry : string * jsval) : M unit :=
  let playerId := fst entry in
  let playerData := snd entry in
  s <- getState ;;
  if negb (is_str (Me.id (me s)) playerId) then
    x <- getProp playerData "x" ;;
    x <- toInt32 x ;;
    y <- getProp playerData "y" ;;
    y <- toInt32 y ;;
    facing <- getProp playerData "facing" ;;
    animationFrame <- getProp playerData "animationFrame" ;;
    animationFrame <- toInt32 animationFrame ;;
    username <- getProp playerData "username" ;;
    avatar <- getProp playerData "avatar" ;;
    modify (store playerId
              (newPlayer (VStr playerId) x y facing animationFrame username avatar now))
  else ret tt.

(** The assignments to the local player of [join_game] (lines 642-647). *)
Definition seedMe (meFromServer : val) : M unit :=
  x <- getProp meFromServer "x" ;;
  x <- toInt32 x ;;
  _ <- setMe (Me.set_x x) ;;
  y <- getProp meFromServer "y" ;;
  y <- toInt32 y ;;
  _ <- setMe (Me.set_y y) ;;
  facing <- getProp meFromServer "facing" ;;
  _ <- setMe (Me.set_facing (js_or facing (VStr "south"))) ;;
  animationFrame <- getProp meFromServer "animationFrame" ;;
  animationFrame <- toInt32 animationFrame ;;
  _ <- setMe (Me.set_animationFrame animationFrame) ;;
  avatar <- getProp meFromServer "avatar" ;;
  _ <- setMe (Me.set_avatarName avatar) ;;
  setMe (Me.set_hasServerPosition true).

(** The end of the synchronous part of [join_game]: the handler suspends
    at its [await] (line 676). *)
Definition suspendJoin (data : jsval) : M unit :=
  avatars <- getProp data "avatars" ;;
  s <- getState ;;
  _ <- emit (AwaitAvatarFrames (js_or avatars (VObj [])) (Me.avatarName (me s))) ;;
  modify (fun s => set_pendingJoins (S (pendingJoins s)) s).

(** [join_game] up to its first [await] (lines 632-676). *)
Definition joinGame (data : jsval) (now : Z) : M unit :=
  success <- getProp data "success" ;;
  if is_false success then emit (Console "error")
  else
    playerId <- getProp data "playerId" ;;
    _ <- setMe (Me.set_id playerId) ;;
    players <- getProp data "players" ;;
    meFromServer <-
      (if nullish players then ret (Val VUndef) else lookupIn players playerId) ;;
    _ <- when (truthy meFromServer) (seedMe meFromServer) ;;
    _ <- when (ToBoolean players) (forEach (entries players) (joinOther now)) ;;
    suspendJoin data.

(** [join_game] after the avatar frames were cached ([cached]) or caching
    failed (lines 683-695). *)
Definition joinGameResume (cached : bool) (now : Z) : M unit :=
  s <- getState ;;
  match pendingJoins s with
  | O => ret tt
  | S n =>
      _ <- modify (set_pendingJoins n) ;;
      _ <- (if cached then setMe (Me.set_ready true) else emit (Console "error")) ;;
      _ <- modify updateCamera ;;
      _ <- modify (set_canSendMoveCommands true) ;;
      startMovementLoop now
  end.

(** The update of the local player by [players_moved] (lines 701-708). *)
Definition moveMe (myUpdate : val) : M unit :=
  x <- getProp myUpdate "x" ;;
  x <- toInt32 x ;;
  _ <- setMe (Me.set_x x) ;;
  y <- getProp myUpdate "y" ;;
  y <- toInt32 y ;;
  _ <- setMe (Me.set_y y) ;;
  facing <- getProp myUpdate "facing" ;;
  _ <- setMe (fun m => Me.set_facing (js_or facing (Me.facing m)) m) ;;
  animationFrame <- getProp myUpdate "animationFrame" ;;
  animationFrame <- toInt32 animationFrame ;;
  _ <- setMe (Me.set_animationFrame animationFrame) ;;
  modify updateCamera.

(** The assignments of lines 716-720 to what [byId[playerId]] found. *)
Definition retarget (player : target) (playerUpdate : jsval) (now : Z) : M unit :=
  x <- getProp playerUpdate "x" ;;
  x <- toInt32 x ;;
  _ <- modify (assign player (assignTargetX x)) ;;
  y <- getProp playerUpdate "y" ;;
  y <- toInt32 y ;;
  _ <- modify (assign player (assignTargetY y)) ;;
  facing <- getProp playerUpdate "facing" ;;
  _ <- modify (fun s => assign player (assignFacing (js_or facing (facingOf s player))) s) ;;
  animationFrame <- getProp playerUpdate "animationFrame" ;;
  animationFrame <- toInt32 animationFrame ;;
  _ <- modify (assign player (assignAnimationFrame animationFrame)) ;;
  modify (assign player (assignLastUpdate now)).

(** The body of the loop over [data.players] of [players_moved]. *)
Definition moveOther (now : Z) (entry : string * jsval) : M unit :=
  let playerId := fst entry in
  let playerUpdate := snd entry in
  s <- getState ;;
  if negb (is_str (Me.id (me s)) playerId) && present (byId s playerId)
  then retarget (targetOf playerId (byId s playerId)) playerUpdate now
  else ret tt.

Definition playersMoved (data : jsval) (now : Z) : M unit :=
  players <- getProp data "players" ;;
  when (ToBoolean players)
    (s <- getState ;;
     myUpdate <- lookupIn players (Me.id (me s)) ;;
     _ <- when (truthy myUpdate) (moveMe myUpdate) ;;
     forEach (entries players) (moveOther now)).

Definition playerJoined (data : jsval) (now : Z) : M unit :=
  player <- getProp data "player" ;;
  avatar <- getProp data "avatar" ;;
  when (ToBoolean player && ToBoolean avatar)
    (id <- getProp player "id" ;;
     x <- getProp player "x" ;;
     x <- toInt32 x ;;
     y <- getProp player "y" ;;
     y <- toInt32 y ;;
     facing <- getProp player "facing" ;;
     animationFrame <- getProp player "animationFrame" ;;
     animationFrame <- toInt32 animationFrame ;;
     username <- getProp player "username" ;;
     playerAvatar <- getProp player "avatar" ;;
     key <- toKey id ;;
     _ <- modify (store key
                    (newPlayer id x y facing animationFrame username playerAvatar now)) ;;
     _ <- emit (CacheAvatarFrames avatar) ;;
     _ <- emit (Console "log") ;;
     emit UpdateUI).

Definition playerLeft (data : jsval) : M unit :=
  playerId <- getProp data "playerId" ;;
  when (ToBoolean playerId)
    (key <- toKey playerId ;;
     s <- getState ;;
     when (present (byId s key))
       (_ <- emit (Console "log") ;;
        _ <- modify (fun s => set_otherPlayers (delete key (otherPlayers s)) s) ;;
        emit UpdateUI)).

Definition chat (data : jsval) : M unit :=
  username <- getProp data "username" ;;
  message <- getProp data "message" ;;
  when (ToBoolean username && ToBoolean message)
    (emit (AddChatMessage (VStr "player") message username)).

(** The [message] listener; [None] is a payload [JSON.parse] rejects. *)
Definition onMessage (parsed : option jsval) (now : Z) : M unit :=
  match parsed with
  | None => emit (Console "warn")
  | Some data =>
      act <- getProp data "action" ;;
      if is_str act "join_game" then joinGame data now
      else if is_str act "players_moved" then playersMoved data now
      else if is_str act "player_joined" then playerJoined data now
      else if is_str act "player_left" then playerLeft data
      else if is_str act "chat" then chat data
      else ret tt
  end.

(** ** Socket life cycle and bootstrap (lines 607-621, 764-802) *)

Definition onOpen : M unit :=
  _ <- modify (set_ws (Some OPEN)) ;;
  s <- getState ;;
  _ <- send (JoinGame (Me.username (me s))) ;;
  emit UpdateUI.

Definition onClose : M unit :=
  _ <- modify (set_ws (Some CLOSED)) ;;
  _ <- emit (Console "warn") ;;
  _ <- modify stopMovementLoop ;;
  emit UpdateUI.

Definition onError : M unit :=
  _ <- emit (Console "error") ;;
  _ <- modify stopMovementLoop ;;
  emit UpdateUI.

(** [connectWebSocket]: [constructed] is false when the constructor throws. *)
Definition connectWebSocket (constructed : bool) : M unit :=
  if constructed then modify (set_ws (Some CONNECTING))
  else emit (Console "error").

(** [worldImage.onload] with the image's and the window's sizes. *)
Definition onWorldLoaded (imageWidth imageHeight innerWidth innerHeight : Q)
    (constructed : bool) : M unit :=
  _ <- modify (set_world (World.mk imageWidth imageHeight true)) ;;
  _ <- modify (resizeCanvas innerWidth innerHeight) ;;
  _ <- emit (AddChatMessage (VStr "system")
               (VStr "Welcome to the MMO! Type messages to chat with other players.")
               VNull) ;;
  connectWebSocket constructed.

(** The [resize] listener (lines 799-802). *)
Definition onResize (innerWidth innerHeight : Q) (s : State) : State :=
  updateCamera (resizeCanvas innerWidth innerHeight s).

(** ** Events *)

Inductive Event :=
  | WorldLoaded (imageWidth imageHeight innerWidth innerHeight : Q)
      (constructed : bool)
  | Resize (innerWidth innerHeight : Q)
  | Frame
  | KeyDown (key : string)
  | KeyUp (key : string)
  | Click (clientX clientY rectLeft rectTop : Q)
  | ChatEnter (message : string)
  | Tick
  | SocketOpen
  | SocketMessage (parsed : option jsval)
  | SocketClose
  | SocketError
  | AvatarsCached (cached : bool).

(** The listener an event runs, at host time [now]. *)
Definition handler (now : Z) (e : Event) : M unit :=
  match e with
  | WorldLoaded iw ih ww wh constructed => onWorldLoaded iw ih ww wh constructed
  | Resize w h => modify (onResize w h)
  | Frame => modify render
  | KeyDown key => handleKeyDown key
  | KeyUp key => handleKeyUp key
  | Click cx cy rl rt => onClick cx cy rl rt
  | ChatEnter message => onChatEnter message
  | Tick =>
      s <- getState ;;
      if movementLoopId s then movementLoop now else ret tt
  | SocketOpen => onOpen
  | SocketMessage parsed => onMessage parsed now
  | SocketClose => onClose
  | SocketError => onError
  | AvatarsCached cached => joinGameResume cached now
  end.

Definition step (s : State) (now : Z) (e : Event) : State :=
  finalState (handler now e) s.

Definition emitted (s : State) (now : Z) (e : Event) : list Effect :=
  effects (handler now e) s.

(** An execution: timed events in order; the result is the final state and,
    per event, its time and its effects. *)
Fixpoint run (s : State) (evs : list (Z * Event)) : State * list (Z * list Effect) :=
  match evs with
  | [] => (s, [])
  | (now, e) :: rest =>
      let r := run (step s now e) rest in
      (fst r, (now, emitted s now e) :: snd r)
  end.

End Client.

(** ** A host for closed examples

    [standardHost] agrees with ECMAScript on the strings made of decimal
    digits (and on the empty string) and on the integers below 10^21; the
    examples below convert nothing else.  Its built-in prototypes have the
    properties of ECMAScript 2023. *)

Definition decimalStringToNumber (s : string) : number :=
  match digitsValue 0 s with
  | Some z => Finite (inject_Z z)
  | None => NaN
  end.

Definition decimalNumberToString (n : number) : string :=
  match n with
  | Finite q => pretty (Qnum (Qred q))
  | NaN => "NaN"
  | Infinity false => "Infinity"
  | Infinity true => "-Infinity"
  end.

Definition nativeFunctionString (name : string) : string :=
  "function " +:+ name +:+ "() { [native code] }".

Definition ArrayPrototype_properties : list string :=
  ["at"; "concat"; "constructor"; "copyWithin"; "entries"; "every"; "fill";
   "filter"; "find"; "findIndex"; "findLast"; "findLastIndex"; "flat"; "flatMap";
   "forEach"; "includes"; "indexOf"; "join"; "keys"; "lastIndexOf"; "map"; "pop";
   "push"; "reduce"; "reduceRight"; "reverse"; "shift"; "slice"; "some"; "sort";
   "splice"; "toLocaleString"; "toReversed"; "toSorted"; "toSpliced"; "toString";
   "unshift"; "values"; "with"].

Definition StringPrototype_properties : list string :=
  ["at"; "charAt"; "charCodeAt"; "codePointAt"; "concat"; "constructor";
   "endsWith"; "includes"; "indexOf"; "isWellFormed"; "lastIndexOf";
   "localeCompare"; "match"; "matchAll"; "normalize"; "padEnd"; "padStart";
   "repeat"; "replace"; "replaceAll"; "search"; "slice"; "split"; "startsWith";
   "substring"; "toLocaleLowerCase"; "toLocaleUpperCase"; "toLowerCase";
   "toString"; "toUpperCase"; "toWellFormed"; "trim"; "trimEnd"; "trimStart";
   "valueOf"; "anchor"; "big"; "blink"; "bold"; "fixed"; "fontcolor"; "fontsize";
   "italics"; "link"; "small"; "strike"; "sub"; "substr"; "sup"; "trimLeft";
   "trimRight"].

Definition NumberPrototype_properties : list string :=
  ["constructor"; "toExponential"; "toFixed"; "toLocaleString"; "toPrecision";
   "toString"; "valueOf"].

Definition BooleanPrototype_properties : list string :=
  ["constructor"; "toString"; "valueOf"].

Definition standardPrototypeHas (v : jsval) (k : string) : bool :=
  match v with
  | VArr _ => existsb (String.eqb k) ArrayPrototype_properties
  | VStr _ => existsb (String.eqb k) StringPrototype_properties
  | VNum _ => existsb (String.eqb k) NumberPrototype_properties
  | VBool _ => existsb (String.eqb k) BooleanPrototype_properties
  | _ => false
  end.

#[export] Instance standardHost : Host :=
  {| StringToNumber := decimalStringToNumber;
     NumberToString := decimalNumberToString;
     FunctionToString := nativeFunctionString;
     prototypeHas := standardPrototypeHas |}.

(** The payload of a successful join: the local player "42" at [(x, y)]. *)
Definition joinPayload (x y : Q) : jsval :=
  VObj [("action", VStr "join_game"); ("success", VBool true);
        ("playerId", VStr "42");
        ("players",
          VObj [("42", VObj [("x", VNum (Finite x)); ("y", VNum (Finite y));
                             ("facing", VStr "south");
                             ("animationFrame", VNum (Finite 0));
                             ("avatar", VStr "hero"); ("username", VStr "Tim")])]);
        ("avatars", VObj [])].

(** The world loads (2048x2048 in an 800x600 window), the socket opens, the
    join succeeds and the avatars are cached. *)
Definition joining (x y : Q) : list (Z * Event) :=
  [(1000, WorldLoaded 2048 2048 800 600 true);
   (1100, SocketOpen);
   (1200, SocketMessage (Some (joinPayload x y)));
   (1300, AvatarsCached true)].

Definition joined (x y : Q) : State := fst (run initial (joining x y)).

(** After the join, two clicks one millisecond apart. *)
Definition twoClicks : list (Z * Event) :=
  joining 100 200 ++ [(5000, Click 10 10 0 0); (5001, Click 20 20 0 0)].

(** After the join, the key [ArrowUp] is held while the movement loop ticks
    every 50 ms. *)
Definition heldKey : list (Z * Event) :=
  joining 100 200 ++
  [(1320, KeyDown "ArrowUp"); (1350, Tick); (1400, Tick); (1450, Tick)].

(** A rejected join, a [players_moved] naming an unknown player "99", one
    moving the local player with [x] missing and a fractional [y], and one
    moving the remote player "7". *)
Definition rejectPayload : jsval :=
  VObj [("action", VStr "join_game"); ("success", VBool false);
        ("error", VStr "full")].

Definition unknownMoved : jsval :=
  VObj [("action", VStr "players_moved");
        ("players", VObj [("99", VObj [("x", VNum (Finite 5)); ("y", VNum (Finite 6))])])].

Definition partialMoved : jsval :=
  VObj [("action", VStr "players_moved");
        ("players", VObj [("42", VObj [("y", VNum (Finite (79 # 10)))])])].

Definition remoteMoved : jsval :=
  VObj [("action", VStr "players_moved");
        ("players",
          VObj [("7", VObj [("x", VNum (Finite (-79 # 10))); ("y", VStr "north")])])].

Definition chatPayload : jsval :=
  VObj [("action", VStr "chat"); ("username", VStr "Ann"); ("message", VStr "hi")].

(** A [players_moved] that moves the local player "42" to [(x, 6)]. *)
Definition localMoved (x : jsval) : jsval :=
  VObj [("action", VStr "players_moved");
        ("players", VObj [("42", VObj [("x", x); ("y", VNum (Finite 6))])])].

(** A payload object whose conversion to a primitive throws. *)
Definition unconvertible : jsval := VObj [("toString", VNum (Finite 0))].

(** A [players_moved] whose players map names [__proto__], an identifier
    that is neither the local one nor in the remote-player map. *)
Definition protoMoved : jsval :=
  VObj [("action", VStr "players_moved");
        ("players",
          VObj [("__proto__", VObj [("x", VNum (Finite 5)); ("y", VNum (Finite 6));
                                    ("facing", VStr "north")])])].

(** A remote player "7" displayed at [(x, y)] and heading for (10, 0). *)
Definition remote7 (x y : Q) : Player.t :=
  Player.mk (VStr "7") x y (VStr "south") 0 (VStr "Ann") (VStr "hero")
    (Some 10%Q) (Some 0%Q) 0.

Definition withRemote7 (x y : Q) : State :=
  set_otherPlayers {[ "7" := remote7 x y ]} (joined 100 200).

(** ** Vocabulary of the outbound-command properties *)

(** An effect that hands a message with action [move] to the socket. *)
Definition isMove (e : Effect) : bool :=
  match e with
  | Send _ m => String.eqb (action m) "move"
  | _ => false
  end.

(** A move by direction: what the movement loop sends for a pressed key. *)
Definition isDirectionMove (e : Effect) : bool :=
  match e with
  | Send _ (MoveDir _) => true
  | _ => false
  end.

(** A move was sent only with the gate set. *)
Definition gated (e : Effect) : Prop :=
  match e with
  | Send gate m => action m = "move" -> gate = true
  | _ => True
  end.

(** Not a move at all. *)
Definition quiet (e : Effect) : Prop :=
  match e with
  | Send _ m => action m <> "move"
  | _ => True
  end.

(** The effects of one event contain a move; contain a burst of the
    movement loop. *)
Definition emitsMove (out : list Effect) : bool := existsb isMove out.
Definition burst (out : list Effect) : bool := existsb isDirectionMove out.

(** The host clock never runs backwards along a list of event times. *)
Fixpoint nondecreasing (times : list Z) : bool :=
  match times with
  | t1 :: ((t2 :: _) as rest) => (t1 <=? t2) && nondecreasing rest
  | _ => true
  end.

(** ** Vocabulary of the camera, interpolation and frame properties *)

(** The guard of [updateCamera] passes. *)
Definition cameraReady (s : State) : bool :=
  World.ready (world s)
  && negb (Qeqb (World.width (world s)) 0)
  && negb (Qeqb (World.height (world s)) 0)
  && Me.hasServerPosition (me s).

(** The test [Math.abs(dx) > 0.5 || Math.abs(dy) > 0.5] of one tick. *)
Definition farFromTarget (x y targetX targetY : Q) : Prop :=
  (1 # 2 < Qabs (targetX - x))%Q \/ (1 # 2 < Qabs (targetY - y))%Q.

(** The squared distance between the displayed and the target position. *)
Definition dist2 (x y targetX targetY : Q) : Q :=
  ((targetX - x) * (targetX - x) + (targetY - y) * (targetY - y))%Q.

Definition myPosition (s : State) : Q * Q := (Me.x (me s), Me.y (me s)).

(** Every remote player has a target: the test [targetX !== undefined &&
    targetY !== undefined] of the interpolation passes. *)
Definition targetsDefined (s : State) : Prop :=
  forall id p, otherPlayers s !! id = Some p ->
    exists tx ty, Player.targetX p = Some tx /\ Player.targetY p = Some ty.

(** ** Relations a handler follows

    A handler [follows] a relation [R] between the state before, the state
    after and the effects when every run of it is in [R].  A relation that
    holds of doing nothing and composes along sequencing ([Composable]) is
    followed by a handler as soon as its primitive steps follow it. *)

Definition follows {A} (R : State -> State -> list Effect -> Prop) (c : M A) : Prop :=
  forall s, R s (finalState c s) (effects c s).

Class Composable (R : State -> State -> list Effect -> Prop) := {
  composable_nil : forall s, R s s [];
  composable_app : forall s s1 s2 out1 out2,
    R s s1 out1 -> R s1 s2 out2 -> R s s2 (out1 ++ out2)
}.

(** [c] keeps the state property [P]; [c] only produces effects in [E]. *)
Definition keepsR (P : State -> Prop) : State -> State -> list Effect -> Prop :=
  fun s s' _ => P s -> P s'.
Definition emitsR (E : Effect -> Prop) : State -> State -> list Effect -> Prop :=
  fun _ _ out => Forall E out.

Abbreviation keeps P := (follows (keepsR P)).
Abbreviation emitsOnly E := (follows (emitsR E)).

(** A computation that only reads: it leaves the state alone and produces
    no effect. *)
Definition reads {A} (c : M A) : Prop :=
  forall s, finalState c s = s /\ effects c s = [].

(** What a handler run at time [now] does to the throttle: either it leaves
    [lastMoveTime] alone and sends no direction move, or the throttle had
    expired and [lastMoveTime] is now [now]. *)
Definition loopOutcome (now : Z) (s s' : State) (out : list Effect) : Prop :=
  (lastMoveTime s' = lastMoveTime s /\ burst out = false) \/
  (MOVE_THROTTLE_MS <= now - lastMoveTime s /\ lastMoveTime s' = now).

(** The properties of [Object.prototype] the program may add. *)
Definition strayNames : list string :=
  ["targetX"; "targetY"; "facing"; "animationFrame"; "lastUpdate"].

(** Nothing was left on [Object.prototype], on its functions, or in the
    place of the prototype of [byId]. *)
Definition pristine (s : State) : Prop :=
  byIdPrototype s = None /\ objectPrototype s = Stray.empty /\ members s = ∅.

Section ClientVocabulary.
Context `{Host}.

(** The second half of C1 read literally: in an execution whose clock
    never runs backwards, any two events that send a move are at least the
    throttle apart. *)
Definition allMovesThrottled : Prop :=
  forall (evs : list (Z * Event)) (i j : nat) ti tj ei ej,
    nondecreasing (fst <$> evs) = true ->
    (i < j)%nat ->
    snd (run initial evs) !! i = Some (ti, ei) ->
    snd (run initial evs) !! j = Some (tj, ej) ->
    emitsMove ei = true -> emitsMove ej = true ->
    MOVE_THROTTLE_MS <= tj - ti.

(** C10 read literally, for the local player: an [x] of the update that is
    not a number is stored as 0. *)
Definition nonNumericStoredAsZero : Prop :=
  forall (s : State) (now : Z) (data players myUpdate x : jsval) (key : string),
    prop data "action" = VStr "players_moved" ->
    prop data "players" = players ->
    ToString (Me.id (me s)) = Some key ->
    hasOwn players key = true -> prop players key = myUpdate ->
    ToBoolean myUpdate = true ->
    prop myUpdate "x" = x ->
    (forall n, x <> VNum n) ->
    Me.x (me (step s now (SocketMessage (Some data)))) = 0%Q.

(** [stored] is the 32-bit integer of the number [n], as [n | 0] yields
    it: zero for [NaN] and the infinities; for a finite number the integer
    in the signed 32-bit range that differs from its integer part (rounded
    toward zero) by a multiple of 2^32, which is that integer part itself
    when it is in the range. *)
Definition int32Of (n : number) (stored : Q) : Prop :=
  match n with
  | NaN | Infinity _ => stored = 0%Q
  | Finite q =>
      exists z : Z,
        stored = inject_Z z /\ - 2 ^ 31 <= z < 2 ^ 31 /\
        (exists k : Z, z = Qtrunc q + k * 2 ^ 32) /\
        ((0 <= q)%Q -> Qtrunc q = Qfloor q) /\
        ((q <= 0)%Q -> Qtrunc q = Qceiling q) /\
        ((- inject_Z (2 ^ 31) <= q)%Q -> (q < inject_Z (2 ^ 31))%Q -> z = Qtrunc q)
  end.

(** [stored] is what [v | 0] leaves for a value [v] whose conversion to a
    number completes. *)
Definition int32Coerced (v : jsval) (stored : Q) : Prop :=
  exists n, ToNumber v = Some n /\ int32Of n stored.

(** A value whose conversion to a primitive throws: an object with an own
    [toString], or an array with such an element, at any depth. *)
Inductive unconvertibleValue : jsval -> Prop :=
  | unconvertible_object props :
      hasKey "toString" props = true -> unconvertibleValue (VObj props)
  | unconvertible_array elems e :
      e ∈ elems -> unconvertibleValue e -> unconvertibleValue (VArr elems).

(** [data.players?.[data.playerId]] in state [s]; [None] when the
    conversion of the identifier to a property key throws. *)
Definition ownEntry (s : State) (data : jsval) : option val :=
  if nullish (prop data "players") then Some (Val VUndef)
  else lookup s (prop data "players") <$> ToString (prop data "playerId").

(** The local player as [join_game] seeds it from the server's entry. *)
Definition seededMe (s : State) (playerId : jsval) (meFromServer : val) (x y a : Q)
    : Me.t :=
  Me.mk playerId (Me.username (me s)) x y
    (js_or (field s meFromServer "facing") (VStr "south")) a
    (field s meFromServer "avatar") (Me.ready (me s)) true.

(** A remote player as [join_game] and [player_joined] store it, from the
    server's record and the coerced coordinates. *)
Definition playerOf (s : State) (id record : jsval) (x y a : Q) (now : Z) : Player.t :=
  newPlayer id x y (field s record "facing") a (prop record "username")
    (prop record "avatar") now.

(** What [byId[key] = record] left for [key]: the own entry, or for
    [__proto__] the record in the place of the prototype. *)
Definition recordAt (s : State) (key : string) : option Player.t :=
  if String.eqb key "__proto__" then byIdPrototype s else otherPlayers s !! key.

(** What the loop of [join_game] leaves alone. *)
Definition joinLoopFrame (s s' : State) : Prop :=
  me s' = me s /\ canSendMoveCommands s' = canSendMoveCommands s /\
  viewport s' = viewport s /\ pendingJoins s' = pendingJoins s /\
  objectPrototype s' = objectPrototype s /\ members s' = members s.

(** The coordinates and the animation frame of a server record convert. *)
Definition converts (s : State) (record : val) (x y a : Q) : Prop :=
  or0 (field s record "x") = Some x /\
  or0 (field s record "y") = Some y /\
  or0 (field s record "animationFrame") = Some a.

End ClientVocabulary.

(** * Further functions of the client *)

(** ** Frames of an avatar (lines 193-259)

    [state.avatars.byName] maps an avatar name to its cached frames, one
    list of images per direction; it is filled by [cacheAvatarFrames] and
    read here. *)

Module Image.
Record t := mk {
  complete : bool;
  naturalWidth : Q;
  width : Q;
  naturalHeight : Q;
  height : Q
}.
End Image.

Module Frames.
Record t := mk {
  north : list Image.t;
  south : list Image.t;
  east : list Image.t;
  west : list Image.t
}.
End Frames.

Inductive Facing := North | South | East | West.

(** What [state.avatars.byName[name]] yields: nothing (or another falsy
    value), a cached avatar, or a truthy value without [frames], such as a
    member inherited from [Object.prototype]. *)
Inductive AvatarEntry :=
  | NoAvatar
  | Cached (frames : Frames.t)
  | NotAnAvatar.

(** [dir = facing || "south"], replaced by ["south"] unless it is one of the
    four directions. *)
Definition frameDirection (facing : jsval) : Facing :=
  let dir := js_or facing (VStr "south") in
  if is_str dir "north" then North
  else if is_str dir "south" then South
  else if is_str dir "east" then East
  else if is_str dir "west" then West
  else South.

Definition framesOf (f : Frames.t) (dir : Facing) : list Image.t :=
  match dir with
  | North => Frames.north f
  | South => Frames.south f
  | East => Frames.east f
  | West => Frames.west f
  end.

(** [frames[idx]] for a number [idx]: an element only at an integer index
    inside the list. *)
Definition arrayAt {A} (l : list A) (idx : Q) : option A :=
  if Qeqb (inject_Z (Qfloor idx)) idx && (0 <=? Qfloor idx)
  then l !! Z.to_nat (Qfloor idx)
  else None.

(** The frame for a facing and an animation frame number (the common body
    of [getMyCurrentFrame] and [getPlayerCurrentFrame]). *)
Definition currentFrame (avatar : option Frames.t) (facing : jsval)
    (animationFrame : Q) : option Image.t :=
  match avatar with
  | None => None
  | Some f =>
      let frames := framesOf f (frameDirection facing) in
      let idx :=
        clamp (inject_Z (ToInt32 (Finite animationFrame))) 0
          (Math_max 0 (inject_Z (Z.of_nat (length frames)) - 1)%Q) in
      arrayAt frames idx
  end.

(** [frame.naturalWidth || frame.width] and the same for the height. *)
Definition frameW (frame : Image.t) : Q :=
  if Qeqb (Image.naturalWidth frame) 0 then Image.width frame
  else Image.naturalWidth frame.
Definition frameH (frame : Image.t) : Q :=
  if Qeqb (Image.naturalHeight frame) 0 then Image.height frame
  else Image.naturalHeight frame.

(** ** Drawing (lines 176-315) *)

Inductive DrawCmd :=
  | DrawWorld (sx sy sw sh dx dy dw dh : Q)
  | DrawImage (frame : Image.t) (dx dy : Q)
  | FillRect (x y w h : Q)
  | FillText (text : jsval) (x y : Q).

Definition Math_ceil (q : Q) : Q := inject_Z (Qceiling q).

Definition drawWorld (s : State) : list DrawCmd :=
  if negb (World.ready (world s)) then []
  else
    let v := viewport s in
    [DrawWorld (Viewport.cameraX v) (Viewport.cameraY v)
       (Viewport.width v) (Viewport.height v)
       0 0 (Viewport.width v) (Viewport.height v)].

(** [drawNameLabel] with the text width [ctx.measureText] reports. *)
Definition drawNameLabel (measured : Q) (text : jsval) (xCenter topY paddingY : Q)
    : list DrawCmd :=
  let textWidth := Math_ceil measured in
  let textHeight := 16%Q in
  let padX := 6%Q in
  let boxWidth := (textWidth + padX * 2)%Q in
  let boxHeight := (textHeight + paddingY * 2)%Q in
  let boxX := Math_round (xCenter - boxWidth / 2)%Q in
  let boxY := Math_round (topY - boxHeight - 4)%Q in
  [FillRect boxX boxY boxWidth boxHeight;
   FillText text (boxX + padX)%Q (boxY + paddingY)%Q].

(** What a drawing function did: the commands it issued, and whether it
    returned or threw. *)
Inductive Painted :=
  | Returned (commands : list DrawCmd)
  | Threw (commands : list DrawCmd).

Definition commands (p : Painted) : list DrawCmd :=
  match p with
  | Returned l | Threw l => l
  end.

Section Drawing.
Context `{Host}.
(** [ctx.measureText(text).width]; [None] when the conversion of the text
    to a string throws. *)
Variable measureText : jsval -> option Q.
Variable byName : string -> AvatarEntry.

(** The common body of [getMyCurrentFrame] and [getPlayerCurrentFrame];
    [None] when it throws: the name does not convert to a property key, or
    [frames] is read from a value that has none. *)
Definition frameFor (avatarName facing : jsval) (animationFrame : Q)
    : option (option Image.t) :=
  match ToString avatarName with
  | None => None
  | Some name =>
      match byName name with
      | NoAvatar => Some None
      | Cached f => Some (currentFrame (Some f) facing animationFrame)
      | NotAnAvatar => None
      end
  end.

Definition getMyCurrentFrame (s : State) : option (option Image.t) :=
  frameFor (Me.avatarName (me s)) (Me.facing (me s)) (Me.animationFrame (me s)).

Definition getPlayerCurrentFrame (player : Player.t) : option (option Image.t) :=
  frameFor (Player.avatarName player) (Player.facing player)
    (Player.animationFrame player).

(** The sprite and, when its text can be measured, the name label. *)
Definition drawSprite (frame : Image.t) (screenX screenY : Q) (username : jsval)
    : Painted :=
  let dx := Math_round (screenX - frameW frame / 2)%Q in
  let dy := Math_round (screenY - frameH frame)%Q in
  match measureText username with
  | Some measured =>
      Returned (DrawImage frame dx dy
                :: drawNameLabel measured username (Math_round screenX) dy 4)
  | None => Threw [DrawImage frame dx dy]
  end.

Definition drawPlayer (s : State) (player : Player.t) : Painted :=
  match getPlayerCurrentFrame player with
  | None => Threw []
  | Some None => Returned []
  | Some (Some frame) =>
      if negb (Image.complete frame) then Returned []
      else
        let screenX := (Player.x player - Viewport.cameraX (viewport s))%Q in
        let screenY := (Player.y player - Viewport.cameraY (viewport s))%Q in
        if Qgtb (- frameW frame) screenX
           || Qgtb screenX (Viewport.width (viewport s) + frameW frame)
           || Qgtb (- frameH frame) screenY
           || Qgtb screenY (Viewport.height (viewport s) + frameH frame)
        then Returned []
        else drawSprite frame screenX screenY (Player.username player)
  end.

Definition drawMe (s : State) : Painted :=
  if negb (Me.ready (me s)) then Returned []
  else
    match getMyCurrentFrame s with
    | None => Threw []
    | Some None => Returned []
    | Some (Some frame) =>
        if negb (Image.complete frame) then Returned []
        else
          drawSprite frame (Me.x (me s) - Viewport.cameraX (viewport s))%Q
            (Me.y (me s) - Viewport.cameraY (viewport s))%Q (Me.username (me s))
    end.

End Drawing.

(** ** Player count and chat panel (lines 485-491, 584-605) *)

(** [totalPlayers] of [updateUI]. *)
Definition totalPlayers (s : State) : nat := (size (otherPlayers s) + 1)%nat.

(** A child of the chat panel: what [addChatMessage] puts into the new
    element for its [type]. *)
Inductive ChatLine :=
  | SystemLine (content : jsval)
  | PlayerLine (username content : jsval)
  | BlankLine.

Definition chatLine (type content username : jsval) : ChatLine :=
  if is_str type "system" then SystemLine content
  else if is_str type "player" then PlayerLine username content
  else BlankLine.

(** [addChatMessage] on the children of the chat panel. *)
Definition addChatMessage (type content username : jsval)
    (messages : list ChatLine) : list ChatLine :=
  let messages' := messages ++ [chatLine type content username] in
  if (50 <? length messages')%nat then drop 1 messages' else messages'.

(** The chat panel after the effects of a handler. *)
Fixpoint chatAfter (out : list Effect) (messages : list ChatLine) : list ChatLine :=
  match out with
  | [] => messages
  | AddChatMessage type content username :: rest =>
      chatAfter rest (addChatMessage type content username messages)
  | _ :: rest => chatAfter rest messages
  end.

(** ** Minimap (lines 509-551) *)

(** [a * b] and [a / b] where the result may not be finite.  The finite
    results are exact: of a scaled coordinate only what the rounding of
    binary64 arithmetic preserves (its sign, the order of two coordinates,
    a bound with slack) is stated below. *)
Definition divide (a b : Q) : number :=
  if Qeqb b 0 then
    if Qeqb a 0 then NaN else Infinity (Qle_bool a 0)
  else Finite (a / b).

Definition scaleBy (scale : number) (x : Q) : number :=
  match scale with
  | Finite k => Finite (x * k)
  | NaN => NaN
  | Infinity negative =>
      if Qeqb x 0 then NaN else Infinity (xorb negative (Qle_bool x 0))
  end.

Definition minimapSize : Q := 200.

Definition minimapScale (s : State) : number :=
  divide minimapSize (Math_max (World.width (world s)) (World.height (world s))).

Module Minimap.
Record t := mk {
  viewportRect : number * number * number * number;
  myDot : number * number;
  otherDots : gmap string (number * number)
}.
End Minimap.

(** [updateMinimap]: what is drawn, or [None] when the world is not ready
    ([present] tells whether the minimap element exists). *)
Definition updateMinimap (present : bool) (s : State) : option Minimap.t :=
  if negb present || negb (World.ready (world s)) then None
  else
    let scale := minimapScale s in
    let v := viewport s in
    Some (Minimap.mk
            (scaleBy scale (Viewport.cameraX v), scaleBy scale (Viewport.cameraY v),
             scaleBy scale (Viewport.width v), scaleBy scale (Viewport.height v))
            (scaleBy scale (Me.x (me s)), scaleBy scale (Me.y (me s)))
            ((fun p => (scaleBy scale (Player.x p), scaleBy scale (Player.y p)))
               <$> otherPlayers s)).

(** ** Pixel ratio (lines 6-7) *)

(** [getPixelRatio] for a finite [window.devicePixelRatio]; [None] is a
    missing one. *)
Definition getPixelRatio (devicePixelRatio : option Q) : Q :=
  let ratio :=
    match devicePixelRatio with
    | Some r => if Qeqb r 0 then 1%Q else r
    | None => 1%Q
    end in
  Math_max 1 (Math_floor ratio).

(** ** Vocabulary of the further properties *)

#[export] Instance direction_eq_dec : EqDecision direction.
Proof. solve_decision. Defined.

(** A 32-bit integer. *)
Definition isInt32 (q : Q) : Prop :=
  exists z : Z, q = inject_Z z /\ - 2 ^ 31 <= z < 2 ^ 31.

(** Every coordinate the server wrote is a 32-bit integer. *)
Definition coordinatesInt32 (s : State) : Prop :=
  isInt32 (Me.x (me s)) /\ isInt32 (Me.y (me s)) /\
  isInt32 (Me.animationFrame (me s)) /\
  forall id p, otherPlayers s !! id = Some p ->
    isInt32 (Player.animationFrame p) /\
    exists tx ty, Player.targetX p = Some tx /\ Player.targetY p = Some ty /\
                  isInt32 tx /\ isInt32 ty.

(** The displayed position of a remote player is its target. *)
Definition atTarget (p : Player.t) : Prop :=
  Player.targetX p = Some (Player.x p) /\ Player.targetY p = Some (Player.y p).

(** The sum of the two offsets between displayed position and target. *)
Definition offset (p : Player.t) : Q :=
  match Player.targetX p, Player.targetY p with
  | Some tx, Some ty => (Qabs (tx - Player.x p) + Qabs (ty - Player.y p))%Q
  | _, _ => 0%Q
  end.

(** The names of [keysPressed] whose value is [true], in the order of
    [Object.entries]. *)
Definition activeDirections (k : Keys.t) : list direction :=
  fst <$> List.filter snd (keyEntries k).

(** The added properties of [keysPressed] have distinct names, none of
    them a declared one. *)
Definition addedKeysDistinct (k : Keys.t) : Prop :=
  NoDup (fst <$> Keys.others k) /\
  forall name, name ∈ fst <$> Keys.others k -> directionOf name = Other name.

(** The loop is armed, the socket open, the gate set and no key pressed. *)
Definition idle (s : State) : Prop :=
  movementLoopId s = true /\ ws_open s = true /\ canSendMoveCommands s = true /\
  existsb snd (keyEntries (keysPressed s)) = false.

(** ** Further sample data *)

(** The state after the join with the key [ArrowUp] held. *)
Definition holding : State :=
  fst (run initial (joining 100 200 ++ [(1320, KeyDown "ArrowUp")])).

(** The state in which the join message of [joining] has been handled and
    the avatars are still being cached. *)
Definition joinPending : State :=
  fst (run initial
         [(1000, WorldLoaded 2048 2048 800 600 true);
          (1100, SocketOpen);
          (1200, SocketMessage (Some (joinPayload 100 200)))]).

Definition pingPayload : jsval := VObj [("action", VStr "ping")].

Definition leftPayload (id : string) : jsval :=
  VObj [("action", VStr "player_left"); ("playerId", VStr id)].

Definition serverPlayer (id : string) (x y : Q) : jsval :=
  VObj [("id", VStr id); ("x", VNum (Finite x)); ("y", VNum (Finite y));
        ("facing", VStr "east"); ("animationFrame", VNum (Finite 1));
        ("avatar", VStr "hero"); ("username", VStr "Ann")].

Definition joinedPayload (id : string) : jsval :=
  VObj [("action", VStr "player_joined");
        ("player", serverPlayer id 300 400);
        ("avatar", VObj [("name", VStr "hero")])].

(** A player record without [facing]. *)
Definition plainJoined : jsval :=
  VObj [("action", VStr "player_joined");
        ("player", VObj [("id", VStr "9"); ("x", VNum (Finite 1)); ("y", VNum (Finite 2))]);
        ("avatar", VObj [("name", VStr "hero")])].

(** A successful join listing the local player "42" and a player "7", and
    one that lists only the player "7". *)
Definition crowdedJoin : jsval :=
  VObj [("action", VStr "join_game"); ("success", VBool true);
        ("playerId", VStr "42");
        ("players", VObj [("42", serverPlayer "42" 100 200);
                          ("7", serverPlayer "7" 300 400)])].

Definition strangerJoin : jsval :=
  VObj [("action", VStr "join_game"); ("success", VBool true);
        ("playerId", VStr "42");
        ("players", VObj [("7", serverPlayer "7" 300 400)])].

(** A successful join whose identifier "constructor" names a member of
    [Object.prototype] and whose players map is empty, and one whose
    players map lists a player under the key [__proto__]. *)
Definition inheritedJoin : jsval :=
  VObj [("action", VStr "join_game"); ("success", VBool true);
        ("playerId", VStr "constructor"); ("players", VObj [])].

Definition protoJoin : jsval :=
  VObj [("action", VStr "join_game"); ("success", VBool true);
        ("playerId", VStr "42");
        ("players", VObj [("__proto__", serverPlayer "__proto__" 300 400)])].

Definition sampleFrame (w h : Q) : Image.t := Image.mk true w 0 h 0.

Definition sampleFrames : Frames.t :=
  Frames.mk [sampleFrame 32 48]
    [sampleFrame 32 48; sampleFrame 34 48; sampleFrame 36 48] [] [].

Definition sampleAvatars (name : string) : AvatarEntry :=
  if String.eqb name "hero" then Cached sampleFrames
  else if isMember name then NotAnAvatar
  else NoAvatar.
(** * Properties *)

(** ** Camera *)

Lemma clamp_between value lo hi :
  (lo <= hi)%Q -> (lo <= clamp value lo hi <= hi)%Q.
Proof.
  intros Hle. unfold clamp, Math_max, Math_min. split.
  - apply Q.le_max_l.
  - apply Q.max_lub; [exact Hle | apply Q.le_min_l].
Qed.

Lemma updateCamera_ready s :
  cameraReady s = true ->
  viewport (updateCamera s) =
    Viewport.mk (Viewport.width (viewport s)) (Viewport.height (viewport s))
      (clamp (Me.x (me s) - Math_floor (Viewport.width (viewport s) / 2)) 0
         (Math_max 0 (World.width (world s) - Viewport.width (viewport s))))
      (clamp (Me.y (me s) - Math_floor (Viewport.height (viewport s) / 2)) 0
         (Math_max 0 (World.height (world s) - Viewport.height (viewport s)))).
Proof.
  unfold cameraReady, updateCamera. intros Hg.
  repeat (apply andb_prop in Hg; destruct Hg as [Hg ?]).
  rewrite Hg. destruct (Qeqb (World.width (world s)) 0); [discriminate |].
  destruct (Qeqb (World.height (world s)) 0); [discriminate |].
  destruct (Me.hasServerPosition (me s)); [| discriminate].
  reflexivity.
Qed.

Lemma updateCamera_not_ready s : cameraReady s = false -> updateCamera s = s.
Proof.
  unfold cameraReady, updateCamera. intros Hg.
  destruct (World.ready (world s)); [| reflexivity].
  destruct (Qeqb (World.width (world s)) 0); [reflexivity |].
  destruct (Qeqb (World.height (world s)) 0); [reflexivity |].
  destruct (Me.hasServerPosition (me s)); [discriminate | reflexivity].
Qed.

(** C4. Whenever the camera is recomputed (the guard of [updateCamera]
    passes), for every world size, viewport size and local position the new
    [cameraX] lies in [[0, max(0, W - w)]] and the new [cameraY] in
    [[0, max(0, H - h)]], each axis on its own. *)
Theorem updateCamera_clamped (s : State) :
  cameraReady s = true ->
  let W := World.width (world s) in
  let H := World.height (world s) in
  let w := Viewport.width (viewport s) in
  let h := Viewport.height (viewport s) in
  let v := viewport (updateCamera s) in
  (0 <= Viewport.cameraX v <= Qmax 0 (W - w))%Q /\
  (0 <= Viewport.cameraY v <= Qmax 0 (H - h))%Q.
Proof.
  intros Hg. cbv zeta. rewrite (updateCamera_ready s Hg). cbn.
  split; apply clamp_between; apply Q.le_max_l.
Qed.

(** C6. While [hasServerPosition] is false, and likewise while the world is
    not ready or one of its dimensions is zero, [updateCamera] changes
    nothing: [cameraX] and [cameraY] keep their prior values. *)
Theorem updateCamera_noop (s : State) :
  Me.hasServerPosition (me s) = false \/
  World.ready (world s) = false \/
  (World.width (world s) == 0)%Q \/
  (World.height (world s) == 0)%Q ->
  updateCamera s = s /\
  Viewport.cameraX (viewport (updateCamera s)) = Viewport.cameraX (viewport s) /\
  Viewport.cameraY (viewport (updateCamera s)) = Viewport.cameraY (viewport s).
Proof.
  intros Hcase.
  assert (Hno : updateCamera s = s).
  { apply updateCamera_not_ready. unfold cameraReady, Qeqb.
    destruct Hcase as [Hp | [Hr | [Hw | Hh]]].
    - rewrite Hp. apply andb_false_r.
    - rewrite Hr. reflexivity.
    - apply Qeq_bool_iff in Hw. rewrite Hw. cbn. rewrite andb_false_r. reflexivity.
    - apply Qeq_bool_iff in Hh. rewrite Hh. cbn. rewrite !andb_false_r. reflexivity. }
  rewrite Hno. auto.
Qed.

(** C9. World 2048x2048, viewport 800x600, world ready, authoritative
    position known and equal to (1024, 1024): the recomputed camera is
    (624, 724). *)
Theorem updateCamera_scenario (s : State) :
  World.ready (world s) = true ->
  Me.hasServerPosition (me s) = true ->
  World.width (world s) = 2048%Q -> World.height (world s) = 2048%Q ->
  Viewport.width (viewport s) = 800%Q -> Viewport.height (viewport s) = 600%Q ->
  Me.x (me s) = 1024%Q -> Me.y (me s) = 1024%Q ->
  Viewport.cameraX (viewport (updateCamera s)) = 624%Q /\
  Viewport.cameraY (viewport (updateCamera s)) = 724%Q.
Proof.
  intros Hr Hp Hww Hwh Hvw Hvh Hx Hy.
  rewrite updateCamera_ready.
  - cbn. rewrite Hww, Hwh, Hvw, Hvh, Hx, Hy. split; vm_compute; reflexivity.
  - unfold cameraReady. rewrite Hr, Hp, Hww, Hwh. reflexivity.
Qed.

(** ** Interpolation *)

Lemma Qgtb_true a b : Qgtb a b = true <-> (b < a)%Q.
Proof.
  unfold Qgtb. rewrite negb_true_iff. split.
  - intros Hb. apply Qnot_le_lt. intros Hle.
    apply Qle_bool_iff in Hle. congruence.
  - intros Hlt. destruct (Qle_bool a b) eqn:E; [| reflexivity].
    apply Qle_bool_iff in E. exfalso. apply (Qlt_not_le _ _ Hlt E).
Qed.

Lemma Qgtb_false a b : Qgtb a b = false <-> (a <= b)%Q.
Proof.
  unfold Qgtb. rewrite negb_false_iff. apply Qle_bool_iff.
Qed.

Lemma interpolate_far player tx ty :
  Player.targetX player = Some tx -> Player.targetY player = Some ty ->
  farFromTarget (Player.x player) (Player.y player) tx ty ->
  Player.x (interpolate player) =
    (Player.x player + (tx - Player.x player) * interpolationSpeed)%Q /\
  Player.y (interpolate player) =
    (Player.y player + (ty - Player.y player) * interpolationSpeed)%Q.
Proof.
  intros Hx Hy Hfar. unfold interpolate. rewrite Hx, Hy.
  assert (Ht : Qgtb (Math_abs (tx - Player.x player)) (1 # 2)
               || Qgtb (Math_abs (ty - Player.y player)) (1 # 2) = true).
  { apply orb_true_iff. destruct Hfar as [Hf | Hf]; [left | right];
      apply Qgtb_true; exact Hf. }
  rewrite Ht. cbn. split; reflexivity.
Qed.

Lemma interpolate_near player tx ty :
  Player.targetX player = Some tx -> Player.targetY player = Some ty ->
  (Qabs (tx - Player.x player) <= 1 # 2)%Q ->
  (Qabs (ty - Player.y player) <= 1 # 2)%Q ->
  Player.x (interpolate player) = tx /\ Player.y (interpolate player) = ty.
Proof.
  intros Hx Hy Hnx Hny. unfold interpolate. rewrite Hx, Hy.
  apply Qgtb_false in Hnx. apply Qgtb_false in Hny.
  unfold Math_abs. rewrite Hnx, Hny. cbn. split; reflexivity.
Qed.

Lemma interpolate_targets player :
  Player.targetX (interpolate player) = Player.targetX player /\
  Player.targetY (interpolate player) = Player.targetY player.
Proof.
  unfold interpolate.
  destruct (Player.targetX player) eqn:Ex, (Player.targetY player) eqn:Ey;
    rewrite ?Ex, ?Ey; try (split; reflexivity).
  destruct (Qgtb _ _ || Qgtb _ _); cbn; rewrite ?Ex, ?Ey; split; reflexivity.
Qed.

(** One axis of a smoothing step: the remaining offset is nine tenths of
    the previous one. *)
Lemma axis_remaining (t x : Q) :
  (t - (x + (t - x) * interpolationSpeed) == (9 # 10) * (t - x))%Q.
Proof. unfold interpolationSpeed. ring. Qed.

Lemma axis_abs (t x : Q) :
  (Qabs (t - (x + (t - x) * interpolationSpeed)) == (9 # 10) * Qabs (t - x))%Q.
Proof.
  rewrite axis_remaining, Qabs_Qmult. reflexivity.
Qed.

Lemma axis_square (t x : Q) :
  ((t - (x + (t - x) * interpolationSpeed)) * (t - (x + (t - x) * interpolationSpeed))
   == (81 # 100) * ((t - x) * (t - x)))%Q.
Proof. unfold interpolationSpeed. ring. Qed.

Lemma square_pos_of_abs (d : Q) : (1 # 2 < Qabs d)%Q -> (0 < d * d)%Q.
Proof.
  intros Hd. destruct (Qlt_le_dec d 0) as [Hneg | Hpos].
  - nra.
  - rewrite Qabs_pos in Hd by exact Hpos. nra.
Qed.

Lemma square_nonneg (d : Q) : (0 <= d * d)%Q.
Proof. nra. Qed.

Lemma interpolation_lookup (s : State) (id : string) :
  otherPlayers (updatePlayerInterpolation s) !! id =
    interpolate <$> (otherPlayers s !! id).
Proof. unfold updatePlayerInterpolation. cbn. apply lookup_fmap. Qed.

(** C2. A tick in which the snap condition fails (one axis is more than 0.5
    away from its target) brings the displayed position strictly closer to
    the target (squared Euclidean distance; per axis the offset never
    grows) and does not overshoot: on each axis the sign of
    target - displayed is kept. *)
Theorem interpolation_approaches (s : State) (id : string) (p : Player.t) (tx ty : Q) :
  otherPlayers s !! id = Some p ->
  Player.targetX p = Some tx -> Player.targetY p = Some ty ->
  farFromTarget (Player.x p) (Player.y p) tx ty ->
  exists p',
    otherPlayers (updatePlayerInterpolation s) !! id = Some p' /\
    Player.targetX p' = Some tx /\ Player.targetY p' = Some ty /\
    (dist2 (Player.x p') (Player.y p') tx ty
       < dist2 (Player.x p) (Player.y p) tx ty)%Q /\
    (Qabs (tx - Player.x p') <= Qabs (tx - Player.x p))%Q /\
    (Qabs (ty - Player.y p') <= Qabs (ty - Player.y p))%Q /\
    ((0 <= tx - Player.x p)%Q -> (0 <= tx - Player.x p')%Q) /\
    ((tx - Player.x p <= 0)%Q -> (tx - Player.x p' <= 0)%Q) /\
    ((0 <= ty - Player.y p)%Q -> (0 <= ty - Player.y p')%Q) /\
    ((ty - Player.y p <= 0)%Q -> (ty - Player.y p' <= 0)%Q).
Proof.
  intros Hin Hx Hy Hfar. exists (interpolate p).
  rewrite interpolation_lookup, Hin.
  destruct (interpolate_targets p) as [Htx Hty].
  destruct (interpolate_far p tx ty Hx Hy Hfar) as [Ex Ey].
  rewrite Htx, Hty, Ex, Ey. unfold dist2.
  pose proof (axis_remaining tx (Player.x p)) as Rx.
  pose proof (axis_remaining ty (Player.y p)) as Ry.
  pose proof (axis_abs tx (Player.x p)) as Ax.
  pose proof (axis_abs ty (Player.y p)) as Ay.
  pose proof (axis_square tx (Player.x p)) as Sx.
  pose proof (axis_square ty (Player.y p)) as Sy.
  pose proof (Qabs_nonneg (tx - Player.x p)) as Nx.
  pose proof (Qabs_nonneg (ty - Player.y p)) as Ny.
  pose proof (square_nonneg (tx - Player.x p)) as Px.
  pose proof (square_nonneg (ty - Player.y p)) as Py.
  repeat split; try assumption; try reflexivity.
  - rewrite Sx, Sy.
    destruct Hfar as [Hf | Hf]; apply square_pos_of_abs in Hf; lra.
  - rewrite Ax. lra.
  - rewrite Ay. lra.
  - intros Hs. rewrite Rx. lra.
  - intros Hs. rewrite Rx. lra.
  - intros Hs. rewrite Ry. lra.
  - intros Hs. rewrite Ry. lra.
Qed.

(** C3. A tick that finds both axes within 0.5 of the target leaves the
    displayed position equal to the target. *)
Theorem interpolation_snaps (s : State) (id : string) (p : Player.t) (tx ty : Q) :
  otherPlayers s !! id = Some p ->
  Player.targetX p = Some tx -> Player.targetY p = Some ty ->
  (Qabs (tx - Player.x p) <= 1 # 2)%Q ->
  (Qabs (ty - Player.y p) <= 1 # 2)%Q ->
  exists p',
    otherPlayers (updatePlayerInterpolation s) !! id = Some p' /\
    Player.x p' = tx /\ Player.y p' = ty /\
    Player.targetX p' = Some tx /\ Player.targetY p' = Some ty.
Proof.
  intros Hin Hx Hy Hnx Hny. exists (interpolate p).
  rewrite interpolation_lookup, Hin.
  destruct (interpolate_targets p) as [Htx Hty].
  destruct (interpolate_near p tx ty Hx Hy Hnx Hny) as [Ex Ey].
  rewrite Htx, Hty. auto.
Qed.

(** ** Reasoning about handlers *)

#[export] Instance keepsR_composable P : Composable (keepsR P).
Proof. split; unfold keepsR; auto. Qed.

#[export] Instance emitsR_composable E : Composable (emitsR E).
Proof.
  split; unfold emitsR.
  - constructor.
  - intros. apply Forall_app. split; assumption.
Qed.

Lemma burst_app out1 out2 : burst (out1 ++ out2) = burst out1 || burst out2.
Proof. unfold burst. apply existsb_app. Qed.

#[export] Instance loopOutcome_composable now : Composable (loopOutcome now).
Proof.
  split; unfold loopOutcome.
  - intros s. left. split; reflexivity.
  - intros s s1 s2 out1 out2 [[E1 B1] | [T1 E1]] [[E2 B2] | [T2 E2]].
    + left. rewrite burst_app, B1, B2. split; [congruence | reflexivity].
    + right. rewrite <- E1. split; assumption.
    + right. split; [assumption | congruence].
    + right. split; assumption.
Qed.

Lemma reads_ret {A} (a : A) : reads (ret a).
Proof. intros s. split; reflexivity. Qed.

Lemma reads_throw {A} : reads (@throw A).
Proof. intros s. split; reflexivity. Qed.

Lemma reads_getState : reads getState.
Proof. intros s. split; reflexivity. Qed.

Lemma reads_lift {A} (o : option A) : reads (lift o).
Proof. destruct o; [apply reads_ret | apply reads_throw]. Qed.

Lemma reads_getProp v k : reads (getProp v k).
Proof.
  intros s. unfold getProp, finalState, effects. destruct (nullishV v); split; reflexivity.
Qed.

Lemma reads_bind {A B} (c : M A) (k : A -> M B) :
  reads c -> (forall a, reads (k a)) -> reads (bind c k).
Proof.
  intros Hc Hk s. specialize (Hc s). unfold finalState, effects, bind in *.
  destruct (c s) as [[[a |] s1] out1]; cbn in *; [| exact Hc].
  destruct Hc as [-> ->]. specialize (Hk a s). unfold finalState, effects in Hk.
  destruct (k a s) as [[r s2] out2]. exact Hk.
Qed.

Section Combinators.
Context {A B : Type} (R : State -> State -> list Effect -> Prop) `{!Composable R}.

Lemma follows_reads (c : M A) : reads c -> follows R c.
Proof. intros Hc s. destruct (Hc s) as [-> ->]. apply composable_nil. Qed.

Lemma follows_ret (a : A) : follows R (ret a).
Proof. apply follows_reads, reads_ret. Qed.

Lemma follows_throw : follows R (@throw A).
Proof. apply follows_reads, reads_throw. Qed.

Lemma follows_lift (o : option A) : follows R (lift o).
Proof. apply follows_reads, reads_lift. Qed.

Lemma follows_bind (c : M A) (k : A -> M B) :
  follows R c -> (forall a, follows R (k a)) -> follows R (bind c k).
Proof.
  intros Hc Hk s. specialize (Hc s). unfold finalState, effects, bind in *.
  destruct (c s) as [[[a |] s1] out1]; cbn in *; [| exact Hc].
  specialize (Hk a s1). unfold finalState, effects in Hk.
  destruct (k a s1) as [[r s2] out2]. cbn in *.
  eapply composable_app; eassumption.
Qed.

(** What follows a conversion sees its result. *)
Lemma follows_bind_lift (o : option A) (k : A -> M B) :
  (forall a, o = Some a -> follows R (k a)) -> follows R (bind (lift o) k).
Proof.
  intros Hk s. destruct o as [a |]; [| apply composable_nil].
  specialize (Hk a eq_refl s). unfold finalState, effects, bind in *. cbn.
  destruct (k a s) as [[r s2] out2]. exact Hk.
Qed.

Lemma follows_forEach (items : list A) (body : A -> M unit) :
  (forall item, follows R (body item)) -> follows R (forEach items body).
Proof.
  intros Hb. induction items as [| item rest IH]; cbn.
  - intros s. apply composable_nil.
  - intros s. specialize (Hb item s). unfold finalState, effects, bind in *.
    destruct (body item s) as [[[u |] s1] out1]; cbn in *; [| exact Hb].
    specialize (IH s1). unfold finalState, effects in IH.
    destruct (forEach rest body s1) as [[r s2] out2]. cbn in *.
    eapply composable_app; eassumption.
Qed.

End Combinators.

Section MoreCombinators.
Context {B : Type} (R : State -> State -> list Effect -> Prop) `{!Composable R}.

Lemma follows_getState : follows R getState.
Proof. apply follows_reads; [exact _ | apply reads_getState]. Qed.

Lemma follows_getProp v k : follows R (getProp v k).
Proof. apply follows_reads; [exact _ | apply reads_getProp]. Qed.

(** What follows a property read runs on a value that is neither [null]
    nor [undefined]. *)
Lemma follows_bind_getProp v key (k : jsval -> M B) :
  (nullishV v = false -> forall s0, follows R (k (field s0 v key))) ->
  follows R (bind (getProp v key) k).
Proof.
  intros Hk s. unfold finalState, effects, bind, getProp.
  destruct (nullishV v); cbn; [apply composable_nil |].
  specialize (Hk eq_refl s s). unfold finalState, effects in Hk.
  destruct (k (field s v key) s) as [[r s2] out2]. exact Hk.
Qed.

Lemma follows_when b (c : M unit) : follows R c -> follows R (when b c).
Proof. intros Hc. destruct b; [exact Hc | intros s; apply composable_nil]. Qed.

End MoreCombinators.

Lemma keeps_modify (P : State -> Prop) f :
  (forall s, P s -> P (f s)) -> keeps P (modify f).
Proof. intros Hf s HP. apply Hf, HP. Qed.

Lemma keeps_emit (P : State -> Prop) e : keeps P (emit e).
Proof. intros s HP. exact HP. Qed.

Lemma keeps_send (P : State -> Prop) m : keeps P (send m).
Proof. intros s HP. exact HP. Qed.

Lemma emitsOnly_modify (E : Effect -> Prop) f : emitsOnly E (modify f).
Proof. intros s. constructor. Qed.

Lemma emitsOnly_emit (E : Effect -> Prop) e : E e -> emitsOnly E (emit e).
Proof. intros He s. repeat constructor. exact He. Qed.

Lemma emitsOnly_send (E : Effect -> Prop) m :
  (forall gate, E (Send gate m)) -> emitsOnly E (send m).
Proof. intros He s. repeat constructor. apply He. Qed.

Lemma throttle_modify now f :
  (forall s, lastMoveTime (f s) = lastMoveTime s) ->
  follows (loopOutcome now) (modify f).
Proof. intros Hf s. left. split; [apply Hf | reflexivity]. Qed.

Lemma throttle_emit now e :
  isDirectionMove e = false -> follows (loopOutcome now) (emit e).
Proof.
  intros He s. left. split; [reflexivity |].
  unfold burst, effects. cbn. rewrite He. reflexivity.
Qed.

Lemma throttle_send now m :
  (forall gate, isDirectionMove (Send gate m) = false) ->
  follows (loopOutcome now) (send m).
Proof.
  intros Hm s. left. split; [reflexivity |].
  unfold burst, effects. cbn -[isDirectionMove]. rewrite Hm. reflexivity.
Qed.

Section ConversionCombinators.
Context `{Host}.
Context {B : Type} (R : State -> State -> list Effect -> Prop) `{!Composable R}.

Lemma reads_toKey v : reads (toKey v).
Proof. destruct v as [j | [| name | name]]; cbn; auto using reads_lift, reads_ret. Qed.

Lemma reads_lookupIn players id : reads (lookupIn players id).
Proof.
  unfold lookupIn. apply reads_bind; [apply reads_toKey |]. intros key.
  apply reads_bind; [apply reads_getState |]. intros s. apply reads_ret.
Qed.

Lemma follows_toKey v : follows R (toKey v).
Proof. apply follows_reads; [exact _ | apply reads_toKey]. Qed.

Lemma follows_lookupIn players id : follows R (lookupIn players id).
Proof. apply follows_reads; [exact _ | apply reads_lookupIn]. Qed.

Lemma follows_bind_toInt32 v (k : Q -> M B) :
  (forall q, or0 v = Some q -> follows R (k q)) -> follows R (bind (toInt32 v) k).
Proof. apply follows_bind_lift. exact _. Qed.

End ConversionCombinators.

(** Walk through a handler along its sequencing, loops and branches,
    leaving one goal per primitive step ([modify], [emit], [send]); a
    hypothesis about a part of the handler is used where it applies. *)
Ltac composable := typeclasses eauto.

Ltac walk :=
  repeat first
    [ match goal with
      | Hpart : forall item, follows _ _ |- follows _ _ => apply Hpart
      | Hpart : forall item, keeps _ _ |- keeps _ _ => apply Hpart
      | Hpart : forall item, emitsOnly _ _ |- emitsOnly _ _ => apply Hpart
      | Hpart : follows _ ?c |- follows _ ?c => exact Hpart
      | Hpart : keeps _ ?c |- keeps _ ?c => exact Hpart
      | Hpart : emitsOnly _ ?c |- emitsOnly _ ?c => exact Hpart
      end
    | apply follows_ret; composable | apply follows_throw; composable
    | apply follows_getState; composable | apply follows_getProp; composable
    | apply follows_toKey; composable | apply follows_lookupIn; composable
    | apply keeps_emit | apply keeps_send | apply emitsOnly_modify
    | apply follows_bind_getProp; [composable | intros ? ?]
    | apply follows_bind_toInt32; [composable | intros ? ?]
    | apply follows_bind; [composable | | intros ?]
    | apply follows_when; [composable |]
    | apply follows_forEach; [composable | intros ?]
    | match goal with
      | |- follows _ (if ?b then _ else _) => destruct b
      | |- follows _ (match ?x with _ => _ end) => destruct x
      | |- keeps _ (if ?b then _ else _) => destruct b
      | |- keeps _ (match ?x with _ => _ end) => destruct x
      | |- emitsOnly _ (if ?b then _ else _) => destruct b
      | |- emitsOnly _ (match ?x with _ => _ end) => destruct x
      end ].

(** ** What the state functions change

    Each function of the state rewrites a few components and leaves the
    others alone. *)

Lemma set_viewport_same s : set_viewport (viewport s) s = s.
Proof. destruct s; reflexivity. Qed.

Lemma updateCamera_shape s : exists v, updateCamera s = set_viewport v s.
Proof.
  unfold updateCamera. destruct (negb _ || _ || _ || _).
  - exists (viewport s). symmetry. apply set_viewport_same.
  - eexists. reflexivity.
Qed.

Lemma resizeCanvas_shape w h s : exists v, resizeCanvas w h s = set_viewport v s.
Proof.
  unfold resizeCanvas.
  destruct (updateCamera_shape
              (set_viewport (Viewport.mk w h (Viewport.cameraX (viewport s))
                               (Viewport.cameraY (viewport s))) s)) as [v ->].
  exists v. reflexivity.
Qed.

Lemma onResize_shape w h s : exists v, onResize w h s = set_viewport v s.
Proof.
  unfold onResize. destruct (resizeCanvas_shape w h s) as [v ->].
  destruct (updateCamera_shape (set_viewport v s)) as [v' ->]. exists v'. reflexivity.
Qed.

Lemma render_shape s : exists o, render s = set_otherPlayers o s.
Proof.
  unfold render, updatePlayerInterpolation. destruct (negb _).
  - exists (otherPlayers s). destruct s; reflexivity.
  - eexists. reflexivity.
Qed.

Lemma stopMovementLoop_shape s : exists b, stopMovementLoop s = set_movementLoopId b s.
Proof.
  unfold stopMovementLoop. destruct (movementLoopId s) eqn:E.
  - eexists. reflexivity.
  - exists false. destruct s; cbn in *; subst; reflexivity.
Qed.

Lemma keysPressedSet_shape name b s :
  exists k, keysPressedSet name b s = set_keysPressed k s.
Proof.
  unfold keysPressedSet. destruct (String.eqb name "__proto__").
  - exists (keysPressed s). destruct s; reflexivity.
  - eexists. reflexivity.
Qed.

Lemma store_shape key record s :
  exists o p, store key record s = set_otherPlayers o (set_byIdPrototype p s).
Proof.
  unfold store. destruct (String.eqb key "__proto__").
  - exists (otherPlayers s), (Some record). destruct s; reflexivity.
  - exists (<[key := record]> (otherPlayers s)), (byIdPrototype s).
    destruct s; reflexivity.
Qed.

Lemma assign_shape t a s :
  exists o p st m,
    assign t a s
    = set_otherPlayers o (set_byIdPrototype p (set_objectPrototype st (set_members m s))).
Proof.
  destruct t as [id | | [| name | name] | |]; cbn;
    [ exists (alter (onPlayer a) id (otherPlayers s)), (byIdPrototype s),
        (objectPrototype s), (members s)
    | exists (otherPlayers s), (onPlayer a <$> byIdPrototype s),
        (objectPrototype s), (members s)
    | exists (otherPlayers s), (byIdPrototype s),
        (onStray a (objectPrototype s)), (members s)
    | exists (otherPlayers s), (byIdPrototype s), (objectPrototype s),
        (<[name := onStray a (default Stray.empty (members s !! name))]> (members s))
    | exists (otherPlayers s), (byIdPrototype s), (objectPrototype s), (members s)
    | exists (otherPlayers s), (byIdPrototype s), (objectPrototype s), (members s)
    | exists (otherPlayers s), (byIdPrototype s), (objectPrototype s), (members s) ];
    destruct s; reflexivity.
Qed.

(** Replace every state function in the goal by the components it sets. *)
Ltac reshape :=
  unfold setMe in *;
  repeat match goal with
    | |- context [updateCamera ?s] =>
        let v := fresh "v" in destruct (updateCamera_shape s) as [v ->]
    | |- context [resizeCanvas ?w ?h ?s] =>
        let v := fresh "v" in destruct (resizeCanvas_shape w h s) as [v ->]
    | |- context [onResize ?w ?h ?s] =>
        let v := fresh "v" in destruct (onResize_shape w h s) as [v ->]
    | |- context [render ?s] =>
        let o := fresh "o" in destruct (render_shape s) as [o ->]
    | |- context [stopMovementLoop ?s] =>
        let b := fresh "b" in destruct (stopMovementLoop_shape s) as [b ->]
    | |- context [keysPressedSet ?n ?b ?s] =>
        let k := fresh "k" in destruct (keysPressedSet_shape n b s) as [k ->]
    | |- context [store ?key ?r ?s] =>
        let o := fresh "o" in let p := fresh "p" in
        destruct (store_shape key r s) as (o & p & ->)
    | |- context [assign ?t ?a ?s] =>
        let o := fresh "o" in let p := fresh "p" in
        let st := fresh "st" in let m := fresh "m" in
        destruct (assign_shape t a s) as (o & p & st & m & ->)
    end;
  cbn.

(** ** The local position is written by the server only *)

(** Close the goals [walk] leaves for a property of [myPosition]. *)
Ltac position_kept :=
  intros; unfold myPosition in *; reshape; try assumption.

Section ClientProperties.
Context `{Host}.

Lemma movementLoop_keeps_position pos now :
  keeps (fun s => myPosition s = pos) (movementLoop now).
Proof.
  unfold movementLoop. walk; try (apply keeps_modify; position_kept).
Qed.

Lemma joinGameResume_keeps_position pos cached now :
  keeps (fun s => myPosition s = pos) (joinGameResume cached now).
Proof.
  unfold joinGameResume, startMovementLoop.
  pose proof (movementLoop_keeps_position pos now) as Hloop.
  walk; try (apply keeps_modify; position_kept).
Qed.

End ClientProperties.

(** A property name that is not among those the program may leave on
    [Object.prototype] is read from the payload alone. *)
Lemma stray_prop_plain st k :
  existsb (String.eqb k) strayNames = false -> Stray.prop st k = VUndef.
Proof.
  unfold strayNames, Stray.prop, Stray.own. cbn. rewrite !orb_false_iff.
  intros (E1 & E2 & E3 & E4 & E5 & _). rewrite E1, E2, E3, E4, E5.
  reflexivity.
Qed.

Lemma assoc_not_own k (props : list (string * jsval)) :
  hasKey k props = false -> assoc k props = VUndef.
Proof.
  induction props as [| [k' v] rest IH]; cbn; [reflexivity |].
  destruct (String.eqb k' k); cbn; [discriminate | exact IH].
Qed.

Lemma prop_not_own v k : hasOwn v k = false -> prop v k = VUndef.
Proof.
  destruct v; cbn; try reflexivity.
  - destruct (String.eqb k "length"); cbn; [discriminate | apply assoc_not_own].
  - destruct (String.eqb k "length"); cbn; [discriminate | apply assoc_not_own].
  - apply assoc_not_own.
Qed.

Lemma field_plain s (v : jsval) k :
  existsb (String.eqb k) strayNames = false -> field s v k = prop v k.
Proof.
  intros Hk. cbn. destruct (hasOwn v k) eqn:E; [reflexivity |].
  rewrite (prop_not_own _ _ E). apply stray_prop_plain, Hk.
Qed.

(** An own property is read as it is. *)
Lemma field_own s (v : jsval) k : hasOwn v k = true -> field s v k = prop v k.
Proof. intros Hk. cbn. rewrite Hk. reflexivity. Qed.

Lemma truthy_not_nullish v : ToBoolean v = true -> nullish v = false.
Proof. destruct v; cbn; congruence. Qed.

Lemma truthy_not_nullishV v : truthy v = true -> nullishV v = false.
Proof. destruct v; cbn; [apply truthy_not_nullish | reflexivity]. Qed.

Lemma action_not_nullish data lit : prop data "action" = VStr lit -> nullish data = false.
Proof. intros Hact. destruct data; try reflexivity; discriminate Hact. Qed.

Lemma action_is data lit : prop data "action" = VStr lit -> is_str (prop data "action") lit = true.
Proof. intros ->. cbn. apply String.eqb_refl. Qed.

(** A step that returns and produces no effect can be run ahead. *)
Lemma bind_silent {A B} (c : M A) (k : A -> M B) s a s1 :
  c s = (Some a, s1, []) -> bind c k s = k a s1.
Proof.
  intros Hc. unfold bind. rewrite Hc.
  destruct (k a s1) as [[r s2] out2]. reflexivity.
Qed.

(** A step that throws ends the handler. *)
Lemma bind_thrown {A B} (c : M A) (k : A -> M B) s s1 out :
  c s = (None, s1, out) -> bind c k s = (None, s1, out).
Proof. intros Hc. unfold bind. rewrite Hc. reflexivity. Qed.

Lemma bind_run {A B} (c : M A) (k : A -> M B) s :
  bind c k s =
    match c s with
    | (Some a, s1, out1) =>
        (outcome (k a) s1, finalState (k a) s1, out1 ++ effects (k a) s1)
    | (None, s1, out1) => (None, s1, out1)
    end.
Proof.
  unfold bind, outcome, finalState, effects.
  destruct (c s) as [[[a |] s1] out1]; [| reflexivity].
  destruct (k a s1) as [[r s2] out2]. reflexivity.
Qed.

Lemma getProp_run (v : val) key s :
  nullishV v = false -> getProp v key s = (Some (field s v key), s, []).
Proof. intros Hnn. unfold getProp. rewrite Hnn. reflexivity. Qed.

Lemma getProp_plain (v : jsval) key s :
  nullish v = false -> existsb (String.eqb key) strayNames = false ->
  getProp v key s = (Some (prop v key), s, []).
Proof. intros Hnn Hk. rewrite getProp_run by exact Hnn. rewrite field_plain by exact Hk. reflexivity. Qed.

Lemma forEach_cons_run {A} (body : A -> M unit) item rest s :
  forEach (item :: rest) body s =
    match body item s with
    | (Some _, s1, out1) =>
        (outcome (forEach rest body) s1, finalState (forEach rest body) s1,
         out1 ++ effects (forEach rest body) s1)
    | (None, s1, out1) => (None, s1, out1)
    end.
Proof.
  cbn. unfold bind, outcome, finalState, effects.
  destruct (body item s) as [[[u |] s1] out1]; [| reflexivity].
  destruct (forEach rest body s1) as [[r s2] out2]. reflexivity.
Qed.

Section ClientProperties.
Context `{Host}.

Lemma toInt32_run v q s : or0 v = Some q -> toInt32 v s = (Some q, s, []).
Proof. intros Hq. unfold toInt32. rewrite Hq. reflexivity. Qed.

Lemma toInt32_thrown v s : or0 v = None -> toInt32 v s = (None, s, []).
Proof. intros Hq. unfold toInt32. rewrite Hq. reflexivity. Qed.

Lemma toKey_run (v : jsval) key s : ToString v = Some key -> toKey v s = (Some key, s, []).
Proof. intros Hk. cbn. rewrite Hk. reflexivity. Qed.

Lemma toKey_thrown (v : jsval) s : ToString v = None -> toKey v s = (None, s, []).
Proof. intros Hk. cbn. rewrite Hk. reflexivity. Qed.

Lemma lookupIn_run players id key s :
  ToString id = Some key ->
  lookupIn players id s = (Some (lookup s players key), s, []).
Proof.
  intros Hk. unfold lookupIn.
  rewrite (bind_silent _ _ s key s (toKey_run _ _ _ Hk)). reflexivity.
Qed.

Lemma lookupIn_thrown players id s :
  ToString id = None -> lookupIn players id s = (None, s, []).
Proof.
  intros Hk. unfold lookupIn. apply bind_thrown, toKey_thrown, Hk.
Qed.

(** The listener of a parsed message dispatches on the own property
    [action] of the payload. *)
Lemma onMessage_run data now s :
  nullish data = false ->
  handler now (SocketMessage (Some data)) s =
    (if is_str (prop data "action") "join_game" then joinGame data now
     else if is_str (prop data "action") "players_moved" then playersMoved data now
     else if is_str (prop data "action") "player_joined" then playerJoined data now
     else if is_str (prop data "action") "player_left" then playerLeft data
     else if is_str (prop data "action") "chat" then chat data
     else ret tt) s.
Proof.
  intros Hnn. cbn [handler onMessage].
  rewrite (bind_silent _ _ s _ s (getProp_plain _ "action" _ Hnn eq_refl)). reflexivity.
Qed.

Lemma onMessage_null data now s :
  nullish data = true ->
  handler now (SocketMessage (Some data)) s = (None, s, []).
Proof.
  intros Hnn. cbn [handler onMessage]. apply bind_thrown.
  unfold getProp. cbn. rewrite Hnn. reflexivity.
Qed.

(** C5. Only the handlers of [join_game] and [players_moved] write the
    local player's position: every other event (an interpolation frame, a
    tick of the movement loop, a resize, key and click input, the socket's
    life cycle, the resumption of a join after caching, and the messages
    [player_joined], [player_left], [chat] and unrecognised ones) leaves
    [(me.x, me.y)] as it was. *)
Theorem position_only_from_server (s : State) (now : Z) (e : Event) :
  (forall data, e = SocketMessage (Some data) ->
     is_str (prop data "action") "join_game" = false /\
     is_str (prop data "action") "players_moved" = false) ->
  myPosition (step s now e) = myPosition s.
Proof.
  intros Hother. unfold step.
  cut (keeps (fun s' => myPosition s' = myPosition s) (handler now e)).
  { intros Hk. apply Hk. reflexivity. }
  pose proof (movementLoop_keeps_position (myPosition s) now) as Hloop.
  destruct e; cbn [handler].
  - unfold onWorldLoaded, connectWebSocket. walk; try (apply keeps_modify; position_kept).
  - apply keeps_modify. position_kept.
  - apply keeps_modify. position_kept.
  - unfold handleKeyDown. walk; apply keeps_modify; position_kept.
  - unfold handleKeyUp. walk; apply keeps_modify; position_kept.
  - unfold onClick. walk.
  - unfold onChatEnter. walk.
  - walk.
  - unfold onOpen. walk; try (apply keeps_modify; position_kept).
  - destruct parsed as [data |]; cbn [onMessage]; [| walk].
    destruct (Hother data eq_refl) as [Hj Hm].
    apply follows_bind_getProp; [composable |]. intros _ s0.
    rewrite field_plain by reflexivity. rewrite Hj, Hm.
    unfold playerJoined, playerLeft, chat.
    walk; try (apply keeps_modify; position_kept).
  - unfold onClose. walk; try (apply keeps_modify; position_kept).
  - unfold onError. walk; try (apply keeps_modify; position_kept).
  - apply joinGameResume_keeps_position.
Qed.

(** C7. A [join_game] response whose [success] is [false] changes nothing:
    the state after the handler is the state before it (local player,
    remote players, camera, the move gate, no suspended join), and the only
    effect is the console message: nothing is sent, so no retry. *)
Theorem join_rejected_no_change (s : State) (now : Z) (data : jsval) :
  prop data "action" = VStr "join_game" ->
  prop data "success" = VBool false ->
  step s now (SocketMessage (Some data)) = s /\
  emitted s now (SocketMessage (Some data)) = [Console "error"] /\
  outcome (handler now (SocketMessage (Some data))) s = Some tt.
Proof.
  intros Hact Hsucc.
  pose proof (action_not_nullish _ _ Hact) as Hnn.
  unfold step, emitted, finalState, effects, outcome.
  rewrite (onMessage_run _ _ _ Hnn), (action_is _ _ Hact). unfold joinGame.
  rewrite (bind_silent _ _ s _ s (getProp_plain _ "success" _ Hnn eq_refl)), Hsucc.
  cbn. auto.
Qed.

End ClientProperties.

(** ** Outbound move commands *)

(** Close the goals [walk] leaves for the three properties of the
    outbound commands. *)
Ltac throttle_leaf :=
  first
    [ apply throttle_emit; reflexivity
    | apply throttle_send; intros ?; reflexivity
    | apply throttle_modify; intros ?; reshape; reflexivity ].

Ltac gated_leaf :=
  first
    [ apply emitsOnly_emit; exact I
    | apply emitsOnly_send; intros ? ?; discriminate ].

Ltac gate_leaf :=
  apply keeps_modify; intros ? ?; reshape; (assumption || reflexivity).

Section OutboundCommands.
Context `{Host}.

Lemma forEach_send_run (dirs : list direction) s :
  forEach dirs (fun d => send (MoveDir d)) s =
    (Some tt, s, map (fun d => Send (canSendMoveCommands s) (MoveDir d)) dirs).
Proof.
  induction dirs as [| d rest IH]; cbn; [reflexivity |].
  unfold bind. cbn. rewrite IH. reflexivity.
Qed.

(** The movement loop in closed form. *)
Lemma movementLoop_run now s :
  movementLoop now s =
    if negb (ws_open s) then (Some tt, set_movementLoopId true s, [])
    else if fst (scanKeys (keysPressed s)) && canSendMoveCommands s
            && (MOVE_THROTTLE_MS <=? now - lastMoveTime s)
    then (Some tt, set_movementLoopId true (set_lastMoveTime now s),
          map (fun d => Send (canSendMoveCommands s) (MoveDir d))
            (snd (scanKeys (keysPressed s))))
    else if negb (fst (scanKeys (keysPressed s))) && canSendMoveCommands s
    then (Some tt, set_movementLoopId true s, [Send (canSendMoveCommands s) Stop])
    else (Some tt, set_movementLoopId true s, []).
Proof.
  unfold movementLoop, bind, getState. cbn.
  destruct (negb (ws_open s)); [reflexivity |].
  destruct (_ && _ && _).
  - unfold bind. rewrite forEach_send_run. cbn. rewrite !app_nil_r. reflexivity.
  - destruct (_ && _); reflexivity.
Qed.

Lemma burst_map_false (l : list Effect) :
  Forall (fun e => isDirectionMove e = false) l -> burst l = false.
Proof.
  unfold burst. induction 1 as [| e l He _ IH]; cbn; [reflexivity |].
  rewrite He. exact IH.
Qed.

Lemma movementLoop_gated now : emitsOnly gated (movementLoop now).
Proof.
  intros s. unfold emitsR, effects. rewrite movementLoop_run.
  destruct (negb (ws_open s)); [constructor |].
  destruct (fst (scanKeys (keysPressed s))); cbn [andb negb].
  - destruct (canSendMoveCommands s) eqn:Egate; cbn [andb]; [| constructor].
    destruct (_ <=? _); [| constructor]. cbn.
    apply Forall_map. apply Forall_forall. intros d _ _. reflexivity.
  - destruct (canSendMoveCommands s); cbn; repeat constructor.
Qed.

Lemma movementLoop_throttle now : follows (loopOutcome now) (movementLoop now).
Proof.
  intros s. unfold finalState, effects. rewrite movementLoop_run.
  destruct (negb (ws_open s)); [left; split; reflexivity |].
  destruct (fst (scanKeys (keysPressed s))); cbn [andb negb].
  - destruct (canSendMoveCommands s); cbn [andb]; [| left; split; reflexivity].
    destruct (Z.leb_spec MOVE_THROTTLE_MS (now - lastMoveTime s)).
    + right. split; [assumption | reflexivity].
    + left. split; reflexivity.
  - destruct (canSendMoveCommands s); left; split; reflexivity.
Qed.

Lemma onClick_gated cx cy rl rt : emitsOnly gated (onClick cx cy rl rt).
Proof.
  intros s. unfold emitsR, effects, onClick, bind, getState. cbn.
  destruct (canSendMoveCommands s) eqn:Egate; cbn; [| constructor].
  destruct (ws_open s); cbn; [| constructor].
  constructor; [intros _; exact Egate | constructor].
Qed.

(** The handlers of the protocol messages send nothing. *)
Lemma onMessage_quiet parsed now : emitsOnly quiet (onMessage parsed now).
Proof.
  unfold onMessage, joinGame, seedMe, suspendJoin, joinOther, playersMoved, moveMe,
    moveOther, retarget, playerJoined, playerLeft, chat, setMe.
  walk; apply emitsOnly_emit; exact I.
Qed.

Lemma quiet_gated e : quiet e -> gated e.
Proof. destruct e; cbn; intuition. Qed.

Lemma handler_gated now e : emitsOnly gated (handler now e).
Proof.
  pose proof (movementLoop_gated now) as Hloop.
  destruct e; cbn [handler].
  - unfold onWorldLoaded, connectWebSocket. walk; gated_leaf.
  - apply emitsOnly_modify.
  - apply emitsOnly_modify.
  - unfold handleKeyDown. walk.
  - unfold handleKeyUp. walk.
  - apply onClick_gated.
  - unfold onChatEnter. walk; gated_leaf.
  - walk.
  - unfold onOpen. walk; gated_leaf.
  - intros s. eapply Forall_impl; [apply onMessage_quiet | apply quiet_gated].
  - unfold onClose. walk; gated_leaf.
  - unfold onError. walk; gated_leaf.
  - unfold joinGameResume, startMovementLoop, setMe. walk; gated_leaf.
Qed.

Lemma handler_throttle now e : follows (loopOutcome now) (handler now e).
Proof.
  pose proof (movementLoop_throttle now) as Hloop.
  destruct e; cbn [handler].
  - unfold onWorldLoaded, connectWebSocket. walk; throttle_leaf.
  - throttle_leaf.
  - throttle_leaf.
  - unfold handleKeyDown. walk; throttle_leaf.
  - unfold handleKeyUp. walk; throttle_leaf.
  - unfold onClick. walk; throttle_leaf.
  - unfold onChatEnter. walk; throttle_leaf.
  - walk.
  - unfold onOpen. walk; throttle_leaf.
  - unfold onMessage, joinGame, seedMe, suspendJoin, joinOther, playersMoved, moveMe,
      moveOther, retarget, playerJoined, playerLeft, chat, setMe.
    walk; throttle_leaf.
  - unfold onClose. walk; throttle_leaf.
  - unfold onError. walk; throttle_leaf.
  - unfold joinGameResume, startMovementLoop, setMe. walk; throttle_leaf.
Qed.

(** Once set, the gate stays set. *)
Lemma handler_keeps_gate now e :
  keeps (fun s => canSendMoveCommands s = true) (handler now e).
Proof.
  destruct e; cbn [handler];
    unfold onWorldLoaded, connectWebSocket, handleKeyDown, handleKeyUp, onClick,
      onChatEnter, movementLoop, onOpen, onClose, onError, joinGameResume,
      startMovementLoop, movementLoop, onMessage, joinGame, seedMe, suspendJoin,
      joinOther, playersMoved, moveMe, moveOther, retarget, playerJoined, playerLeft,
      chat, setMe;
    walk; gate_leaf.
Qed.

Lemma step_throttle s now e :
  loopOutcome now s (step s now e) (emitted s now e).
Proof. apply handler_throttle. Qed.

(** A burst later in an execution is at least the throttle after the
    [lastMoveTime] the execution starts with. *)
Lemma run_burst_after_last (evs : list (Z * Event)) :
  forall s j tj ej,
    snd (run s evs) !! j = Some (tj, ej) -> burst ej = true ->
    MOVE_THROTTLE_MS <= tj - lastMoveTime s.
Proof.
  induction evs as [| [now e] rest IH]; intros s j tj ej Hj Hb.
  - discriminate Hj.
  - cbn in Hj. pose proof (step_throttle s now e) as Hstep.
    destruct j as [| j'].
    + injection Hj as <- <-.
      destruct Hstep as [[_ Hnb] | [Hthr _]]; [congruence | exact Hthr].
    + specialize (IH _ _ _ _ Hj Hb).
      destruct Hstep as [[Hlast _] | [Hthr Hlast]].
      * rewrite <- Hlast. exact IH.
      * unfold MOVE_THROTTLE_MS in *. lia.
Qed.

Lemma run_bursts_apart (evs : list (Z * Event)) :
  forall s i j ti tj ei ej,
    (i < j)%nat ->
    snd (run s evs) !! i = Some (ti, ei) ->
    snd (run s evs) !! j = Some (tj, ej) ->
    burst ei = true -> burst ej = true ->
    MOVE_THROTTLE_MS <= tj - ti.
Proof.
  induction evs as [| [now e] rest IH]; intros s i j ti tj ei ej Hij Hi Hj Hbi Hbj.
  - discriminate Hi.
  - cbn in Hi, Hj. destruct j as [| j']; [lia |].
    destruct i as [| i'].
    + injection Hi as <- <-.
      pose proof (run_burst_after_last rest _ _ _ _ Hj Hbj) as Hafter.
      destruct (step_throttle s now e) as [[_ Hnb] | [_ Hlast]]; [congruence |].
      rewrite Hlast in Hafter. exact Hafter.
    + apply (IH (step s now e) i' j' ti tj ei ej); (lia || assumption).
Qed.

Lemma run_gated (evs : list (Z * Event)) :
  forall s i ti ei, snd (run s evs) !! i = Some (ti, ei) -> Forall gated ei.
Proof.
  induction evs as [| [now e] rest IH]; intros s i ti ei Hi.
  - discriminate Hi.
  - cbn in Hi. destruct i as [| i'].
    + injection Hi as <- <-. apply handler_gated.
    + apply (IH _ _ _ _ Hi).
Qed.

Lemma run_keeps_gate (evs : list (Z * Event)) :
  forall s, canSendMoveCommands s = true ->
            canSendMoveCommands (fst (run s evs)) = true.
Proof.
  induction evs as [| [now e] rest IH]; intros s Hs; [exact Hs |].
  cbn. apply IH. apply (handler_keeps_gate now e s Hs).
Qed.

(** C1 (amended). In every execution, from every state: each move handed
    to the socket is sent with [canSendMoveCommands] set, the gate once set
    stays set, and two bursts of the movement loop (events that send moves
    by direction) are at least [MOVE_THROTTLE_MS] apart, however often the
    loop ticks or another handler runs. *)
Theorem moves_gated_loop_throttled (s : State) (evs : list (Z * Event)) :
  (forall i ti ei, snd (run s evs) !! i = Some (ti, ei) -> Forall gated ei) /\
  (canSendMoveCommands s = true -> canSendMoveCommands (fst (run s evs)) = true) /\
  (forall i j ti tj ei ej,
     (i < j)%nat ->
     snd (run s evs) !! i = Some (ti, ei) ->
     snd (run s evs) !! j = Some (tj, ej) ->
     burst ei = true -> burst ej = true ->
     MOVE_THROTTLE_MS <= tj - ti).
Proof.
  split; [| split].
  - intros i ti ei. apply run_gated.
  - apply run_keeps_gate.
  - intros i j ti tj ei ej. apply run_bursts_apart.
Qed.

(** ** Remote players always have a target *)

Lemma targetsDefined_store s key record tx ty :
  Player.targetX record = Some tx -> Player.targetY record = Some ty ->
  targetsDefined s -> targetsDefined (store key record s).
Proof.
  intros Hx Hy Hs. unfold store. destruct (String.eqb key "__proto__"); [exact Hs |].
  intros id' p'. cbn. rewrite lookup_insert. case_decide.
  - intros [= <-]. eauto.
  - apply Hs.
Qed.

Lemma targetsDefined_assign s t a :
  (forall p tx ty, Player.targetX p = Some tx -> Player.targetY p = Some ty ->
     exists tx' ty', Player.targetX (onPlayer a p) = Some tx' /\
                     Player.targetY (onPlayer a p) = Some ty') ->
  targetsDefined s -> targetsDefined (assign t a s).
Proof.
  intros Ha Hs. destruct t as [id | | [| name | name] | |]; try exact Hs.
  intros id' p'. cbn. rewrite lookup_alter. case_decide.
  - subst id'. destruct (otherPlayers s !! id) as [p |] eqn:Ep; cbn; [| discriminate].
    intros [= <-]. destruct (Hs id p Ep) as (tx & ty & Hx & Hy). eauto.
  - apply Hs.
Qed.

Lemma targetsDefined_delete s id :
  targetsDefined s -> targetsDefined (set_otherPlayers (delete id (otherPlayers s)) s).
Proof.
  intros Hs id' p'. cbn. rewrite lookup_delete. case_decide; [discriminate | apply Hs].
Qed.

Lemma targetsDefined_render s : targetsDefined s -> targetsDefined (render s).
Proof.
  intros Hs. unfold render. destruct (negb _); [exact Hs |].
  intros id p'. rewrite interpolation_lookup.
  destruct (otherPlayers s !! id) as [p |] eqn:Ep; cbn; [| discriminate].
  intros [= <-]. destruct (interpolate_targets p) as [-> ->]. apply (Hs id p Ep).
Qed.

Ltac targets_leaf :=
  apply keeps_modify; intros ? ?;
  first
    [ eapply targetsDefined_store; [reflexivity | reflexivity | assumption]
    | apply targetsDefined_assign;
      [ intros [] ? ? ? ?; cbn in *; eauto | assumption ]
    | apply targetsDefined_delete; assumption
    | apply targetsDefined_render; assumption
    | reshape; assumption ].

Lemma handler_keeps_targets now e : keeps targetsDefined (handler now e).
Proof.
  destruct e; cbn [handler];
    unfold onWorldLoaded, connectWebSocket, handleKeyDown, handleKeyUp, onClick,
      onChatEnter, movementLoop, onOpen, onClose, onError, joinGameResume,
      startMovementLoop, movementLoop, onMessage, joinGame, seedMe, suspendJoin,
      joinOther, playersMoved, moveMe, moveOther, retarget, playerJoined, playerLeft,
      chat, setMe;
    walk; targets_leaf.
Qed.

(** In every state an execution reaches, each remote player has both
    targets: the hypotheses on [targetX] and [targetY] of the interpolation
    theorems hold of every remote player the handlers create. *)
Lemma remote_targets_defined (evs : list (Z * Event)) :
  forall s, targetsDefined s -> targetsDefined (fst (run s evs)).
Proof.
  induction evs as [| [now e] rest IH]; intros s Hs; [exact Hs |].
  cbn. apply IH. apply (handler_keeps_targets now e s Hs).
Qed.

Lemma initial_targets_defined : targetsDefined initial.
Proof. intros id p Hp. cbn in Hp. rewrite lookup_empty in Hp. discriminate. Qed.

End OutboundCommands.

(** ** Running a handler step by step *)

Lemma field_set_me m s v k : field (set_me m s) v k = field s v k.
Proof. destruct v as [j | [| name | name]]; reflexivity. Qed.

Lemma field_set_otherPlayers o s v k : field (set_otherPlayers o s) v k = field s v k.
Proof. destruct v as [j | [| name | name]]; reflexivity. Qed.

Lemma field_set_byIdPrototype p s v k : field (set_byIdPrototype p s) v k = field s v k.
Proof. destruct v as [j | [| name | name]]; reflexivity. Qed.

(** Run the steps at the head of a handler that return without effect. *)
Ltac stepM :=
  first
    [ rewrite (bind_silent getState _ _ _ _ eq_refl)
    | rewrite (bind_silent (modify _) _ _ tt _ eq_refl)
    | rewrite (bind_silent (setMe _) _ _ tt _ eq_refl)
    | rewrite (bind_silent (ret _) _ _ _ _ eq_refl) ].

Ltac readM Hnn := erewrite (bind_silent (getProp _ _)) by (apply getProp_run, Hnn).

(** ** Coercion to a 32-bit integer *)

Lemma Qtrunc_nonneg q : (0 <= q)%Q -> Qtrunc q = Qfloor q.
Proof.
  destruct q as [n d]. unfold Qtrunc, Qfloor, Qle. cbn. intros Hn.
  apply Z.quot_div_nonneg; lia.
Qed.

Lemma Qtrunc_nonpos q : (q <= 0)%Q -> Qtrunc q = Qceiling q.
Proof.
  destruct q as [n d]. unfold Qtrunc, Qceiling, Qfloor, Qle. cbn. intros Hn.
  rewrite <- (Z.opp_involutive n) at 1. rewrite Z.quot_opp_l by lia.
  rewrite Z.quot_div_nonneg by lia. reflexivity.
Qed.

Lemma wrap32_small z : - 2 ^ 31 <= z < 2 ^ 31 -> wrap32 z = z.
Proof. intros Hz. unfold wrap32. rewrite Z.mod_small; lia. Qed.

Lemma Qtrunc_range q :
  (- inject_Z (2 ^ 31) <= q)%Q -> (q < inject_Z (2 ^ 31))%Q ->
  - 2 ^ 31 <= Qtrunc q < 2 ^ 31.
Proof.
  intros Hlo Hhi. destruct (Qlt_le_dec q 0) as [Hneg | Hpos].
  - rewrite Qtrunc_nonpos by (apply Qlt_le_weak; exact Hneg).
    pose proof (Qle_ceiling q) as Hc. pose proof (Qceiling_lt q) as Hc'.
    split.
    + rewrite Zle_Qle, inject_Z_opp. eapply Qle_trans; [exact Hlo | exact Hc].
    + assert (Qceiling q - 1 < 0).
      { rewrite Zlt_Qlt. eapply Qlt_trans; [exact Hc' | exact Hneg]. }
      lia.
  - rewrite Qtrunc_nonneg by exact Hpos.
    pose proof (Qfloor_le q) as Hf. pose proof (Qlt_floor q) as Hf'.
    split.
    + assert (0 < Qfloor q + 1).
      { rewrite Zlt_Qlt. eapply Qle_lt_trans; [exact Hpos | exact Hf']. }
      lia.
    + rewrite Zlt_Qlt. eapply Qle_lt_trans; [exact Hf | exact Hhi].
Qed.

Lemma wrap32_range z : - 2 ^ 31 <= wrap32 z < 2 ^ 31.
Proof.
  unfold wrap32. pose proof (Z.mod_pos_bound (z + 2 ^ 31) (2 ^ 32) ltac:(lia)). lia.
Qed.

Lemma int32Of_ToInt32 n : int32Of n (inject_Z (ToInt32 n)).
Proof.
  destruct n as [q | |]; cbn; try reflexivity.
  exists (wrap32 (Qtrunc q)). split; [reflexivity |].
  assert (Hmod := Z.mod_pos_bound (Qtrunc q + 2 ^ 31) (2 ^ 32) ltac:(lia)).
  split; [unfold wrap32; lia |]. split; [| split; [| split]].
  - exists (- ((Qtrunc q + 2 ^ 31) / 2 ^ 32)). unfold wrap32.
    pose proof (Z.div_mod (Qtrunc q + 2 ^ 31) (2 ^ 32) ltac:(lia)). lia.
  - apply Qtrunc_nonneg.
  - apply Qtrunc_nonpos.
  - intros Hlo Hhi. apply wrap32_small, Qtrunc_range; assumption.
Qed.

Section Coercion.
Context `{Host}.

Lemma or0_coerced v q : or0 v = Some q -> int32Coerced v q.
Proof.
  unfold or0, int32Coerced. destruct (ToNumber v) as [n |]; cbn; [| discriminate].
  intros [= <-]. exists n. split; [reflexivity | apply int32Of_ToInt32].
Qed.

Lemma isInt32_or0 v q : or0 v = Some q -> isInt32 q.
Proof.
  unfold or0. destruct (ToNumber v) as [n |]; cbn; [| discriminate].
  intros [= <-]. eexists. split; [reflexivity |].
  destruct n; cbn [ToInt32]; [apply wrap32_range | lia | lia].
Qed.

(** The update of the local player, whatever its conversions do: a
    conversion that throws ends it with the assignments made so far. *)
Lemma moveMe_result (myUpdate : val) s :
  nullishV myUpdate = false ->
  moveMe myUpdate s =
    match or0 (field s myUpdate "x") with
    | None => (None, s, [])
    | Some x =>
        match or0 (field s myUpdate "y") with
        | None => (None, set_me (Me.set_x x (me s)) s, [])
        | Some y =>
            let facing := js_or (field s myUpdate "facing") (Me.facing (me s)) in
            match or0 (field s myUpdate "animationFrame") with
            | None =>
                (None, set_me (Me.set_facing facing (Me.set_y y (Me.set_x x (me s)))) s, [])
            | Some a =>
                (Some tt,
                 updateCamera
                   (set_me (Me.set_animationFrame a
                              (Me.set_facing facing (Me.set_y y (Me.set_x x (me s))))) s),
                 [])
            end
        end
    end.
Proof.
  intros Hnn. unfold moveMe. readM Hnn.
  destruct (or0 (field s myUpdate "x")) as [x |] eqn:Hx;
    [| apply bind_thrown, toInt32_thrown, Hx].
  erewrite (bind_silent (toInt32 _)) by (apply toInt32_run, Hx).
  stepM. readM Hnn. rewrite field_set_me.
  destruct (or0 (field s myUpdate "y")) as [y |] eqn:Hy;
    [| apply bind_thrown, toInt32_thrown, Hy].
  erewrite (bind_silent (toInt32 _)) by (apply toInt32_run, Hy).
  stepM. readM Hnn. stepM. readM Hnn. rewrite !field_set_me.
  destruct (or0 (field s myUpdate "animationFrame")) as [a |] eqn:Ha;
    [| apply bind_thrown, toInt32_thrown, Ha].
  erewrite (bind_silent (toInt32 _)) by (apply toInt32_run, Ha).
  stepM. reflexivity.
Qed.

End Coercion.
Lemma otherPlayers_set o s : otherPlayers (set_otherPlayers o s) = o.
Proof. reflexivity. Qed.

Lemma set_otherPlayers_twice o1 o2 s :
  set_otherPlayers o1 (set_otherPlayers o2 s) = set_otherPlayers o1 s.
Proof. reflexivity. Qed.

Section Retarget.
Context `{Host}.

(** The assignments to an own entry, when they all complete. *)
Lemma retarget_entry id (u : jsval) now s player :
  otherPlayers s !! id = Some player ->
  outcome (retarget (Entry id) u now) s = Some tt ->
  exists tx ty a,
    or0 (field s u "x") = Some tx /\ or0 (field s u "y") = Some ty /\
    or0 (field s u "animationFrame") = Some a /\
    finalState (retarget (Entry id) u now) s =
      set_otherPlayers
        (<[id := Player.mk (Player.id player) (Player.x player) (Player.y player)
                   (js_or (field s u "facing") (Player.facing player)) a
                   (Player.username player) (Player.avatarName player)
                   (Some tx) (Some ty) now]> (otherPlayers s)) s.
Proof.
  intros Hknown. unfold outcome, finalState, retarget.
  destruct (nullish u) eqn:Hnn.
  { unfold bind, getProp. cbn. rewrite Hnn. discriminate. }
  change (nullish u) with (nullishV u) in Hnn.
  readM Hnn.
  destruct (or0 (field s u "x")) as [tx |] eqn:Hx.
  2: { rewrite (bind_thrown _ _ _ _ _ (toInt32_thrown _ _ Hx)). discriminate. }
  erewrite (bind_silent (toInt32 _)) by (apply toInt32_run, Hx).
  stepM. readM Hnn. cbn [assign]. rewrite field_set_otherPlayers.
  destruct (or0 (field s u "y")) as [ty |] eqn:Hy.
  2: { rewrite (bind_thrown _ _ _ _ _ (toInt32_thrown _ _ Hy)). discriminate. }
  erewrite (bind_silent (toInt32 _)) by (apply toInt32_run, Hy).
  stepM. readM Hnn. stepM. readM Hnn. cbn [assign]. rewrite !field_set_otherPlayers.
  destruct (or0 (field s u "animationFrame")) as [a |] eqn:Ha.
  2: { rewrite (bind_thrown _ _ _ _ _ (toInt32_thrown _ _ Ha)). discriminate. }
  erewrite (bind_silent (toInt32 _)) by (apply toInt32_run, Ha).
  stepM. intros _. exists tx, ty, a. do 3 (split; [reflexivity |]).
  unfold modify.
  cbn [fst snd assign onPlayer assignTargetX assignTargetY assignFacing
         assignAnimationFrame assignLastUpdate facingOf].
  rewrite !otherPlayers_set, !set_otherPlayers_twice.
  f_equal. apply map_eq. intros k.
  destruct (decide (id = k)) as [<- | Hne].
  - rewrite !lookup_alter_eq, lookup_insert_eq, Hknown. reflexivity.
  - rewrite !lookup_alter_ne, lookup_insert_ne by exact Hne. reflexivity.
Qed.
End Retarget.

(** ** The loop of [players_moved] *)

Lemma me_assign t a s : me (assign t a s) = me s.
Proof. destruct (assign_shape t a s) as (o & p & st & m & ->). reflexivity. Qed.

Lemma me_updateCamera s : me (updateCamera s) = me s.
Proof. destruct (updateCamera_shape s) as [v ->]. reflexivity. Qed.

Lemma otherPlayers_updateCamera s : otherPlayers (updateCamera s) = otherPlayers s.
Proof. destruct (updateCamera_shape s) as [v ->]. reflexivity. Qed.

Lemma assign_other t a s id :
  t <> Entry id -> otherPlayers (assign t a s) !! id = otherPlayers s !! id.
Proof.
  destruct t as [k | | [| name | name] | |]; cbn; try reflexivity.
  intros Hne. apply lookup_alter_ne. congruence.
Qed.

Lemma assign_dom t a s : dom (otherPlayers (assign t a s)) = dom (otherPlayers s).
Proof.
  destruct t as [k | | [| name | name] | |]; cbn; try reflexivity.
  apply dom_alter_L.
Qed.

Lemma targetOf_entry k f id : targetOf k f = Entry id -> k = id.
Proof.
  destruct f as [p | p | [[] | b]]; cbn; intros E; try discriminate E.
  injection E as ->. reflexivity.
Qed.

Lemma follows_forEach_in {A} (R : State -> State -> list Effect -> Prop)
    `{!Composable R} (items : list A) (body : A -> M unit) :
  (forall item, item ∈ items -> follows R (body item)) ->
  follows R (forEach items body).
Proof.
  induction items as [| item rest IH]; intros Hb.
  - intros s. apply composable_nil.
  - cbn [forEach]. apply follows_bind; [exact _ | apply Hb; left |].
    intros _. apply IH. intros item' Hin. apply Hb. right. exact Hin.
Qed.

Section PlayersMoved.
Context `{Host}.

Lemma retarget_keeps_me m t u now : keeps (fun s => me s = m) (retarget t u now).
Proof.
  unfold retarget.
  walk; apply keeps_modify; intros sa Hsa; rewrite me_assign; exact Hsa.
Qed.

Lemma moveOther_keeps_me m now entry : keeps (fun s => me s = m) (moveOther now entry).
Proof.
  pose proof (retarget_keeps_me m) as Hpart. unfold moveOther.
  apply follows_bind; [exact _ | walk |]. intros s0.
  destruct (_ && _); [apply Hpart | walk].
Qed.

Lemma retarget_keeps_other t u now id v :
  t <> Entry id -> keeps (fun s => otherPlayers s !! id = v) (retarget t u now).
Proof.
  intros Hne. unfold retarget.
  walk; apply keeps_modify; intros sa Hsa; rewrite assign_other by exact Hne; exact Hsa.
Qed.

(** An entry of the loop touches no own entry but its own. *)
Lemma moveOther_keeps_other now k u id v :
  k <> id -> keeps (fun s => otherPlayers s !! id = v) (moveOther now (k, u)).
Proof.
  intros Hne. unfold moveOther. cbn [fst snd].
  apply follows_bind; [exact _ | walk |]. intros s0.
  destruct (_ && _); [| walk].
  apply retarget_keeps_other. intros E. apply targetOf_entry in E. contradiction.
Qed.

Lemma moveOthers_untouched now id v (items : list (string * jsval)) :
  id ∉ items.*1 ->
  keeps (fun s => otherPlayers s !! id = v) (forEach items (moveOther now)).
Proof.
  intros Hnot. apply follows_forEach_in; [exact _ |]. intros [k u] Hin.
  apply moveOther_keeps_other. intros ->. apply Hnot.
  apply list_elem_of_fmap. exists (id, u). split; [reflexivity | exact Hin].
Qed.

(** [players_moved] neither creates nor removes an own entry. *)
Lemma retarget_keeps_dom t u now D :
  keeps (fun s => dom (otherPlayers s) = D) (retarget t u now).
Proof.
  unfold retarget.
  walk; apply keeps_modify; intros sa Hsa; rewrite assign_dom; exact Hsa.
Qed.

Lemma moveOther_keeps_dom now entry D :
  keeps (fun s => dom (otherPlayers s) = D) (moveOther now entry).
Proof.
  pose proof (fun t u => retarget_keeps_dom t u now D) as Hpart. unfold moveOther.
  apply follows_bind; [exact _ | walk |]. intros s0.
  destruct (_ && _); [apply Hpart | walk].
Qed.

Lemma moveMe_keeps_dom u D : keeps (fun s => dom (otherPlayers s) = D) (moveMe u).
Proof.
  unfold moveMe.
  walk; apply keeps_modify; intros sa Hsa; unfold setMe; cbn;
    rewrite ?otherPlayers_updateCamera; exact Hsa.
Qed.

Lemma playersMoved_keeps_dom data now D :
  keeps (fun s => dom (otherPlayers s) = D) (playersMoved data now).
Proof.
  pose proof (fun entry => moveOther_keeps_dom now entry D) as Hbody.
  pose proof (fun u => moveMe_keeps_dom u D) as Hme.
  unfold playersMoved. walk.
Qed.

(** A listed identifier that is not the local one and has an own entry is
    retargeted. *)
Lemma moveOther_entry now k u s player :
  is_str (Me.id (me s)) k = false -> otherPlayers s !! k = Some player ->
  moveOther now (k, u) s = retarget (Entry k) u now s.
Proof.
  intros Hlocal Hknown. unfold moveOther. stepM. cbn [fst snd].
  unfold byId. rewrite Hlocal, Hknown. reflexivity.
Qed.

(** An identifier for which [byId] finds nothing truthy is skipped. *)
Lemma moveOther_skips now k u s :
  present (byId s k) = false -> moveOther now (k, u) s = (Some tt, s, []).
Proof.
  intros Habsent. unfold moveOther. stepM. cbn [fst snd].
  rewrite Habsent, andb_false_r. reflexivity.
Qed.

(** A completed loop has retargeted every listed own entry. *)
Lemma moveOthers_retarget now (items : list (string * jsval)) :
  forall s, NoDup items.*1 ->
    outcome (forEach items (moveOther now)) s = Some tt ->
    forall id (update : jsval) player,
      (id, update) ∈ items ->
      is_str (Me.id (me s)) id = false ->
      otherPlayers s !! id = Some player ->
      exists s0 tx ty a,
        or0 (field s0 update "x") = Some tx /\
        or0 (field s0 update "y") = Some ty /\
        or0 (field s0 update "animationFrame") = Some a /\
        otherPlayers (finalState (forEach items (moveOther now)) s) !! id
        = Some (Player.mk (Player.id player) (Player.x player) (Player.y player)
                  (js_or (field s0 update "facing") (Player.facing player)) a
                  (Player.username player) (Player.avatarName player)
                  (Some tx) (Some ty) now).
Proof.
  induction items as [| [k u] rest IH];
    intros s Hnd Hdone id update player Hin Hlocal Hknown.
  - inversion Hin.
  - cbn in Hnd. apply NoDup_cons in Hnd as [Hfresh Hnd].
    unfold outcome in Hdone. unfold finalState at 1.
    rewrite forEach_cons_run in *.
    apply elem_of_cons in Hin as [Hhead | Htail].
    + injection Hhead as <- <-.
      rewrite (moveOther_entry _ _ _ _ _ Hlocal Hknown) in *.
      destruct (retarget (Entry id) update now s) as [[[[] |] s1] out1] eqn:Erun;
        [| discriminate Hdone].
      cbn [fst snd] in *.
      destruct (retarget_entry id update now s player Hknown) as (tx & ty & a & Hx & Hy & Ha & Hs1).
      { unfold outcome. rewrite Erun. reflexivity. }
      unfold finalState in Hs1. rewrite Erun in Hs1. cbn in Hs1. subst s1.
      exists s, tx, ty, a.
      do 3 (split; [assumption |]).
      apply (moveOthers_untouched now id _ rest Hfresh). cbn.
      apply lookup_insert_eq.
    + assert (Hne : k <> id).
      { intros ->. apply Hfresh. apply list_elem_of_fmap.
        exists (id, update). split; [reflexivity | exact Htail]. }
      pose proof (moveOther_keeps_me (me s) now (k, u) s eq_refl) as Hme.
      pose proof (moveOther_keeps_other now k u id _ Hne s Hknown) as Hother.
      unfold finalState in Hme, Hother.
      destruct (moveOther now (k, u) s) as [[[[] |] s1] out1]; [| discriminate Hdone].
      cbn [fst snd] in *.
      eapply IH; try eassumption. rewrite Hme. exact Hlocal.
Qed.

End PlayersMoved.

Lemma entries_truthy v (entry : string * jsval) : entry ∈ entries v -> ToBoolean v = true.
Proof.
  destruct v; cbn; try (intros Hin; inversion Hin; fail); try reflexivity.
  destruct s; cbn; [intros Hin; inversion Hin | reflexivity].
Qed.

Section PlayersMovedMessage.
Context `{Host}.

Lemma onMessage_players_moved data now s :
  prop data "action" = VStr "players_moved" ->
  handler now (SocketMessage (Some data)) s = playersMoved data now s.
Proof.
  intros Hact. rewrite (onMessage_run _ _ _ (action_not_nullish _ _ Hact)).
  rewrite Hact. reflexivity.
Qed.

Lemma playersMoved_run data now s key :
  nullish data = false ->
  ToBoolean (prop data "players") = true ->
  ToString (Me.id (me s)) = Some key ->
  playersMoved data now s =
    bind (when (truthy (lookup s (prop data "players") key))
            (moveMe (lookup s (prop data "players") key)))
         (fun _ => forEach (entries (prop data "players")) (moveOther now)) s.
Proof.
  intros Hnn Htruthy Hkey. unfold playersMoved.
  rewrite (bind_silent _ _ s _ s (getProp_plain _ "players" _ Hnn eq_refl)).
  rewrite Htruthy. cbn [when]. stepM.
  rewrite (bind_silent _ _ s _ s (lookupIn_run _ _ _ _ Hkey)). reflexivity.
Qed.

Lemma playersMoved_thrown data now s :
  nullish data = false ->
  ToBoolean (prop data "players") = true ->
  ToString (Me.id (me s)) = None ->
  playersMoved data now s = (None, s, []).
Proof.
  intros Hnn Htruthy Hkey. unfold playersMoved.
  rewrite (bind_silent _ _ s _ s (getProp_plain _ "players" _ Hnn eq_refl)).
  rewrite Htruthy. cbn [when]. stepM.
  apply bind_thrown, lookupIn_thrown, Hkey.
Qed.

(** The update of the local player leaves the remote players and the
    local identifier alone. *)
Lemma moveMe_keeps_others u o i :
  keeps (fun s => otherPlayers s = o /\ Me.id (me s) = i) (moveMe u).
Proof.
  unfold moveMe.
  walk; apply keeps_modify; intros sa Hsa; unfold setMe; cbn;
    rewrite ?otherPlayers_updateCamera, ?me_updateCamera; exact Hsa.
Qed.


(** X30. [players_moved] creates no remote player and removes none: the own
    entries of the remote-player map are those of before, the entry of an
    identifier the message does not list is unchanged, and a listed
    identifier for which the map yields nothing truthy (its own entries,
    the record in the place of its prototype and [Object.prototype]
    included) is skipped without any change. *)
Theorem players_moved_creates_none (s : State) (now : Z) (data : jsval) :
  prop data "action" = VStr "players_moved" ->
  let s' := step s now (SocketMessage (Some data)) in
  dom (otherPlayers s') = dom (otherPlayers s) /\
  (forall id, id ∉ (entries (prop data "players")).*1 ->
     otherPlayers s' !! id = otherPlayers s !! id) /\
  (forall id update,
     present (byId s id) = false ->
     moveOther now (id, update) s = (Some tt, s, [])).
Proof.
  intros Hact s'. subst s'. unfold step, finalState.
  rewrite (onMessage_players_moved _ _ _ Hact).
  split; [| split].
  - apply (playersMoved_keeps_dom data now _ s eq_refl).
  - intros id Hnot.
    pose proof (moveOthers_untouched now id (otherPlayers s !! id) _ Hnot) as Hloop.
    cut (keeps (fun s0 => otherPlayers s0 !! id = otherPlayers s !! id)
           (playersMoved data now)).
    { intros Hk. apply Hk. reflexivity. }
    unfold playersMoved, moveMe.
    apply follows_bind_getProp; [composable |]. intros _ s0.
    rewrite field_plain by reflexivity.
    walk; apply keeps_modify; intros sa Hsa; unfold setMe; cbn;
      rewrite ?otherPlayers_updateCamera; exact Hsa.
  - intros id update. apply moveOther_skips.
Qed.

End PlayersMovedMessage.

(** ** Closed instances *)

(** C1 as stated fails: after the join, two clicks one millisecond apart
    each send a move. *)
Lemma clicks_are_not_throttled : ~ allMovesThrottled.
Proof.
  intros Hall.
  specialize (Hall twoClicks 4%nat 5%nat 5000 5001
                [Send true (MoveTo 10 10)] [Send true (MoveTo 20 20)]).
  assert (Habs : MOVE_THROTTLE_MS <= 5001 - 5000).
  { apply Hall; (reflexivity || lia). }
  unfold MOVE_THROTTLE_MS in Habs. lia.
Qed.


(** C8 at the identifier [__proto__], which is neither the local one nor
    in the remote-player map: the message is not ignored.  The assignments
    of lines 716-720 land on [Object.prototype], and a player who joins
    afterwards without [facing] faces north instead of south. *)
Theorem players_moved_reaches_prototype :
  let s := joined 100 200 in
  let s' := step s 1500 (SocketMessage (Some protoMoved)) in
  is_str (Me.id (me s)) "__proto__" = false /\
  otherPlayers s !! "__proto__" = None /\
  pristine s /\
  objectPrototype s'
    = Stray.mk (Some 5%Q) (Some 6%Q) (Some (VStr "north")) (Some 0%Q) (Some 1500) /\
  otherPlayers s' = otherPlayers s /\
  Player.facing
    <$> otherPlayers (step s' 1600 (SocketMessage (Some plainJoined))) !! "9"
    = Some (VStr "north") /\
  Player.facing
    <$> otherPlayers (step s 1600 (SocketMessage (Some plainJoined))) !! "9"
    = Some (VStr "south").
Proof. vm_compute. repeat split; reflexivity. Qed.

(** C2 at a player 10 pixels left of its target. *)
Lemma interpolation_approaches_witness :
  exists p',
    otherPlayers (updatePlayerInterpolation (withRemote7 0 0)) !! "7" = Some p' /\
    (dist2 (Player.x p') (Player.y p') 10 0 < dist2 0 0 10 0)%Q /\
    (0 <= 10 - Player.x p')%Q.
Proof.
  destruct (interpolation_approaches (withRemote7 0 0) "7" (remote7 0 0) 10 0)
    as (p' & Hp' & _ & _ & Hcloser & _ & _ & Hsign & _).
  - reflexivity.
  - reflexivity.
  - reflexivity.
  - left. vm_compute. reflexivity.
  - exists p'. split; [exact Hp' |]. split; [exact Hcloser |].
    apply Hsign. vm_compute. discriminate.
Defined.

(** C3 at a player a fifth of a pixel from its target on both axes. *)
Lemma interpolation_snaps_witness :
  exists p',
    otherPlayers (updatePlayerInterpolation (withRemote7 (49 # 5) (1 # 5))) !! "7"
      = Some p' /\
    Player.x p' = 10%Q /\ Player.y p' = 0%Q.
Proof.
  destruct (interpolation_snaps (withRemote7 (49 # 5) (1 # 5)) "7"
              (remote7 (49 # 5) (1 # 5)) 10 0)
    as (p' & Hp' & Hx & Hy & _).
  - reflexivity.
  - reflexivity.
  - reflexivity.
  - vm_compute. discriminate.
  - vm_compute. discriminate.
  - exists p'. auto.
Defined.

(** C4 after a join far outside the world. *)
Lemma updateCamera_clamped_witness :
  let v := viewport (updateCamera (joined 9000 (-50))) in
  (0 <= Viewport.cameraX v <= Qmax 0 (2048 - 800))%Q /\
  (0 <= Viewport.cameraY v <= Qmax 0 (2048 - 600))%Q.
Proof.
  apply (updateCamera_clamped (joined 9000 (-50))). vm_compute. reflexivity.
Defined.

(** C5 at a chat message. *)
Lemma position_only_from_server_witness :
  myPosition (step (joined 100 200) 2000 (SocketMessage (Some chatPayload)))
  = myPosition (joined 100 200).
Proof.
  apply position_only_from_server.
  intros data Hdata. injection Hdata as <-. split; reflexivity.
Defined.

(** C6 in the state at load. *)
Lemma updateCamera_noop_witness : updateCamera initial = initial.
Proof.
  apply (updateCamera_noop initial). left. reflexivity.
Defined.

(** C7 at a rejected join. *)
Lemma join_rejected_no_change_witness :
  step initial 1200 (SocketMessage (Some rejectPayload)) = initial.
Proof.
  apply (join_rejected_no_change initial 1200 rejectPayload); reflexivity.
Defined.

(** C9 after a join at the centre of the world. *)
Lemma updateCamera_scenario_witness :
  Viewport.cameraX (viewport (updateCamera (joined 1024 1024))) = 624%Q /\
  Viewport.cameraY (viewport (updateCamera (joined 1024 1024))) = 724%Q.
Proof.
  apply updateCamera_scenario; reflexivity.
Defined.


(** The positive part of C8 at a [players_moved] naming the unknown
    player "99". *)
Lemma players_moved_creates_none_witness :
  dom (otherPlayers (step (joined 100 200) 1500 (SocketMessage (Some unknownMoved))))
  = dom (otherPlayers (joined 100 200)).
Proof.
  apply (players_moved_creates_none (joined 100 200) 1500 unknownMoved eq_refl).
Defined.

(** C1 (amended) at the held key: the bursts of the ticks at 1350 and 1450
    are a throttle apart. *)
Lemma moves_gated_loop_throttled_witness : MOVE_THROTTLE_MS <= 1450 - 1350.
Proof.
  destruct (moves_gated_loop_throttled initial heldKey) as (_ & _ & Hapart).
  apply (Hapart 5%nat 7%nat 1350 1450
           [Send true (MoveDir Up)] [Send true (MoveDir Up)]);
    (reflexivity || lia).
Defined.

(** ** Scenarios of the specification, replayed *)

(** ** Scenarios of the specification, replayed *)

Example join_seeds_local_player :
  myPosition (joined 100 200) = (100%Q, 200%Q) /\
  otherPlayers (joined 100 200) = ∅ /\
  Me.hasServerPosition (me (joined 100 200)) = true /\
  canSendMoveCommands (joined 100 200) = true.
Proof. vm_compute. repeat split; reflexivity. Qed.

Example join_centres_camera :
  Viewport.cameraX (viewport (joined 1024 1024)) = 624%Q /\
  Viewport.cameraY (viewport (joined 1024 1024)) = 724%Q.
Proof. vm_compute. split; reflexivity. Qed.

Example player_left_unknown :
  step (joined 100 200) 1500 (SocketMessage (Some (leftPayload "99")))
  = joined 100 200.
Proof. vm_compute. reflexivity. Qed.

Example remote_update_retargets :
  (fun p => (Player.x p, Player.y p, Player.targetX p, Player.targetY p))
    <$> (otherPlayers (step (withRemote7 3 4) 1500 (SocketMessage (Some remoteMoved)))
           !! "7")
  = Some (3%Q, 4%Q, Some (-7)%Q, Some 0%Q).
Proof. vm_compute. reflexivity. Qed.

Example coercions :
  or0 (VNum (Finite (79 # 10))) = Some 7%Q /\
  or0 (VNum (Finite (-79 # 10))) = Some (-7)%Q /\
  or0 VUndef = Some 0%Q /\
  or0 (VStr "north") = Some 0%Q /\
  or0 (VObj []) = Some 0%Q /\
  or0 (VBool true) = Some 1%Q /\
  or0 (VStr "12") = Some 12%Q /\
  or0 (VArr [VNum (Finite 5)]) = Some 5%Q /\
  or0 unconvertible = None /\
  or0 (VNum (Finite (inject_Z (2 ^ 32) + (11 # 2)))) = Some 5%Q.
Proof. vm_compute. repeat split; reflexivity. Qed.

(** A coordinate whose conversion throws ends the handler before anything
    is stored. *)
Example unconvertible_coordinate :
  outcome (handler 1500 (SocketMessage (Some (localMoved unconvertible)))) (joined 100 200)
    = None /\
  step (joined 100 200) 1500 (SocketMessage (Some (localMoved unconvertible)))
    = joined 100 200.
Proof. vm_compute. split; reflexivity. Qed.

Example held_key_trace :
  snd (run initial heldKey) =
    [(1000, [AddChatMessage (VStr "system")
               (VStr "Welcome to the MMO! Type messages to chat with other players.")
               VNull]);
     (1100, [Send false (JoinGame (VStr "Tim")); UpdateUI]);
     (1200, [AwaitAvatarFrames (VObj []) (VStr "hero")]);
     (1300, [Send true Stop]);
     (1320, []);
     (1350, [Send true (MoveDir Up)]);
     (1400, []);
     (1450, [Send true (MoveDir Up)])].
Proof. vm_compute. reflexivity. Qed.

(** A key event whose [key] names a member of [Object.prototype] adds the
    function's source text to the pressed keys, and the movement loop
    sends it as a direction. *)
Example inherited_key :
  let s := step (joined 100 200) 1320 (KeyDown "constructor") in
  Keys.others (keysPressed s) = [(nativeFunctionString "constructor", true)] /\
  emitted s 1500 Tick = [Send true (MoveDir (Other (nativeFunctionString "constructor")))].
Proof. vm_compute. split; reflexivity. Qed.

(** The local identifier "constructor" finds the inherited function in an
    empty players map: the local player is placed at the origin. *)
Example join_inherited_entry :
  let s := step initial 1200 (SocketMessage (Some inheritedJoin)) in
  ownEntry initial inheritedJoin = Some (Ref (Member "constructor")) /\
  myPosition s = (0%Q, 0%Q) /\ Me.hasServerPosition (me s) = true.
Proof. vm_compute. repeat split; reflexivity. Qed.

(** A player listed under [__proto__] takes the place of the prototype of
    the remote-player map instead of becoming an entry. *)
Example join_prototype_entry :
  let s := step initial 1200 (SocketMessage (Some protoJoin)) in
  otherPlayers s = ∅ /\
  Player.id <$> byIdPrototype s = Some (VStr "__proto__") /\
  present (byId s "x") = true.
Proof. vm_compute. repeat split; reflexivity. Qed.

(** * Further properties *)

(** ** Keyboard state (lines 370-396, 441-451) *)

Lemma scanKeys_fold (entries : list (direction * bool)) (acc : bool * list direction) :
  fold_left
    (fun (acc : bool * list direction) (entry : direction * bool) =>
       if snd entry then (true, snd acc ++ [fst entry]) else acc)
    entries acc
  = (fst acc || existsb snd entries, snd acc ++ (fst <$> List.filter snd entries)).
Proof.
  revert acc. induction entries as [| [d b] rest IH]; intros [active dirs]; cbn.
  - rewrite orb_false_r, app_nil_r. reflexivity.
  - destruct b; rewrite IH; cbn.
    + rewrite orb_true_r, <- app_assoc. reflexivity.
    + reflexivity.
Qed.

Lemma scanKeys_entries (k : Keys.t) :
  scanKeys k = (existsb snd (keyEntries k), activeDirections k).
Proof. unfold scanKeys. rewrite scanKeys_fold. reflexivity. Qed.

Lemma insertByIndex_perm e l : insertByIndex e l ≡ₚ e :: l.
Proof.
  induction l as [| h rest IH]; cbn; [reflexivity |].
  destruct (fst e <? fst h); [reflexivity |].
  rewrite IH. apply Permutation_swap.
Qed.

(** [Object.entries] lists the declared keys and the added ones, each
    once. *)
Lemma keyEntries_perm (k : Keys.t) :
  keyEntries k ≡ₚ
    [(Up, Keys.up k); (Down, Keys.down k); (Left, Keys.left k); (Right, Keys.right k)]
    ++ ((fun e => (Other (fst e), snd e)) <$> Keys.others k).
Proof.
  unfold keyEntries, indexKeys, nameKeys.
  set (declared := [(Up, Keys.up k); (Down, Keys.down k); (Left, Keys.left k);
                    (Right, Keys.right k)]).
  generalize declared. clear declared.
  induction (Keys.others k) as [| [name b] rest IH]; intros declared.
  - cbn. rewrite app_nil_r. reflexivity.
  - cbn [omap list_omap fst snd List.filter].
    destruct (arrayIndex name) as [i |] eqn:Ei; cbn [fmap option_fmap option_map foldr].
    + rewrite insertByIndex_perm. cbn [fmap list_fmap fst snd].
      rewrite bool_decide_eq_true_2 by (eexists; reflexivity). cbn [negb].
      cbn [app]. etransitivity; [| apply Permutation_middle].
      constructor. apply IH.
    + rewrite bool_decide_eq_false_2 by (intros [? ?]; discriminate). cbn [negb].
      cbn [fmap list_fmap fst snd].
      etransitivity; [| apply Permutation_middle].
      etransitivity; [| constructor; apply IH].
      rewrite !app_assoc. symmetry. apply Permutation_middle.
Qed.

Lemma lookupOther_elem name b (l : list (string * bool)) :
  NoDup (fst <$> l) -> (name, b) ∈ l <-> lookupOther name l = Some b.
Proof.
  induction l as [| [n v] rest IH]; cbn; intros Hnd.
  - split; [intros Hin; inversion Hin | discriminate].
  - apply NoDup_cons in Hnd as [Hfresh Hnd]. rewrite elem_of_cons.
    destruct (String.eqb_spec n name) as [-> | Hne].
    + split.
      * intros [[= ->] | Hin]; [reflexivity |].
        exfalso. apply Hfresh. apply list_elem_of_fmap. exists (name, b). auto.
      * intros [= ->]. left. reflexivity.
    + rewrite <- (IH Hnd). split; [| auto].
      intros [[= -> _] | Hin]; [contradiction | exact Hin].
Qed.

Lemma lookupOther_absent name (l : list (string * bool)) :
  name ∉ fst <$> l -> lookupOther name l = None.
Proof.
  induction l as [| [n v] rest IH]; cbn; intros Hnot; [reflexivity |].
  apply not_elem_of_cons in Hnot as [Hne Hnot].
  destruct (String.eqb_spec n name) as [-> | _]; [contradiction | apply IH, Hnot].
Qed.

Lemma activeDirections_elem (k : Keys.t) d :
  addedKeysDistinct k -> d ∈ activeDirections k <-> pressed k d = true.
Proof.
  intros [Hnd Hadded]. unfold activeDirections.
  rewrite list_elem_of_fmap.
  assert (Hentry : (exists e, d = fst e /\ e ∈ List.filter snd (keyEntries k))
                   <-> (d, true) ∈ keyEntries k).
  { split.
    - intros ([d' b] & -> & Hin). apply list_elem_of_In, filter_In in Hin as [Hin Hb].
      cbn in Hb. subst b. apply list_elem_of_In, Hin.
    - intros Hin. exists (d, true). split; [reflexivity |].
      apply list_elem_of_In, filter_In. split; [apply list_elem_of_In, Hin | reflexivity]. }
  rewrite Hentry, keyEntries_perm, elem_of_app, list_elem_of_fmap.
  rewrite !elem_of_cons, elem_of_nil. unfold pressed.
  split.
  - intros [[[= -> Hb] | [[= -> Hb] | [[= -> Hb] | [[= -> Hb] | []]]]]
            | ([n b] & [= -> Hb] & Hin)];
      cbn [ownKey fst default from_option]; try (symmetry; exact Hb).
    cbn in Hb. subst b.
    apply (lookupOther_elem _ _ _ Hnd) in Hin. rewrite Hin. reflexivity.
  - destruct d as [| | | | name]; cbn [ownKey]; intros Hp.
    + left. left. cbn in Hp. rewrite Hp. reflexivity.
    + left. right. left. cbn in Hp. rewrite Hp. reflexivity.
    + left. right. right. left. cbn in Hp. rewrite Hp. reflexivity.
    + left. right. right. right. left. cbn in Hp. rewrite Hp. reflexivity.
    + right. destruct (lookupOther name (Keys.others k)) as [[] |] eqn:El;
        try discriminate Hp.
      exists (name, true). split; [reflexivity |].
      apply (lookupOther_elem _ _ _ Hnd), El.
Qed.

Lemma activeDirections_NoDup (k : Keys.t) :
  addedKeysDistinct k -> NoDup (activeDirections k).
Proof.
  intros [Hnd _]. unfold activeDirections.
  apply (sublist_NoDup _ (fst <$> keyEntries k)).
  2: { apply fmap_sublist. clear. induction (keyEntries k) as [| [d []] rest IH]; cbn.
       - constructor.
       - constructor. exact IH.
       - apply sublist_cons. exact IH. }
  rewrite keyEntries_perm, fmap_app, <- list_fmap_compose. cbn [fmap list_fmap fst].
  change ((fst ∘ (fun e : string * bool => (Other (fst e), snd e))) <$> Keys.others k)
    with ((Other ∘ fst) <$> Keys.others k).
  rewrite list_fmap_compose.
  assert (Hothers : NoDup (Other <$> (fst <$> Keys.others k))).
  { apply NoDup_fmap_2; [intros a b [= ->]; reflexivity | exact Hnd]. }
  assert (Hdecl : forall d, d ∈ [Up; Down; Left; Right] ->
                     d ∉ Other <$> (fst <$> Keys.others k)).
  { intros d Hd Hin. apply list_elem_of_fmap in Hin as (n & -> & _).
    rewrite !elem_of_cons, elem_of_nil in Hd. intuition discriminate. }
  apply NoDup_app. split; [| split; [exact Hdecl | exact Hothers]].
  repeat (apply NoDup_cons; split;
          [rewrite ?elem_of_cons, ?elem_of_nil; intuition discriminate |]).
  apply NoDup_nil. exact I.
Qed.

Lemma activeDirections_declared (k : Keys.t) :
  Keys.others k = [] ->
  activeDirections k = List.filter (pressed k) [Up; Down; Left; Right].
Proof.
  intros Hplain. unfold activeDirections, keyEntries. rewrite Hplain.
  destruct k as [[] [] [] [] others]; reflexivity.
Qed.

(** X1. The scan of [keysPressed] in the movement loop yields exactly the
    pressed keys, each once, in the order of [Object.entries]: up, down,
    left, right for the declared keys, and [hasActiveKeys] tells whether
    there is one. *)
Theorem scanKeys_pressed (k : Keys.t) :
  snd (scanKeys k) = activeDirections k /\
  fst (scanKeys k) = existsb snd (keyEntries k) /\
  (Keys.others k = [] ->
     snd (scanKeys k) = List.filter (pressed k) [Up; Down; Left; Right] /\
     fst (scanKeys k) = existsb (pressed k) [Up; Down; Left; Right]) /\
  (addedKeysDistinct k ->
     (forall d, d ∈ snd (scanKeys k) <-> pressed k d = true) /\
     NoDup (snd (scanKeys k)) /\
     (fst (scanKeys k) = true <-> exists d, pressed k d = true)).
Proof.
  rewrite scanKeys_entries. cbn [fst snd].
  split; [reflexivity |]. split; [reflexivity |]. split.
  - intros Hplain. unfold activeDirections, keyEntries. rewrite Hplain.
    destruct k as [[] [] [] [] others]; cbn; split; reflexivity.
  - intros Hadded. split; [intros d; apply activeDirections_elem, Hadded |].
    split; [apply activeDirections_NoDup, Hadded |].
    split.
    + intros Hactive. apply existsb_exists in Hactive as ([d b] & Hin & Hb).
      cbn in Hb. subst b. exists d. apply (activeDirections_elem k d Hadded).
      unfold activeDirections. apply list_elem_of_fmap. exists (d, true).
      split; [reflexivity |]. apply list_elem_of_In, filter_In. auto.
    + intros [d Hd]. apply (activeDirections_elem k d Hadded) in Hd.
      unfold activeDirections in Hd. apply list_elem_of_fmap in Hd as ([d' b] & -> & Hin).
      apply list_elem_of_In, filter_In in Hin as [Hin Hb].
      apply existsb_exists. exists (d', b). auto.
Qed.

Lemma lookupOther_setOther name name' b (l : list (string * bool)) :
  lookupOther name' (setOther name b l)
  = if String.eqb name name' then Some b else lookupOther name' l.
Proof.
  induction l as [| [n v] rest IH]; cbn.
  - destruct (String.eqb name name'); reflexivity.
  - destruct (String.eqb_spec n name) as [-> | Hne]; cbn.
    + destruct (String.eqb name name'); reflexivity.
    + rewrite IH. destruct (String.eqb_spec n name') as [-> | Hne'].
      * destruct (String.eqb_spec name name') as [-> | _]; [contradiction | reflexivity].
      * reflexivity.
Qed.

Lemma pressed_press d d' b k :
  pressed (press d b k) d' = if decide (d' = d) then b else pressed k d'.
Proof.
  destruct d as [| | | | name], d' as [| | | | name']; try reflexivity.
  unfold pressed. cbn [press ownKey Keys.others]. rewrite lookupOther_setOther.
  destruct (String.eqb_spec name name') as [-> | Hne].
  - rewrite decide_True by reflexivity. reflexivity.
  - rewrite decide_False by congruence. reflexivity.
Qed.

Lemma keyMap_declared key d : keyMap key = Some d -> directionOf (keyName d) = d.
Proof.
  unfold keyMap.
  repeat (destruct (String.eqb key _); [intros [= <-]; reflexivity |]).
  discriminate.
Qed.

Lemma ownKey_declared key d k :
  keyMap key = Some d -> ownKey k d = Some (pressed k d).
Proof.
  unfold keyMap.
  repeat (destruct (String.eqb key _); [intros [= <-]; reflexivity |]).
  discriminate.
Qed.

Lemma keyName_declared key d :
  keyMap key = Some d ->
  ToBoolean (VStr (keyName d)) = true /\ String.eqb (keyName d) "__proto__" = false.
Proof.
  unfold keyMap.
  repeat (destruct (String.eqb key _); [intros [= <-]; split; reflexivity |]).
  discriminate.
Qed.

Lemma set_keysPressed_same s : set_keysPressed (keysPressed s) s = s.
Proof. destruct s; reflexivity. Qed.

Lemma set_keysPressed_twice k1 k2 s :
  set_keysPressed k1 (set_keysPressed k2 s) = set_keysPressed k1 s.
Proof. reflexivity. Qed.

Section KeyEvents.
Context `{Host}.

Lemma handleKeyDown_declared key d s :
  keyMap key = Some d ->
  handleKeyDown key s =
    (Some tt,
     if pressed (keysPressed s) d then s
     else set_keysPressed (press d true (keysPressed s)) s, []).
Proof.
  intros Hd. destruct (keyName_declared _ _ Hd) as [Htruthy Hproto].
  unfold handleKeyDown. stepM. unfold keyMapGet. rewrite Hd. cbn [truthy].
  rewrite Htruthy. cbn [when toKey ToString lift]. stepM.
  unfold keysPressedGet, keysPressedSet.
  rewrite (keyMap_declared _ _ Hd), (ownKey_declared _ _ _ Hd), Hproto. cbn [truthy ToBoolean].
  destruct (pressed (keysPressed s) d); reflexivity.
Qed.

Lemma handleKeyUp_declared key d s :
  keyMap key = Some d ->
  handleKeyUp key s = (Some tt, set_keysPressed (press d false (keysPressed s)) s, []).
Proof.
  intros Hd. destruct (keyName_declared _ _ Hd) as [Htruthy Hproto].
  unfold handleKeyUp. stepM. unfold keyMapGet. rewrite Hd. cbn [truthy].
  rewrite Htruthy. cbn [when toKey ToString lift]. stepM.
  unfold keysPressedSet. rewrite (keyMap_declared _ _ Hd), Hproto. reflexivity.
Qed.

(** X2. Pressing a mapped key marks its direction, releasing it clears the
    direction, no other key of [keysPressed] is touched, and nothing but
    [keysPressed] changes.  A key for which [keyMap] yields nothing truthy
    changes nothing, and no key event changes anything but [keysPressed] or
    produces an effect. *)
Theorem key_down_up (key : string) (s : State) :
  let down := finalState (handleKeyDown key) s in
  let up := finalState (handleKeyUp key) down in
  (forall d, keyMap key = Some d ->
     pressed (keysPressed down) d = true /\
     pressed (keysPressed up) d = false /\
     (forall d', d' <> d ->
        pressed (keysPressed down) d' = pressed (keysPressed s) d' /\
        pressed (keysPressed up) d' = pressed (keysPressed s) d') /\
     outcome (handleKeyDown key) s = Some tt /\
     outcome (handleKeyUp key) down = Some tt) /\
  (truthy (keyMapGet s key) = false ->
     handleKeyDown key s = (Some tt, s, []) /\ handleKeyUp key s = (Some tt, s, [])) /\
  set_keysPressed (keysPressed s) down = s /\
  set_keysPressed (keysPressed s) up = s /\
  effects (handleKeyDown key) s = [] /\
  effects (handleKeyUp key) down = [].
Proof.
  intros down up. subst down up. split; [| split].
  - intros d Hd. unfold finalState, outcome.
    rewrite (handleKeyDown_declared _ _ _ Hd), (handleKeyUp_declared _ _ _ Hd).
    cbn [fst snd]. destruct (pressed (keysPressed s) d) eqn:Ed; cbn [keysPressed set_keysPressed].
    + split; [exact Ed |]. rewrite pressed_press, decide_True by reflexivity.
      split; [reflexivity |]. split; [| split; reflexivity].
      intros d' Hne. split; [reflexivity |].
      rewrite pressed_press, decide_False by exact Hne. reflexivity.
    + rewrite !pressed_press, !decide_True by reflexivity.
      split; [reflexivity |]. split; [reflexivity |]. split; [| split; reflexivity].
      intros d' Hne. rewrite !pressed_press, !decide_False by exact Hne.
      split; reflexivity.
  - intros Hfalsy. unfold handleKeyDown, handleKeyUp. rewrite !(bind_silent getState _ s s s eq_refl).
    rewrite Hfalsy. split; reflexivity.
  - assert (Hdown : forall s0, exists k,
               handleKeyDown key s0 = (Some tt, set_keysPressed k s0, []) \/
               handleKeyDown key s0 = (None, set_keysPressed k s0, [])).
    { intros s0. unfold handleKeyDown. rewrite (bind_silent getState _ s0 s0 s0 eq_refl).
      destruct (truthy (keyMapGet s0 key)); cbn [when];
        [| exists (keysPressed s0); left; rewrite set_keysPressed_same; reflexivity].
      destruct (toKey (keyMapGet s0 key) s0) as [[[name |] s1] out] eqn:Ekey.
      - assert (Hread := reads_toKey (keyMapGet s0 key) s0).
        unfold finalState, effects in Hread. rewrite Ekey in Hread.
        destruct Hread as [Hs1 Hout]. cbn in Hs1, Hout. subst s1 out.
        rewrite (bind_silent _ _ _ _ _ Ekey).
        destruct (negb _); cbn [when].
        + destruct (keysPressedSet_shape name true s0) as [k Hk].
          exists k. left. unfold modify. rewrite Hk. reflexivity.
        + exists (keysPressed s0). left. rewrite set_keysPressed_same. reflexivity.
      - assert (Hread := reads_toKey (keyMapGet s0 key) s0).
        unfold finalState, effects in Hread. rewrite Ekey in Hread.
        destruct Hread as [Hs1 Hout]. cbn in Hs1, Hout. subst s1 out.
        rewrite (bind_thrown _ _ _ _ _ Ekey).
        exists (keysPressed s0). right. rewrite set_keysPressed_same. reflexivity. }
    assert (Hup : forall s0, exists k,
               handleKeyUp key s0 = (Some tt, set_keysPressed k s0, []) \/
               handleKeyUp key s0 = (None, set_keysPressed k s0, [])).
    { intros s0. unfold handleKeyUp. rewrite (bind_silent getState _ s0 s0 s0 eq_refl).
      destruct (truthy (keyMapGet s0 key)); cbn [when];
        [| exists (keysPressed s0); left; rewrite set_keysPressed_same; reflexivity].
      destruct (toKey (keyMapGet s0 key) s0) as [[[name |] s1] out] eqn:Ekey.
      - assert (Hread := reads_toKey (keyMapGet s0 key) s0).
        unfold finalState, effects in Hread. rewrite Ekey in Hread.
        destruct Hread as [Hs1 Hout]. cbn in Hs1, Hout. subst s1 out.
        rewrite (bind_silent _ _ _ _ _ Ekey).
        destruct (keysPressedSet_shape name false s0) as [k Hk].
        exists k. left. unfold modify. rewrite Hk. reflexivity.
      - assert (Hread := reads_toKey (keyMapGet s0 key) s0).
        unfold finalState, effects in Hread. rewrite Ekey in Hread.
        destruct Hread as [Hs1 Hout]. cbn in Hs1, Hout. subst s1 out.
        rewrite (bind_thrown _ _ _ _ _ Ekey).
        exists (keysPressed s0). right. rewrite set_keysPressed_same. reflexivity. }
    unfold finalState, effects.
    destruct (Hdown s) as [k1 [-> | ->]]; cbn [fst snd];
      destruct (Hup (set_keysPressed k1 s)) as [k2 [-> | ->]]; cbn [fst snd];
      rewrite ?set_keysPressed_twice, set_keysPressed_same; auto.
Qed.

End KeyEvents.
(** ** Camera (lines 118-142, 176-191, 799-802) *)

Lemma cameraReady_updateCamera s : cameraReady (updateCamera s) = cameraReady s.
Proof.
  unfold cameraReady, updateCamera.
  destruct (negb _ || _ || _ || _); reflexivity.
Qed.

(** X3. Recomputing the camera twice is recomputing it once: the second
    [updateCamera] of the resize listener changes nothing. *)
Theorem updateCamera_idempotent (s : State) :
  updateCamera (updateCamera s) = updateCamera s /\
  forall innerWidth innerHeight,
    onResize innerWidth innerHeight s = resizeCanvas innerWidth innerHeight s.
Proof.
  assert (Hidem : forall s0, updateCamera (updateCamera s0) = updateCamera s0).
  { intros s0. destruct (cameraReady s0) eqn:Eready.
    - unfold updateCamera at 1.
      pose proof (cameraReady_updateCamera s0) as Hr. rewrite Eready in Hr.
      unfold cameraReady in Hr.
      repeat (apply andb_prop in Hr; destruct Hr as [Hr ?]).
      rewrite Hr. destruct (Qeqb (World.width _) 0); [discriminate |].
      destruct (Qeqb (World.height _) 0); [discriminate |].
      destruct (Me.hasServerPosition _); [| discriminate]. cbn.
      unfold updateCamera. unfold cameraReady in Eready.
      repeat (apply andb_prop in Eready; destruct Eready as [Eready ?]).
      rewrite Eready. destruct (Qeqb (World.width (world s0)) 0); [discriminate |].
      destruct (Qeqb (World.height (world s0)) 0); [discriminate |].
      destruct (Me.hasServerPosition (me s0)); [| discriminate].
      reflexivity.
    - rewrite (updateCamera_not_ready s0 Eready).
      apply updateCamera_not_ready, Eready. }
  split; [apply Hidem |].
  intros w h. unfold onResize, resizeCanvas. apply Hidem.
Qed.

(** X4. When the viewport is no larger than the world, the recomputed
    camera window lies inside the world: the source rectangle [drawWorld]
    hands to [drawImage] is within the image. *)
Theorem camera_window_inside_world (s : State) :
  cameraReady s = true ->
  (Viewport.width (viewport s) <= World.width (world s))%Q ->
  (Viewport.height (viewport s) <= World.height (world s))%Q ->
  exists sx sy,
    drawWorld (updateCamera s) =
      [DrawWorld sx sy (Viewport.width (viewport s)) (Viewport.height (viewport s))
         0 0 (Viewport.width (viewport s)) (Viewport.height (viewport s))] /\
    (0 <= sx)%Q /\ (sx + Viewport.width (viewport s) <= World.width (world s))%Q /\
    (0 <= sy)%Q /\ (sy + Viewport.height (viewport s) <= World.height (world s))%Q.
Proof.
  intros Hready Hw Hh.
  pose proof (updateCamera_ready s Hready) as Hv.
  eexists _, _. split.
  - unfold drawWorld.
    assert (Hr : World.ready (world (updateCamera s)) = true).
    { pose proof (cameraReady_updateCamera s) as Hc. rewrite Hready in Hc.
      unfold cameraReady in Hc.
      repeat (apply andb_prop in Hc; destruct Hc as [Hc ?]). exact Hc. }
    rewrite Hr, Hv. cbn. reflexivity.
  - set (vw := Viewport.width (viewport s)) in *.
    set (vh := Viewport.height (viewport s)) in *.
    set (ww := World.width (world s)) in *.
    set (wh := World.height (world s)) in *.
    assert (Hmx : (Math_max 0 (ww - vw) == ww - vw)%Q).
    { unfold Math_max. apply Q.max_r. lra. }
    assert (Hmy : (Math_max 0 (wh - vh) == wh - vh)%Q).
    { unfold Math_max. apply Q.max_r. lra. }
    pose proof (clamp_between (Me.x (me s) - Math_floor (vw / 2)) 0
                  (Math_max 0 (ww - vw)) (Q.le_max_l _ _)) as [Hx0 Hx1].
    pose proof (clamp_between (Me.y (me s) - Math_floor (vh / 2)) 0
                  (Math_max 0 (wh - vh)) (Q.le_max_l _ _)) as [Hy0 Hy1].
    repeat split; try assumption; lra.
Qed.

(** X5. Away from the edges of the world the camera centres the local
    player: its screen abscissa is [floor(vw / 2)] and its screen ordinate
    [floor(vh / 2)]. *)
Theorem camera_centres_player (s : State) :
  cameraReady s = true ->
  let vw := Viewport.width (viewport s) in
  let vh := Viewport.height (viewport s) in
  (Math_floor (vw / 2) <= Me.x (me s)
     <= Math_floor (vw / 2) + (World.width (world s) - vw))%Q ->
  (Math_floor (vh / 2) <= Me.y (me s)
     <= Math_floor (vh / 2) + (World.height (world s) - vh))%Q ->
  (Me.x (me s) - Viewport.cameraX (viewport (updateCamera s)) == Math_floor (vw / 2))%Q /\
  (Me.y (me s) - Viewport.cameraY (viewport (updateCamera s)) == Math_floor (vh / 2))%Q.
Proof.
  intros Hready vw vh [Hx0 Hx1] [Hy0 Hy1].
  rewrite (updateCamera_ready s Hready). cbn. fold vw vh.
  unfold clamp, Math_max, Math_min.
  assert (Hmx : (Qmax 0 (World.width (world s) - vw) == World.width (world s) - vw)%Q)
    by (apply Q.max_r; lra).
  assert (Hmy : (Qmax 0 (World.height (world s) - vh) == World.height (world s) - vh)%Q)
    by (apply Q.max_r; lra).
  split.
  - rewrite Hmx. rewrite Q.min_r by lra. rewrite Q.max_r by lra. ring.
  - rewrite Hmy. rewrite Q.min_r by lra. rewrite Q.max_r by lra. ring.
Qed.

(** ** Interpolation over many ticks (lines 317-337, 345-360) *)

Lemma Qabs_self_diff (x : Q) : (Qabs (x - x) <= 1 # 2)%Q.
Proof.
  assert (Hz : (x - x == 0)%Q) by ring.
  rewrite Hz. discriminate.
Qed.

Lemma interpolate_fixed (p : Player.t) : atTarget p -> interpolate p = p.
Proof.
  intros [Hx Hy]. destruct p as [id x y f a u av tx ty lu]. cbn in *. subst tx ty.
  unfold interpolate. cbn [Player.targetX Player.targetY Player.x Player.y].
  pose proof (Qabs_self_diff x) as Hdx. pose proof (Qabs_self_diff y) as Hdy.
  apply Qgtb_false in Hdx. apply Qgtb_false in Hdy.
  unfold Math_abs. rewrite Hdx, Hdy. reflexivity.
Qed.

(** X6. A remote player that is at its target rests: no number of ticks
    changes anything of it, and a whole frame leaves a state in which every
    remote player is at its target unchanged. *)
Theorem interpolate_at_rest (p : Player.t) :
  atTarget p ->
  (forall n, Nat.iter n interpolate p = p) /\
  (forall s, (forall id q, otherPlayers s !! id = Some q -> atTarget q) ->
             render s = s).
Proof.
  intros Hat. split.
  - induction n as [| n IH]; [reflexivity |].
    rewrite Nat.iter_succ, IH. apply interpolate_fixed, Hat.
  - intros s Hall. unfold render. destruct (negb _); [reflexivity |].
    unfold updatePlayerInterpolation.
    assert (Hmap : interpolate <$> otherPlayers s = otherPlayers s).
    { apply map_eq. intros id. rewrite lookup_fmap.
      destruct (otherPlayers s !! id) as [q |] eqn:Eq; [| reflexivity].
      cbn. f_equal. apply interpolate_fixed, (Hall id q Eq). }
    rewrite Hmap. destruct s; reflexivity.
Qed.

Lemma offset_nonneg p : (0 <= offset p)%Q.
Proof.
  unfold offset. destruct (Player.targetX p), (Player.targetY p); try discriminate.
  pose proof (Qabs_nonneg (q - Player.x p)). pose proof (Qabs_nonneg (q0 - Player.y p)).
  lra.
Qed.

(** One tick shrinks the offset by a tenth at least. *)
Lemma offset_interpolate p :
  (offset (interpolate p) <= (9 # 10) * offset p)%Q.
Proof.
  destruct (Player.targetX p) as [tx |] eqn:Ex, (Player.targetY p) as [ty |] eqn:Ey.
  2, 3, 4: unfold interpolate, offset; rewrite ?Ex, ?Ey; cbv beta iota;
    rewrite ?Ex, ?Ey; lra.
  destruct (interpolate_targets p) as [Htx Hty].
  pose proof (Qabs_nonneg (tx - Player.x p)) as Nx.
  pose proof (Qabs_nonneg (ty - Player.y p)) as Ny.
  unfold offset at 1. rewrite Htx, Hty, Ex, Ey.
  unfold offset. rewrite Ex, Ey.
  destruct (Qlt_le_dec (1 # 2) (Qabs (tx - Player.x p))) as [Hfx | Hnx].
  - destruct (interpolate_far p tx ty Ex Ey (or_introl Hfx)) as [-> ->].
    rewrite !axis_abs. lra.
  - destruct (Qlt_le_dec (1 # 2) (Qabs (ty - Player.y p))) as [Hfy | Hny].
    + destruct (interpolate_far p tx ty Ex Ey (or_intror Hfy)) as [-> ->].
      rewrite !axis_abs. lra.
    + destruct (interpolate_near p tx ty Ex Ey Hnx Hny) as [-> ->].
      pose proof (Qabs_self_diff tx). pose proof (Qabs_self_diff ty).
      assert (Hzx : (Qabs (tx - tx) == 0)%Q).
      { assert (Hz : (tx - tx == 0)%Q) by ring. rewrite Hz. reflexivity. }
      assert (Hzy : (Qabs (ty - ty) == 0)%Q).
      { assert (Hz : (ty - ty == 0)%Q) by ring. rewrite Hz. reflexivity. }
      lra.
Qed.

Lemma iter_interpolate_targets n p :
  Player.targetX (Nat.iter n interpolate p) = Player.targetX p /\
  Player.targetY (Nat.iter n interpolate p) = Player.targetY p.
Proof.
  induction n as [| n [IHx IHy]]; [split; reflexivity |].
  rewrite Nat.iter_succ.
  destruct (interpolate_targets (Nat.iter n interpolate p)) as [-> ->]. auto.
Qed.

(** After [n] ticks the offset is at most [9 / (9 + n)] of the first one. *)
Lemma offset_after n p :
  (offset (Nat.iter n interpolate p) * (9 + inject_Z (Z.of_nat n)) <= 9 * offset p)%Q.
Proof.
  induction n as [| n IH].
  - change (Nat.iter 0 interpolate p) with p. change (inject_Z (Z.of_nat 0)) with 0%Q.
    pose proof (offset_nonneg p). lra.
  - rewrite Nat.iter_succ.
    pose proof (offset_interpolate (Nat.iter n interpolate p)) as Hstep.
    pose proof (offset_nonneg (Nat.iter n interpolate p)) as Hn.
    pose proof (offset_nonneg (interpolate (Nat.iter n interpolate p))) as Hn'.
    rewrite Nat2Z.inj_succ. unfold Z.succ. rewrite inject_Z_plus.
    assert (Hk : (0 <= inject_Z (Z.of_nat n))%Q).
    { change 0%Q with (inject_Z 0). rewrite <- Zle_Qle. lia. }
    set (k := inject_Z (Z.of_nat n)) in *.
    set (a := offset (Nat.iter n interpolate p)) in *.
    set (b := offset (interpolate (Nat.iter n interpolate p))) in *.
    change (inject_Z 1) with 1%Q.
    assert (Hb : (b * (9 + (k + 1)) <= (9 # 10) * a * (9 + (k + 1)))%Q) by nra.
    assert (Ha : ((9 # 10) * a * (9 + (k + 1)) <= a * (9 + k))%Q) by nra.
    lra.
Qed.

Lemma near_of_offset p tx ty :
  Player.targetX p = Some tx -> Player.targetY p = Some ty ->
  (offset p <= 1 # 2)%Q ->
  (Qabs (tx - Player.x p) <= 1 # 2)%Q /\ (Qabs (ty - Player.y p) <= 1 # 2)%Q.
Proof.
  intros Hx Hy. unfold offset. rewrite Hx, Hy. intros Ho.
  pose proof (Qabs_nonneg (tx - Player.x p)). pose proof (Qabs_nonneg (ty - Player.y p)).
  split; lra.
Qed.

(** X7. Interpolation ends: a remote player whose target stays put
    reaches it exactly after finitely many ticks (one more than eighteen
    times its offset, rounded up, is enough) and then rests there. *)
Theorem interpolation_reaches_target (p : Player.t) (tx ty : Q) :
  Player.targetX p = Some tx -> Player.targetY p = Some ty ->
  let n := S (Z.to_nat (Qceiling (18 * offset p))) in
  forall m, (n <= m)%nat ->
    Player.x (Nat.iter m interpolate p) = tx /\
    Player.y (Nat.iter m interpolate p) = ty /\
    atTarget (Nat.iter m interpolate p).
Proof.
  intros Hx Hy n.
  set (k := Z.to_nat (Qceiling (18 * offset p))).
  assert (Hfirst : atTarget (Nat.iter n interpolate p) /\
                   Player.x (Nat.iter n interpolate p) = tx /\
                   Player.y (Nat.iter n interpolate p) = ty).
  { subst n. fold k. rewrite Nat.iter_succ.
    destruct (iter_interpolate_targets k p) as [Htx Hty]. rewrite Hx in Htx. rewrite Hy in Hty.
    assert (Hsmall : (offset (Nat.iter k interpolate p) <= 1 # 2)%Q).
    { pose proof (offset_after k p) as Hafter.
      pose proof (offset_nonneg p) as Hp.
      pose proof (offset_nonneg (Nat.iter k interpolate p)) as Hk.
      pose proof (Qle_ceiling (18 * offset p)) as Hceil.
      assert (Hkz : (inject_Z (Qceiling (18 * offset p)) <= inject_Z (Z.of_nat k))%Q).
      { rewrite <- Zle_Qle. subst k. lia. }
      set (a := offset (Nat.iter k interpolate p)) in *.
      set (j := inject_Z (Z.of_nat k)) in *.
      nra. }
    destruct (near_of_offset _ tx ty Htx Hty Hsmall) as [Hnx Hny].
    destruct (interpolate_near _ tx ty Htx Hty Hnx Hny) as [Ex Ey].
    destruct (interpolate_targets (Nat.iter k interpolate p)) as [Htx' Hty'].
    unfold atTarget. rewrite Htx', Hty', Htx, Hty, Ex, Ey. auto. }
  intros m Hm. replace m with ((m - n) + n)%nat by lia.
  induction (m - n)%nat as [| d IH]; cbn [Nat.add].
  - tauto.
  - rewrite Nat.iter_succ. destruct IH as (Ex & Ey & Hat).
    rewrite (interpolate_fixed _ Hat). auto.
Qed.

(** X8. A presentation frame moves remote players only: the local player,
    the camera, the world, the input state and the gate are untouched, the
    same players remain, and of each only the displayed position may
    change. *)
Theorem render_moves_remote_only (s : State) :
  set_otherPlayers (otherPlayers s) (render s) = s /\
  dom (otherPlayers (render s)) = dom (otherPlayers s) /\
  forall id p', otherPlayers (render s) !! id = Some p' ->
    exists p, otherPlayers s !! id = Some p /\
      p' = Player.mk (Player.id p) (Player.x p') (Player.y p') (Player.facing p)
             (Player.animationFrame p) (Player.username p) (Player.avatarName p)
             (Player.targetX p) (Player.targetY p) (Player.lastUpdate p).
Proof.
  unfold render. destruct (negb (World.ready (world s))).
  - split; [destruct s; reflexivity |]. split; [reflexivity |].
    intros id p' Hp'. exists p'. split; [exact Hp' |]. destruct p'; reflexivity.
  - split; [destruct s; reflexivity |]. split.
    + unfold updatePlayerInterpolation. cbn. apply dom_fmap_L.
    + intros id p'. rewrite interpolation_lookup.
      destruct (otherPlayers s !! id) as [p |]; cbn; [| discriminate].
      intros [= <-]. exists p. split; [reflexivity |].
      unfold interpolate.
      destruct (Player.targetX p) eqn:Ex, (Player.targetY p) eqn:Ey;
        try (destruct p; cbn in *; subst; reflexivity).
      destruct (Qgtb _ _ || Qgtb _ _); cbn; rewrite ?Ex, ?Ey; reflexivity.
Qed.

Section FurtherClientProperties.
Context `{Host}.

(** ** Movement loop and click (lines 410-476) *)

Lemma tick_run now s :
  handler now Tick s = if movementLoopId s then movementLoop now s else (Some tt, s, []).
Proof.
  cbn [handler]. rewrite (bind_silent getState _ s s s eq_refl).
  destruct (movementLoopId s); reflexivity.
Qed.

(** X9. A tick of the movement loop sends nothing unless the loop is
    armed, the socket is open and the gate is set: in particular no [stop]
    goes out before the join succeeded or after the socket closed. *)
Theorem tick_silent_unless_ready (s : State) (now : Z) :
  emitted s now Tick <> [] ->
  movementLoopId s = true /\ ws_open s = true /\ canSendMoveCommands s = true.
Proof.
  unfold emitted, effects. rewrite tick_run.
  destruct (movementLoopId s); [| intros Hne; contradiction Hne; reflexivity].
  rewrite movementLoop_run.
  destruct (ws_open s); cbn [negb]; [| intros Hne; contradiction Hne; reflexivity].
  destruct (canSendMoveCommands s); [auto |].
  rewrite !andb_false_r. cbn. intros Hne. contradiction Hne. reflexivity.
Qed.

Lemma set_movementLoopId_same s b : movementLoopId s = b -> set_movementLoopId b s = s.
Proof. intros <-. destruct s; reflexivity. Qed.

(** X10. While a key is held (loop armed, socket open, gate set), a tick
    inside the throttle window sends nothing at all, not even [stop], and
    a tick after it sends one move per pressed key, in the order of
    [Object.entries] (up, down, left, right for the declared keys, which
    are all the keys unless a key event added one), and restarts the
    window. *)
Theorem tick_with_keys_held (s : State) (now : Z) :
  movementLoopId s = true -> ws_open s = true -> canSendMoveCommands s = true ->
  existsb snd (keyEntries (keysPressed s)) = true ->
  (if MOVE_THROTTLE_MS <=? now - lastMoveTime s then
     emitted s now Tick =
       map (fun d => Send true (MoveDir d)) (activeDirections (keysPressed s)) /\
     step s now Tick = set_lastMoveTime now s
   else
     emitted s now Tick = [] /\ step s now Tick = s) /\
  (Keys.others (keysPressed s) = [] ->
     activeDirections (keysPressed s)
     = List.filter (pressed (keysPressed s)) [Up; Down; Left; Right]).
Proof.
  intros Harmed Hopen Hgate Hkeys. split.
  - unfold emitted, step, effects, finalState.
    rewrite tick_run, Harmed, movementLoop_run, scanKeys_entries.
    rewrite Hopen, Hgate, Hkeys. cbn [negb andb fst snd].
    destruct (MOVE_THROTTLE_MS <=? now - lastMoveTime s); cbn [fst snd].
    + split; [reflexivity |].
      rewrite <- (set_movementLoopId_same (set_lastMoveTime now s) true) at 2
        by exact Harmed.
      reflexivity.
    + split; [reflexivity |]. apply set_movementLoopId_same, Harmed.
  - apply activeDirections_declared.
Qed.

Lemma idle_tick s now :
  idle s -> emitted s now Tick = [Send true Stop] /\ step s now Tick = s.
Proof.
  intros (Harmed & Hopen & Hgate & Hkeys).
  unfold emitted, step, effects, finalState.
  rewrite tick_run, Harmed, movementLoop_run, scanKeys_entries.
  rewrite Hopen, Hgate, Hkeys. cbn.
  split; [reflexivity |]. apply set_movementLoopId_same, Harmed.
Qed.

(** X11. [stop] is not edge-triggered: while no key is pressed every tick
    of the loop sends one [stop], however many ticks follow one another,
    and the state does not change. *)
Theorem idle_ticks_resend_stop (s : State) (times : list Z) :
  idle s ->
  run s ((fun now => (now, Tick)) <$> times)
  = (s, (fun now => (now, [Send true Stop])) <$> times).
Proof.
  intros Hidle. induction times as [| now rest IH]; [reflexivity |].
  cbn. destruct (idle_tick s now Hidle) as [Hout Hstep].
  rewrite Hstep, Hout, IH. reflexivity.
Qed.

Lemma Math_round_near (q : Q) :
  exists z : Z, Math_round q = inject_Z z /\ (q - (1 # 2) < inject_Z z <= q + (1 # 2))%Q.
Proof.
  unfold Math_round. exists (Qfloor (q + (1 # 2))). split; [reflexivity |].
  pose proof (Qfloor_le (q + (1 # 2))) as Hle.
  pose proof (Qlt_floor (q + (1 # 2))) as Hlt.
  rewrite inject_Z_plus in Hlt. change (inject_Z 1) with 1%Q in Hlt.
  split; lra.
Qed.

(** X12. A click never changes the state.  With the gate set and the
    socket open it sends exactly one move-to-point, whose coordinates are
    integers within half a pixel of the clicked canvas point shifted by the
    camera; otherwise it sends nothing. *)
Theorem click_sends_world_point (s : State) (now : Z) (clientX clientY rectLeft rectTop : Q) :
  step s now (Click clientX clientY rectLeft rectTop) = s /\
  outcome (handler now (Click clientX clientY rectLeft rectTop)) s = Some tt /\
  if canSendMoveCommands s && ws_open s then
    exists zx zy : Z,
      emitted s now (Click clientX clientY rectLeft rectTop)
        = [Send true (MoveTo (inject_Z zx) (inject_Z zy))] /\
      let worldX := (clientX - rectLeft + Viewport.cameraX (viewport s))%Q in
      let worldY := (clientY - rectTop + Viewport.cameraY (viewport s))%Q in
      (worldX - (1 # 2) < inject_Z zx <= worldX + (1 # 2))%Q /\
      (worldY - (1 # 2) < inject_Z zy <= worldY + (1 # 2))%Q
  else emitted s now (Click clientX clientY rectLeft rectTop) = [].
Proof.
  unfold step, emitted, finalState, effects, outcome. cbn [handler]. unfold onClick.
  rewrite (bind_silent getState _ s s s eq_refl).
  destruct (canSendMoveCommands s) eqn:Egate; cbn [negb orb andb]; [| auto].
  destruct (ws_open s); cbn [negb]; [| auto].
  split; [reflexivity |]. split; [reflexivity |].
  destruct (Math_round_near (clientX - rectLeft + Viewport.cameraX (viewport s)))
    as (zx & Ezx & Hzx).
  destruct (Math_round_near (clientY - rectTop + Viewport.cameraY (viewport s)))
    as (zy & Ezy & Hzy).
  exists zx, zy. unfold send. cbn. rewrite Egate, Ezx, Ezy. auto.
Qed.

(** ** Protocol messages (lines 623-762) *)

(** X13. A message that is not one of the five known ones is dropped: an
    unparseable payload logs a warning, a parsed one without a known
    [action] (also [null], on which reading [action] throws) produces no
    effect; in every case the state is unchanged. *)
Theorem unknown_message_dropped (s : State) (now : Z) (parsed : option jsval) :
  (forall data, parsed = Some data ->
     forall known, known ∈ ["join_game"; "players_moved"; "player_joined";
                            "player_left"; "chat"] ->
                   is_str (prop data "action") known = false) ->
  step s now (SocketMessage parsed) = s /\
  emitted s now (SocketMessage parsed)
    = match parsed with None => [Console "warn"] | Some _ => [] end.
Proof.
  intros Hunknown. unfold step, emitted, finalState, effects.
  destruct parsed as [data |]; [| split; reflexivity].
  pose proof (Hunknown data eq_refl) as Hnot.
  destruct (nullish data) eqn:E.
  - rewrite (onMessage_null _ _ _ E). split; reflexivity.
  - rewrite (onMessage_run _ _ _ E).
    rewrite !Hnot by (repeat (apply elem_of_cons; first [left; reflexivity | right]);
                       apply elem_of_nil_inv).
    split; reflexivity.
Qed.

Lemma set_otherPlayers_same s : set_otherPlayers (otherPlayers s) s = s.
Proof. destruct s; reflexivity. Qed.

Lemma playerLeft_run data s :
  nullish data = false ->
  playerLeft data s =
    if ToBoolean (prop data "playerId") then
      match ToString (prop data "playerId") with
      | None => (None, s, [])
      | Some key =>
          if present (byId s key)
          then (Some tt, set_otherPlayers (delete key (otherPlayers s)) s,
                [Console "log"; UpdateUI])
          else (Some tt, s, [])
      end
    else (Some tt, s, []).
Proof.
  intros Hnn. unfold playerLeft.
  rewrite (bind_silent _ _ s _ s (getProp_plain _ "playerId" _ Hnn eq_refl)).
  destruct (ToBoolean (prop data "playerId")); [| reflexivity]. cbn [when].
  destruct (ToString (prop data "playerId")) as [key |] eqn:Ekey.
  - rewrite (bind_silent _ _ s _ s (toKey_run _ _ _ Ekey)). stepM.
    destruct (present (byId s key)); reflexivity.
  - apply bind_thrown, toKey_thrown, Ekey.
Qed.

Lemma onMessage_player_left data now s :
  prop data "action" = VStr "player_left" ->
  handler now (SocketMessage (Some data)) s = playerLeft data s.
Proof.
  intros Hact. rewrite (onMessage_run _ _ _ (action_not_nullish _ _ Hact)).
  rewrite Hact. reflexivity.
Qed.

(** X14. [player_left] with a falsy [playerId], or for an identifier under
    which the remote-player map yields nothing truthy (neither an own
    entry, nor the record in the place of its prototype, nor a member of
    [Object.prototype]), is a no-op: no error, no effect, state unchanged.
    A [playerId] whose conversion to a property key throws ends the handler
    with the state unchanged.  An identifier that has no own entry but
    under which the map yields something inherited (such as
    [constructor]) removes nothing, yet the handler logs and notifies the
    UI. *)
Theorem player_left_unknown_noop (s : State) (now : Z) (data : jsval) :
  prop data "action" = VStr "player_left" ->
  let playerId := prop data "playerId" in
  let message := SocketMessage (Some data) in
  (ToBoolean playerId = false \/
   (exists key, ToString playerId = Some key /\ present (byId s key) = false) ->
   step s now message = s /\ emitted s now message = [] /\
   outcome (handler now message) s = Some tt) /\
  (ToBoolean playerId = true -> ToString playerId = None ->
   step s now message = s /\ emitted s now message = [] /\
   outcome (handler now message) s = None) /\
  (forall key,
     ToBoolean playerId = true -> ToString playerId = Some key ->
     otherPlayers s !! key = None -> present (byId s key) = true ->
     step s now message = s /\
     emitted s now message = [Console "log"; UpdateUI] /\
     outcome (handler now message) s = Some tt).
Proof.
  intros Hact playerId message. subst playerId message.
  unfold step, emitted, finalState, effects, outcome.
  rewrite (onMessage_player_left _ _ _ Hact).
  rewrite (playerLeft_run _ _ (action_not_nullish _ _ Hact)).
  split; [| split].
  - intros [Hfalsy | (key & Hkey & Habsent)].
    + rewrite Hfalsy. auto.
    + rewrite Hkey, Habsent. destruct (ToBoolean _); auto.
  - intros Htruthy Hkey. rewrite Htruthy, Hkey. auto.
  - intros key Htruthy Hkey Hown Hfound. rewrite Htruthy, Hkey, Hfound. cbn [fst snd].
    rewrite delete_id by exact Hown. rewrite set_otherPlayers_same. auto.
Qed.

(** X15. [player_left] for a known identifier removes exactly that player:
    every other entry stays, the player count displayed drops by one, and
    the UI is notified. *)
Theorem player_left_removes (s : State) (now : Z) (data : jsval) (key : string)
    (p : Player.t) :
  prop data "action" = VStr "player_left" ->
  ToBoolean (prop data "playerId") = true ->
  ToString (prop data "playerId") = Some key ->
  otherPlayers s !! key = Some p ->
  let s' := step s now (SocketMessage (Some data)) in
  otherPlayers s' = delete key (otherPlayers s) /\
  set_otherPlayers (otherPlayers s) s' = s /\
  S (totalPlayers s') = totalPlayers s /\
  emitted s now (SocketMessage (Some data)) = [Console "log"; UpdateUI].
Proof.
  intros Hact Htruthy Hkey Hknown s'. subst s'.
  unfold step, emitted, finalState, effects, totalPlayers.
  rewrite (onMessage_player_left _ _ _ Hact).
  rewrite (playerLeft_run _ _ (action_not_nullish _ _ Hact)).
  unfold byId. rewrite Htruthy, Hkey, Hknown. cbn.
  split; [reflexivity |]. split; [destruct s; reflexivity |]. split; [| reflexivity].
  rewrite map_size_delete, Hknown.
  assert (Hpos : size (otherPlayers s) <> 0%nat).
  { intros Hz. apply map_size_empty_inv in Hz. rewrite Hz, lookup_empty in Hknown. discriminate. }
  lia.
Qed.

Lemma onMessage_player_joined data now s :
  prop data "action" = VStr "player_joined" ->
  handler now (SocketMessage (Some data)) s = playerJoined data now s.
Proof.
  intros Hact. rewrite (onMessage_run _ _ _ (action_not_nullish _ _ Hact)).
  rewrite Hact. reflexivity.
Qed.

Lemma playerJoined_ignored data now s :
  nullish data = false ->
  ToBoolean (prop data "player") && ToBoolean (prop data "avatar") = false ->
  playerJoined data now s = (Some tt, s, []).
Proof.
  intros Hnn Hmissing. unfold playerJoined.
  rewrite (bind_silent _ _ s _ s (getProp_plain _ "player" _ Hnn eq_refl)).
  rewrite (bind_silent _ _ s _ s (getProp_plain _ "avatar" _ Hnn eq_refl)).
  rewrite Hmissing. reflexivity.
Qed.

Lemma playerJoined_run data now s :
  nullish data = false ->
  ToBoolean (prop data "player") && ToBoolean (prop data "avatar") = true ->
  playerJoined data now s =
    match or0 (prop (prop data "player") "x"), or0 (prop (prop data "player") "y"),
          or0 (field s (prop data "player") "animationFrame"),
          ToString (prop (prop data "player") "id") with
    | Some x, Some y, Some a, Some key =>
        (Some tt,
         store key (playerOf s (prop (prop data "player") "id") (prop data "player")
                      x y a now) s,
         [CacheAvatarFrames (prop data "avatar"); Console "log"; UpdateUI])
    | _, _, _, _ => (None, s, [])
    end.
Proof.
  intros Hnn Hboth. unfold playerJoined.
  rewrite (bind_silent _ _ s _ s (getProp_plain _ "player" _ Hnn eq_refl)).
  rewrite (bind_silent _ _ s _ s (getProp_plain _ "avatar" _ Hnn eq_refl)).
  rewrite Hboth. cbn [when].
  apply andb_true_iff in Hboth as [Hplayer _].
  pose proof (truthy_not_nullish _ Hplayer) as Hp.
  set (player := prop data "player") in *.
  rewrite (bind_silent _ _ s _ s (getProp_plain _ "id" _ Hp eq_refl)).
  rewrite (bind_silent _ _ s _ s (getProp_plain _ "x" _ Hp eq_refl)).
  destruct (or0 (prop player "x")) as [x |] eqn:Hx;
    [| apply bind_thrown, toInt32_thrown, Hx].
  rewrite (bind_silent _ _ s _ s (toInt32_run _ _ _ Hx)).
  rewrite (bind_silent _ _ s _ s (getProp_plain _ "y" _ Hp eq_refl)).
  destruct (or0 (prop player "y")) as [y |] eqn:Hy;
    [| apply bind_thrown, toInt32_thrown, Hy].
  rewrite (bind_silent _ _ s _ s (toInt32_run _ _ _ Hy)).
  rewrite (bind_silent _ _ s _ s (getProp_run player "facing" s Hp)).
  rewrite (bind_silent _ _ s _ s (getProp_run player "animationFrame" s Hp)).
  destruct (or0 (field s player "animationFrame")) as [a |] eqn:Ha;
    [| apply bind_thrown, toInt32_thrown, Ha].
  rewrite (bind_silent _ _ s _ s (toInt32_run _ _ _ Ha)).
  rewrite (bind_silent _ _ s _ s (getProp_plain _ "username" _ Hp eq_refl)).
  rewrite (bind_silent _ _ s _ s (getProp_plain _ "avatar" _ Hp eq_refl)).
  destruct (ToString (prop player "id")) as [key |] eqn:Hkey;
    [| apply bind_thrown, toKey_thrown, Hkey].
  rewrite (bind_silent _ _ s _ s (toKey_run _ _ _ Hkey)).
  stepM. reflexivity.
Qed.

Lemma newPlayer_atTarget id x y f a u av now : atTarget (newPlayer id x y f a u av now).
Proof. split; reflexivity. Qed.

(** X16. [player_joined] with a player record and an avatar descriptor,
    when the conversions of the record's coordinates, animation frame and
    identifier complete, builds the player displayed at its target
    [(x | 0, y | 0)] (so the next frame leaves it in place) and asks for
    the avatar's frames.  Under an identifier other than [__proto__] the
    player becomes an own entry of the remote-player map, no other entry
    changes and a fresh identifier raises the player count by one; under
    [__proto__] it takes the place of the map's prototype, and entries and
    count stay as they were.  A conversion that throws ends the handler
    with the state unchanged, and without a player record or without an
    avatar descriptor the message is ignored. *)
Theorem player_joined_creates (s : State) (now : Z) (data : jsval) :
  prop data "action" = VStr "player_joined" ->
  let player := prop data "player" in
  let message := SocketMessage (Some data) in
  let s' := step s now message in
  (ToBoolean player && ToBoolean (prop data "avatar") = false ->
     s' = s /\ emitted s now message = [] /\ outcome (handler now message) s = Some tt) /\
  (forall key x y a,
     ToBoolean player && ToBoolean (prop data "avatar") = true ->
     converts s player x y a -> ToString (prop player "id") = Some key ->
     let p' := playerOf s (prop player "id") player x y a now in
     atTarget p' /\ interpolate p' = p' /\
     Player.x p' = x /\ Player.y p' = y /\
     int32Coerced (prop player "x") x /\ int32Coerced (prop player "y") y /\
     emitted s now message
       = [CacheAvatarFrames (prop data "avatar"); Console "log"; UpdateUI] /\
     outcome (handler now message) s = Some tt /\
     if String.eqb key "__proto__" then
       byIdPrototype s' = Some p' /\ set_byIdPrototype (byIdPrototype s) s' = s /\
       totalPlayers s' = totalPlayers s
     else
       otherPlayers s' !! key = Some p' /\
       (forall id, id <> key -> otherPlayers s' !! id = otherPlayers s !! id) /\
       (otherPlayers s !! key = None -> totalPlayers s' = S (totalPlayers s)) /\
       set_otherPlayers (otherPlayers s) s' = s) /\
  (ToBoolean player && ToBoolean (prop data "avatar") = true ->
   (forall x y a, ~ converts s player x y a) \/ ToString (prop player "id") = None ->
   s' = s /\ emitted s now message = [] /\ outcome (handler now message) s = None).
Proof.
  intros Hact player message s'. subst s' message.
  pose proof (action_not_nullish _ _ Hact) as Hnn.
  unfold step, emitted, finalState, effects, outcome.
  rewrite (onMessage_player_joined _ _ _ Hact).
  split; [| split].
  - intros Hmissing. rewrite (playerJoined_ignored _ _ _ Hnn Hmissing). auto.
  - intros key x y a Hboth (Hx & Hy & Ha) Hkey.
    rewrite (field_plain s player "x") in Hx by reflexivity.
    rewrite (field_plain s player "y") in Hy by reflexivity.
    rewrite (playerJoined_run _ _ _ Hnn Hboth). fold player.
    rewrite Hx, Hy, Ha, Hkey. cbn [fst snd].
    split; [apply newPlayer_atTarget |].
    split; [apply interpolate_fixed, newPlayer_atTarget |].
    split; [reflexivity |]. split; [reflexivity |].
    split; [apply or0_coerced, Hx |]. split; [apply or0_coerced, Hy |].
    split; [reflexivity |]. split; [reflexivity |].
    unfold store. destruct (String.eqb key "__proto__").
    + split; [reflexivity |]. split; [destruct s; reflexivity | reflexivity].
    + split; [apply lookup_insert_eq |].
      split; [intros id Hne; apply lookup_insert_ne; congruence |].
      split; [| destruct s; reflexivity].
      intros Hfresh. unfold totalPlayers. cbn.
      rewrite map_size_insert_None by exact Hfresh. lia.
  - intros Hboth Hthrows.
    rewrite (playerJoined_run _ _ _ Hnn Hboth). fold player.
    destruct (or0 (prop player "x")) as [x |] eqn:Hx; [| auto].
    destruct (or0 (prop player "y")) as [y |] eqn:Hy; [| auto].
    destruct (or0 (field s player "animationFrame")) as [a |] eqn:Ha; [| auto].
    destruct Hthrows as [Hnone | Hkey]; [| rewrite Hkey; auto].
    exfalso. apply (Hnone x y a). unfold converts.
    rewrite !field_plain by reflexivity. auto.
Qed.

(** *** [join_game] (lines 632-676) *)

(** A read of a protocol property sees of the state only what was left on
    [Object.prototype] and its functions. *)
Lemma field_same s1 s2 v k :
  objectPrototype s1 = objectPrototype s2 -> members s1 = members s2 ->
  field s1 v k = field s2 v k.
Proof.
  intros Ho Hm. destruct v as [j | [| name | name]]; cbn; rewrite ?Ho, ?Hm; reflexivity.
Qed.

Lemma lookup_same s1 s2 base k :
  objectPrototype s1 = objectPrototype s2 ->
  lookup s1 base k = lookup s2 base k.
Proof. intros Ho. unfold lookup, inherited. rewrite Ho. reflexivity. Qed.

Lemma seedMe_result (meFromServer : val) s :
  nullishV meFromServer = false ->
  seedMe meFromServer s =
    match or0 (field s meFromServer "x") with
    | None => (None, s, [])
    | Some x =>
        match or0 (field s meFromServer "y") with
        | None => (None, set_me (Me.set_x x (me s)) s, [])
        | Some y =>
            let facing := js_or (field s meFromServer "facing") (VStr "south") in
            match or0 (field s meFromServer "animationFrame") with
            | None =>
                (None, set_me (Me.set_facing facing (Me.set_y y (Me.set_x x (me s)))) s, [])
            | Some a =>
                (Some tt,
                 set_me (Me.mk (Me.id (me s)) (Me.username (me s)) x y facing a
                           (field s meFromServer "avatar") (Me.ready (me s)) true) s,
                 [])
            end
        end
    end.
Proof.
  intros Hnn. unfold seedMe. readM Hnn.
  destruct (or0 (field s meFromServer "x")) as [x |] eqn:Hx;
    [| apply bind_thrown, toInt32_thrown, Hx].
  erewrite (bind_silent (toInt32 _)) by (apply toInt32_run, Hx).
  stepM. readM Hnn. rewrite field_set_me.
  destruct (or0 (field s meFromServer "y")) as [y |] eqn:Hy;
    [| apply bind_thrown, toInt32_thrown, Hy].
  erewrite (bind_silent (toInt32 _)) by (apply toInt32_run, Hy).
  stepM. readM Hnn. stepM. readM Hnn. rewrite !field_set_me.
  destruct (or0 (field s meFromServer "animationFrame")) as [a |] eqn:Ha;
    [| apply bind_thrown, toInt32_thrown, Ha].
  erewrite (bind_silent (toInt32 _)) by (apply toInt32_run, Ha).
  stepM. readM Hnn. stepM. rewrite !field_set_me. reflexivity.
Qed.

Lemma suspendJoin_run data s :
  nullish data = false ->
  suspendJoin data s =
    (Some tt, set_pendingJoins (S (pendingJoins s)) s,
     [AwaitAvatarFrames (js_or (prop data "avatars") (VObj [])) (Me.avatarName (me s))]).
Proof.
  intros Hnn. unfold suspendJoin.
  rewrite (bind_silent _ _ s _ s (getProp_plain _ "avatars" _ Hnn eq_refl)).
  stepM. reflexivity.
Qed.

(** The synchronous part of a [join_game] that is not rejected: the
    identifier is recorded, the server's entry for it looked up, the local
    player seeded from it, then the loop over the players runs, then the
    handler suspends. *)
Lemma joinGame_run data now s :
  nullish data = false ->
  is_false (prop data "success") = false ->
  joinGame data now s =
    let s1 := set_me (Me.set_id (prop data "playerId") (me s)) s in
    match ownEntry s data with
    | None => (None, s1, [])
    | Some own =>
        bind (when (truthy own) (seedMe own))
          (fun _ =>
             bind (when (ToBoolean (prop data "players"))
                     (forEach (entries (prop data "players")) (joinOther now)))
               (fun _ => suspendJoin data)) s1
    end.
Proof.
  intros Hnn Hsucc. unfold joinGame.
  rewrite (bind_silent _ _ s _ s (getProp_plain _ "success" _ Hnn eq_refl)). rewrite Hsucc.
  rewrite (bind_silent _ _ s _ s (getProp_plain _ "playerId" _ Hnn eq_refl)).
  stepM. cbv zeta.
  set (s1 := set_me _ s).
  rewrite (bind_silent _ _ s1 _ s1 (getProp_plain _ "players" _ Hnn eq_refl)).
  unfold ownEntry. destruct (nullish (prop data "players")) eqn:Ep.
  - stepM. reflexivity.
  - destruct (ToString (prop data "playerId")) as [key |] eqn:Hkey; cbn [fmap option_fmap option_map].
    + rewrite (bind_silent _ _ s1 _ s1 (lookupIn_run _ _ _ _ Hkey)).
      rewrite (lookup_same s1 s) by reflexivity. reflexivity.
    + apply bind_thrown, lookupIn_thrown, Hkey.
Qed.

Lemma onMessage_join data now s :
  prop data "action" = VStr "join_game" ->
  handler now (SocketMessage (Some data)) s = joinGame data now s.
Proof.
  intros Hact. rewrite (onMessage_run _ _ _ (action_not_nullish _ _ Hact)).
  rewrite (action_is _ _ Hact). reflexivity.
Qed.

Lemma recordAt_store key record s key' :
  recordAt (store key record s) key'
  = if String.eqb key key' then Some record else recordAt s key'.
Proof.
  unfold recordAt, store.
  destruct (String.eqb_spec key "__proto__") as [-> | Hk].
  - rewrite (String.eqb_sym "__proto__" key').
    destruct (String.eqb key' "__proto__"); reflexivity.
  - destruct (String.eqb_spec key' "__proto__") as [-> | Hk'].
    + rewrite (proj2 (String.eqb_neq _ _) Hk). reflexivity.
    + destruct (String.eqb_spec key key') as [-> | Hne].
      * apply lookup_insert_eq.
      * apply lookup_insert_ne, Hne.
Qed.

Lemma joinOther_run now k (u : jsval) s :
  joinOther now (k, u) s =
    if is_str (Me.id (me s)) k then (Some tt, s, [])
    else if nullish u then (None, s, [])
    else
      match or0 (prop u "x"), or0 (prop u "y"), or0 (field s u "animationFrame") with
      | Some x, Some y, Some a =>
          (Some tt, store k (playerOf s (VStr k) u x y a now) s, [])
      | _, _, _ => (None, s, [])
      end.
Proof.
  unfold joinOther. stepM. cbn [fst snd].
  destruct (is_str (Me.id (me s)) k); [reflexivity |]. cbn [negb].
  destruct (nullish u) eqn:Hu.
  { apply bind_thrown. unfold getProp. cbn. rewrite Hu. reflexivity. }
  rewrite (bind_silent _ _ s _ s (getProp_plain _ "x" _ Hu eq_refl)).
  destruct (or0 (prop u "x")) as [x |] eqn:Hx;
    [| apply bind_thrown, toInt32_thrown, Hx].
  rewrite (bind_silent _ _ s _ s (toInt32_run _ _ _ Hx)).
  rewrite (bind_silent _ _ s _ s (getProp_plain _ "y" _ Hu eq_refl)).
  destruct (or0 (prop u "y")) as [y |] eqn:Hy;
    [| apply bind_thrown, toInt32_thrown, Hy].
  rewrite (bind_silent _ _ s _ s (toInt32_run _ _ _ Hy)).
  rewrite (bind_silent _ _ s _ s (getProp_run u "facing" s Hu)).
  rewrite (bind_silent _ _ s _ s (getProp_run u "animationFrame" s Hu)).
  destruct (or0 (field s u "animationFrame")) as [a |] eqn:Ha;
    [| apply bind_thrown, toInt32_thrown, Ha].
  rewrite (bind_silent _ _ s _ s (toInt32_run _ _ _ Ha)).
  rewrite (bind_silent _ _ s _ s (getProp_plain _ "username" _ Hu eq_refl)).
  rewrite (bind_silent _ _ s _ s (getProp_plain _ "avatar" _ Hu eq_refl)).
  reflexivity.
Qed.

Lemma joinOther_frame now entry s0 :
  keeps (fun s => joinLoopFrame s0 s) (joinOther now entry).
Proof.
  unfold joinOther. walk. apply keeps_modify. intros sa Hsa.
  unfold joinLoopFrame in *. reshape. exact Hsa.
Qed.

Lemma joinOthers_frame now (items : list (string * jsval)) s :
  joinLoopFrame s (finalState (forEach items (joinOther now)) s).
Proof.
  apply (follows_forEach (keepsR (fun s' => joinLoopFrame s s')) items (joinOther now)
           (fun entry => joinOther_frame now entry s) s).
  repeat split.
Qed.

Lemma joinOthers_silent now (items : list (string * jsval)) s :
  effects (forEach items (joinOther now)) s = [].
Proof.
  assert (Hnone : emitsOnly (fun _ => False) (forEach items (joinOther now))).
  { unfold joinOther. walk. }
  specialize (Hnone s). unfold emitsR in Hnone.
  destruct (effects _ s); [reflexivity |]. inversion Hnone. contradiction.
Qed.

(** The loop of [join_game] leaves alone an identifier it does not list or
    that is the local one. *)
Lemma joinOthers_untouched now id (items : list (string * jsval)) :
  forall s,
    id ∉ items.*1 \/ is_str (Me.id (me s)) id = true ->
    recordAt (finalState (forEach items (joinOther now)) s) id = recordAt s id.
Proof.
  induction items as [| [k u] rest IH]; intros s Hskip; [reflexivity |].
  assert (Hrest : id ∉ rest.*1 \/ is_str (Me.id (me s)) id = true).
  { destruct Hskip as [Hnot | Hloc]; [left | right; exact Hloc].
    cbn in Hnot. apply not_elem_of_cons in Hnot as [_ Hnot]. exact Hnot. }
  pose proof (joinOther_frame now (k, u) s s) as Hframe.
  unfold keepsR, finalState in Hframe.
  unfold finalState at 1. rewrite forEach_cons_run.
  assert (Hstep : recordAt (snd (fst (joinOther now (k, u) s))) id = recordAt s id).
  { rewrite joinOther_run.
    destruct (is_str (Me.id (me s)) k) eqn:Elocal; [reflexivity |].
    destruct (nullish u); [reflexivity |].
    destruct (or0 (prop u "x")); [| reflexivity].
    destruct (or0 (prop u "y")); [| reflexivity].
    destruct (or0 (field s u "animationFrame")); [| reflexivity].
    cbn [fst snd]. rewrite recordAt_store.
    destruct (String.eqb_spec k id) as [-> | _]; [| reflexivity].
    destruct Hskip as [Hnot | Hloc].
    - exfalso. apply Hnot. cbn. apply elem_of_cons. left. reflexivity.
    - rewrite Hloc in Elocal. discriminate. }
  destruct (joinOther now (k, u) s) as [[[[] |] s1] out1]; cbn [fst snd] in *;
    [| exact Hstep].
  rewrite IH; [exact Hstep |].
  destruct Hrest as [Hnot | Hloc]; [left; exact Hnot | right].
  destruct Hframe as [Hme _]; [repeat split |]. rewrite Hme. exact Hloc.
Qed.

(** A completed loop of [join_game] has stored every listed player that is
    not the local one. *)
Lemma joinOthers_seeded now (items : list (string * jsval)) :
  forall s, NoDup items.*1 ->
    outcome (forEach items (joinOther now)) s = Some tt ->
    forall k (u : jsval),
      (k, u) ∈ items ->
      is_str (Me.id (me s)) k = false ->
      exists x y a,
        converts s u x y a /\
        recordAt (finalState (forEach items (joinOther now)) s) k
        = Some (playerOf s (VStr k) u x y a now).
Proof.
  induction items as [| [k0 u0] rest IH]; intros s Hnd Hdone k u Hin Hlocal.
  - inversion Hin.
  - cbn in Hnd. apply NoDup_cons in Hnd as [Hfresh Hnd].
    pose proof (joinOther_frame now (k0, u0) s s) as Hframe.
    unfold keepsR, finalState in Hframe.
    unfold outcome in Hdone. unfold finalState at 1.
    rewrite forEach_cons_run in *.
    apply elem_of_cons in Hin as [Hhead | Htail].
    + injection Hhead as <- <-. rewrite joinOther_run in *. rewrite Hlocal in *.
      destruct (nullish u) eqn:Hu; [discriminate Hdone |].
      destruct (or0 (prop u "x")) as [x |] eqn:Hx; [| discriminate Hdone].
      destruct (or0 (prop u "y")) as [y |] eqn:Hy; [| discriminate Hdone].
      destruct (or0 (field s u "animationFrame")) as [a |] eqn:Ha; [| discriminate Hdone].
      cbn [fst snd] in *. exists x, y, a. split.
      { unfold converts. rewrite !field_plain by reflexivity. auto. }
      rewrite joinOthers_untouched by (left; exact Hfresh).
      rewrite recordAt_store, String.eqb_refl. reflexivity.
    + destruct (joinOther now (k0, u0) s) as [[[[] |] s1] out1]; cbn [fst snd] in *;
        [| discriminate Hdone].
      destruct Hframe as (Hme & _ & _ & _ & Ho & Hm); [repeat split |].
      destruct (IH s1 Hnd Hdone k u Htail) as (x & y & a & Hconv & Hrec).
      { rewrite Hme. exact Hlocal. }
      exists x, y, a. unfold converts, playerOf in *.
      rewrite !(field_same s1 s) in * by assumption. auto.
Qed.


Lemma bind_final {A B} (c : M A) (k : A -> M B) s :
  finalState (bind c k) s =
    match outcome c s with
    | Some a => finalState (k a) (finalState c s)
    | None => finalState c s
    end.
Proof.
  unfold finalState, outcome. rewrite bind_run.
  destruct (c s) as [[[a |] s1] out1]; reflexivity.
Qed.

Lemma bind_outcome {A B} (c : M A) (k : A -> M B) s :
  outcome (bind c k) s =
    match outcome c s with
    | Some a => outcome (k a) (finalState c s)
    | None => None
    end.
Proof.
  unfold finalState, outcome. rewrite bind_run.
  destruct (c s) as [[[a |] s1] out1]; reflexivity.
Qed.

Lemma bind_effects {A B} (c : M A) (k : A -> M B) s :
  effects (bind c k) s =
    match outcome c s with
    | Some a => effects c s ++ effects (k a) (finalState c s)
    | None => effects c s
    end.
Proof.
  unfold finalState, outcome, effects. rewrite bind_run.
  destruct (c s) as [[[a |] s1] out1]; reflexivity.
Qed.

Lemma store_frame key record s :
  me (store key record s) = me s /\
  canSendMoveCommands (store key record s) = canSendMoveCommands s /\
  viewport (store key record s) = viewport s /\
  pendingJoins (store key record s) = pendingJoins s /\
  objectPrototype (store key record s) = objectPrototype s /\
  members (store key record s) = members s /\
  otherPlayers (store key record s) !! "__proto__" = otherPlayers s !! "__proto__".
Proof.
  unfold store. destruct (String.eqb_spec key "__proto__") as [-> | Hk]; cbn.
  - repeat split.
  - repeat split. apply lookup_insert_ne, Hk.
Qed.

(** What the whole synchronous part of [join_game] leaves alone, whether
    it completes or not. *)
Lemma joinGame_keeps data now c v op ms o :
  keeps (fun s => canSendMoveCommands s = c /\ viewport s = v /\
                  objectPrototype s = op /\ members s = ms /\
                  otherPlayers s !! "__proto__" = o)
    (joinGame data now).
Proof.
  unfold joinGame, seedMe, suspendJoin, joinOther.
  walk; apply keeps_modify; intros sa Hsa; unfold setMe;
    try match goal with
        | |- context [store ?k ?r ?s] =>
            destruct (store_frame k r s) as (_ & -> & -> & _ & -> & -> & ->)
        end;
    exact Hsa.
Qed.
End FurtherClientProperties.

Section JoinProperties.
Context `{Host}.

Lemma recordAt_set_me m s k : recordAt (set_me m s) k = recordAt s k.
Proof. reflexivity. Qed.

Lemma recordAt_set_pendingJoins n s k : recordAt (set_pendingJoins n s) k = recordAt s k.
Proof. reflexivity. Qed.

Lemma seedMe_keeps own (P : State -> Prop) :
  (forall m s, P s -> P (set_me m s)) -> keeps P (seedMe own).
Proof.
  intros HP. unfold seedMe. walk; apply keeps_modify; intros sa Hsa; apply HP, Hsa.
Qed.

Lemma seedMe_keeps_id own i : keeps (fun s => Me.id (me s) = i) (seedMe own).
Proof.
  unfold seedMe. walk; apply keeps_modify; intros sa Hsa; exact Hsa.
Qed.

Lemma joinLoop_keeps now (items : list (string * jsval)) (P : State -> Prop) :
  (forall s s', joinLoopFrame s s' -> P s -> P s') ->
  keeps P (forEach items (joinOther now)).
Proof.
  intros HP s Hs. apply (HP s); [apply joinOthers_frame | exact Hs].
Qed.

(** The tail of the synchronous part: the loop over the players, then the
    suspension. *)
Lemma joinTail_me now data b (items : list (string * jsval)) s :
  me (finalState (bind (when b (forEach items (joinOther now)))
                    (fun _ => suspendJoin data)) s) = me s.
Proof.
  cut (keeps (fun s' => me s' = me s)
         (bind (when b (forEach items (joinOther now))) (fun _ => suspendJoin data))).
  { intros Hk. apply Hk. reflexivity. }
  unfold suspendJoin. apply follows_bind; [exact _ | |].
  - apply follows_when; [exact _ |]. apply joinLoop_keeps.
    intros s1 s2 (Hme & _) Hs1. congruence.
  - intros _. walk. apply keeps_modify. intros sa Hsa. exact Hsa.
Qed.

Lemma joinTail_local now data b (items : list (string * jsval)) s k :
  is_str (Me.id (me s)) k = true ->
  recordAt (finalState (bind (when b (forEach items (joinOther now)))
                          (fun _ => suspendJoin data)) s) k = recordAt s k.
Proof.
  intros Hlocal. rewrite bind_final.
  assert (Hloop : recordAt (finalState (when b (forEach items (joinOther now))) s) k
                  = recordAt s k).
  { destruct b; [| reflexivity]. apply joinOthers_untouched. right. exact Hlocal. }
  destruct (outcome _ s); [| exact Hloop].
  rewrite <- Hloop. unfold suspendJoin.
  set (s2 := finalState _ s).
  cut (keeps (fun s' => recordAt s' k = recordAt s2 k)
         (avatars <- getProp data "avatars" ;;
          s0 <- getState ;;
          _ <- emit (AwaitAvatarFrames (js_or avatars (VObj [])) (Me.avatarName (me s0))) ;;
          modify (fun s0 => set_pendingJoins (S (pendingJoins s0)) s0))).
  { intros Hk. apply Hk. reflexivity. }
  walk. apply keeps_modify. intros sa Hsa. exact Hsa.
Qed.

Lemma joinTail_pending now data b (items : list (string * jsval)) s :
  nullish data = false ->
  outcome (bind (when b (forEach items (joinOther now))) (fun _ => suspendJoin data)) s
    = Some tt ->
  pendingJoins (finalState (bind (when b (forEach items (joinOther now)))
                              (fun _ => suspendJoin data)) s) = S (pendingJoins s) /\
  effects (bind (when b (forEach items (joinOther now))) (fun _ => suspendJoin data)) s
    = [AwaitAvatarFrames (js_or (prop data "avatars") (VObj [])) (Me.avatarName (me s))] /\
  outcome (when b (forEach items (joinOther now))) s = Some tt.
Proof.
  intros Hnn. rewrite bind_outcome, bind_final, bind_effects.
  assert (Hframe : joinLoopFrame s (finalState (when b (forEach items (joinOther now))) s)).
  { destruct b; [apply joinOthers_frame | repeat split]. }
  assert (Hsilent : effects (when b (forEach items (joinOther now))) s = []).
  { destruct b; [apply joinOthers_silent | reflexivity]. }
  destruct (outcome (when b _) s) as [[] |]; [| discriminate].
  intros _. unfold finalState at 1, effects at 2. rewrite (suspendJoin_run _ _ Hnn).
  destruct Hframe as (Hme & _ & _ & Hpj & _). cbn [fst snd].
  rewrite Hsilent, Hpj, Hme. auto.
Qed.

(** What the synchronous part of a [join_game] does to the local player. *)
Lemma joinGame_local (s : State) (now : Z) (data : jsval) :
  prop data "action" = VStr "join_game" ->
  is_false (prop data "success") = false ->
  let s' := step s now (SocketMessage (Some data)) in
  let playerId := prop data "playerId" in
  Me.id (me s') = playerId /\
  canSendMoveCommands s' = canSendMoveCommands s /\
  viewport s' = viewport s /\
  (forall k, playerId = VStr k ->
     otherPlayers s' !! k = otherPlayers s !! k /\ recordAt s' k = recordAt s k) /\
  match ownEntry s data with
  | None => me s' = Me.set_id playerId (me s)
  | Some own =>
      if truthy own then
        forall x y a, converts s own x y a ->
          me s' = seededMe s playerId own x y a /\
          myPosition s' = (x, y) /\
          Me.hasServerPosition (me s') = true
      else me s' = Me.set_id playerId (me s)
  end.
Proof.
  intros Hact Hsucc s' playerId. subst s'.
  pose proof (action_not_nullish _ _ Hact) as Hnn.
  pose proof (joinGame_keeps data now _ _ _ _ _ s
                (conj eq_refl (conj eq_refl (conj eq_refl (conj eq_refl eq_refl)))))
    as (Hgate & Hview & _ & _ & Hproto).
  unfold step. unfold finalState in *. rewrite (onMessage_join _ _ _ Hact) in *.
  rewrite (joinGame_run _ _ _ Hnn Hsucc) in *. cbv zeta in *. fold playerId in Hgate, Hview, Hproto |- *.
  set (s1 := set_me (Me.set_id playerId (me s)) s) in *.
  destruct (ownEntry s data) as [own |] eqn:Eown.
  2: { cbn [fst snd] in *. split; [reflexivity |]. split; [exact Hgate |].
       split; [exact Hview |]. split; [| reflexivity].
       intros k _. split; reflexivity. }
  set (tail := bind (when (ToBoolean (prop data "players")) _) _) in *.
  change (snd (fst (bind (when (truthy own) (seedMe own)) (fun _ => tail) s1)))
    with (finalState (bind (when (truthy own) (seedMe own)) (fun _ => tail)) s1) in *.
  rewrite bind_final in *.
  assert (Hid : Me.id (me (finalState (when (truthy own) (seedMe own)) s1)) = playerId).
  { apply (follows_when (keepsR (fun s0 => Me.id (me s0) = playerId)) _ _
             (seedMe_keeps_id own playerId) s1). reflexivity. }
  assert (Hrec : forall k,
             recordAt (finalState (when (truthy own) (seedMe own)) s1) k = recordAt s k).
  { intros k.
    apply (follows_when (keepsR (fun s0 => recordAt s0 k = recordAt s k)) _ _
             (seedMe_keeps own (fun s0 => recordAt s0 k = recordAt s k)
                (fun m s0 Hs0 => Hs0)) s1). reflexivity. }
  assert (Htail : forall s2,
             Me.id (me s2) = playerId -> (forall k, recordAt s2 k = recordAt s k) ->
             Me.id (me (finalState tail s2)) = playerId /\
             forall k, playerId = VStr k -> recordAt (finalState tail s2) k = recordAt s k).
  { intros s2 Hid2 Hrec2. subst tail. rewrite joinTail_me. split; [exact Hid2 |].
    intros k Hk. rewrite joinTail_local; [apply Hrec2 |].
    rewrite Hid2, Hk. cbn. apply String.eqb_refl. }
  assert (Hfinal : forall sf,
             Me.id (me sf) = playerId ->
             (forall k, playerId = VStr k -> recordAt sf k = recordAt s k) ->
             otherPlayers sf !! "__proto__" = otherPlayers s !! "__proto__" ->
             forall k, playerId = VStr k ->
               otherPlayers sf !! k = otherPlayers s !! k /\ recordAt sf k = recordAt s k).
  { intros sf _ Hr Hp k Hk. split; [| apply Hr, Hk].
    specialize (Hr k Hk). unfold recordAt in Hr.
    destruct (String.eqb k "__proto__") eqn:Ek; [| exact Hr].
    apply String.eqb_eq in Ek. rewrite Ek. exact Hp. }
  destruct (truthy own) eqn:Etruthy; cbn [when] in *.
  - pose proof (seedMe_result own s1 (truthy_not_nullishV _ Etruthy)) as Hseed.
    rewrite !(field_same s1 s) in Hseed by reflexivity.
    unfold outcome, finalState in Hid, Hrec, Hgate, Hview, Hproto |- *.
    destruct (seedMe own s1) as [[[[] |] s2] out2] eqn:Erun; cbn [fst snd] in *.
    + fold (finalState tail s2) in *.
      destruct (Htail s2 Hid Hrec) as [Hid' Hrec'].
      split; [exact Hid' |]. split; [exact Hgate |]. split; [exact Hview |].
      split; [apply Hfinal; assumption |].
      intros x y a (Hx & Hy & Ha). rewrite Hx, Hy, Ha in Hseed.
      injection Hseed as Hs2 _. unfold myPosition. subst tail. rewrite joinTail_me.
      rewrite Hs2. cbn. auto.
    + split; [exact Hid |]. split; [exact Hgate |]. split; [exact Hview |].
      split; [apply Hfinal; auto |].
      intros x y a (Hx & Hy & Ha). rewrite Hx, Hy, Ha in Hseed. discriminate Hseed.
  - unfold outcome, finalState in Hid, Hrec, Hgate, Hview, Hproto |- *. cbn [ret fst snd] in *.
    fold (finalState tail s1) in *.
    destruct (Htail s1 Hid Hrec) as [Hid' Hrec'].
    split; [exact Hid' |]. split; [exact Hgate |]. split; [exact Hview |].
    split; [apply Hfinal; assumption |].
    subst tail. rewrite joinTail_me. reflexivity.
Qed.

(** X17. The synchronous part of a [join_game] that is not rejected
    records the identifier and looks the local player up in the players
    map of the message ([ownEntry]).  When the map yields something truthy
    for it and the conversions of its coordinates and animation frame
    complete, position, facing, animation frame and avatar are taken from
    it and [hasServerPosition] becomes true; when it yields nothing truthy,
    or the identifier cannot be converted to a key, only the identifier
    changes.  It does not add a local identifier that is a string to the
    remote map, and it neither opens the gate nor moves the camera: both
    wait for the avatars. *)
Theorem join_seeds_local (s : State) (now : Z) (data : jsval) :
  prop data "action" = VStr "join_game" ->
  is_false (prop data "success") = false ->
  let s' := step s now (SocketMessage (Some data)) in
  let playerId := prop data "playerId" in
  Me.id (me s') = playerId /\
  canSendMoveCommands s' = canSendMoveCommands s /\
  viewport s' = viewport s /\
  (forall k, playerId = VStr k ->
     otherPlayers s' !! k = otherPlayers s !! k /\ recordAt s' k = recordAt s k) /\
  match ownEntry s data with
  | None => me s' = Me.set_id playerId (me s)
  | Some own =>
      if truthy own then
        forall x y a, converts s own x y a ->
          me s' = seededMe s playerId own x y a /\
          myPosition s' = (x, y) /\
          Me.hasServerPosition (me s') = true
      else me s' = Me.set_id playerId (me s)
  end.
Proof. apply joinGame_local. Qed.

Lemma seedMe_silent own b s : effects (when b (seedMe own)) s = [].
Proof.
  assert (Hnone : emitsOnly (fun _ => False) (when b (seedMe own))).
  { unfold seedMe, setMe. walk. }
  specialize (Hnone s). unfold emitsR in Hnone.
  destruct (effects _ s); [reflexivity |]. inversion Hnone. contradiction.
Qed.

Lemma seedMe_heap own b s :
  let s2 := finalState (when b (seedMe own)) s in
  objectPrototype s2 = objectPrototype s /\ members s2 = members s /\
  pendingJoins s2 = pendingJoins s /\ Me.id (me s2) = Me.id (me s).
Proof.
  cbv zeta.
  apply (follows_when (keepsR (fun s0 => objectPrototype s0 = objectPrototype s /\
                                         members s0 = members s /\
                                         pendingJoins s0 = pendingJoins s /\
                                         Me.id (me s0) = Me.id (me s))) b).
  - unfold seedMe. walk; apply keeps_modify; intros sa Hsa; exact Hsa.
  - repeat split.
Qed.

(** X18. A [join_game] that runs to its [await] has stored every listed
    player other than the local one, displayed at its target: as an own
    entry of the remote map, or, under the key [__proto__], in the place of
    the map's prototype.  It has sent nothing and has suspended exactly
    once, asking for the avatars. *)
Theorem join_seeds_remote (s : State) (now : Z) (data : jsval) :
  prop data "action" = VStr "join_game" ->
  is_false (prop data "success") = false ->
  NoDup (entries (prop data "players")).*1 ->
  outcome (handler now (SocketMessage (Some data))) s = Some tt ->
  let s' := step s now (SocketMessage (Some data)) in
  (forall k (u : jsval),
     (k, u) ∈ entries (prop data "players") ->
     is_str (prop data "playerId") k = false ->
     exists x y a,
       converts s u x y a /\
       atTarget (playerOf s (VStr k) u x y a now) /\
       if String.eqb k "__proto__"
       then byIdPrototype s' = Some (playerOf s (VStr k) u x y a now)
       else otherPlayers s' !! k = Some (playerOf s (VStr k) u x y a now)) /\
  pendingJoins s' = S (pendingJoins s) /\
  exists avatarName,
    emitted s now (SocketMessage (Some data))
    = [AwaitAvatarFrames (js_or (prop data "avatars") (VObj [])) avatarName].
Proof.
  intros Hact Hsucc Hnd Hdone s'. subst s'.
  pose proof (action_not_nullish _ _ Hact) as Hnn.
  unfold step, emitted. unfold outcome, finalState, effects in *.
  rewrite (onMessage_join _ _ _ Hact) in *.
  rewrite (joinGame_run _ _ _ Hnn Hsucc) in *. cbv zeta in *.
  set (s1 := set_me (Me.set_id (prop data "playerId") (me s)) s) in *.
  destruct (ownEntry s data) as [own |]; [| discriminate Hdone].
  set (players := prop data "players") in *.
  set (seed := when (truthy own) (seedMe own)) in *.
  match type of Hdone with
  | fst (fst (bind seed ?k s1)) = _ =>
      fold (outcome (bind seed k) s1) in Hdone;
      fold (finalState (bind seed k) s1);
      fold (effects (bind seed k) s1)
  end.
  rewrite bind_outcome in Hdone. rewrite bind_final, bind_effects.
  destruct (seedMe_heap own (truthy own) s1) as (Ho & Hm & Hpj & Hid).
  fold seed in Ho, Hm, Hpj, Hid.
  pose proof (seedMe_silent own (truthy own) s1) as Hsilent. fold seed in Hsilent.
  destruct (outcome seed s1) as [[] |]; [| discriminate Hdone].
  set (s2 := finalState seed s1) in *.
  destruct (joinTail_pending now data (ToBoolean players) (entries players) s2 Hnn Hdone)
    as (Hpending & Heffects & Hloop).
  split; [| split].
  - intros k u Hin Hlocal.
    pose proof (entries_truthy _ _ Hin) as Htruthy. fold players in Htruthy.
    rewrite Htruthy in Hloop. cbn [when] in Hloop.
    destruct (joinOthers_seeded now (entries players) s2 Hnd Hloop k u Hin)
      as (x & y & a & Hconv & Hrec).
    { rewrite Hid. exact Hlocal. }
    exists x, y, a. unfold converts, playerOf in *.
    rewrite !(field_same s2 s) in * by assumption.
    split; [exact Hconv |]. split; [apply newPlayer_atTarget |].
    assert (Hsuspend : forall s3,
               finalState (suspendJoin data) s3
               = set_pendingJoins (S (pendingJoins s3)) s3).
    { intros s3. unfold finalState. rewrite (suspendJoin_run _ _ Hnn). reflexivity. }
    rewrite Htruthy. cbn [when]. rewrite bind_final, Hloop, Hsuspend.
    unfold recordAt in Hrec. destruct (String.eqb k "__proto__"); exact Hrec.
  - rewrite Hpending, Hpj. reflexivity.
  - rewrite Hsilent, Heffects. eexists. reflexivity.
Qed.

(** ** The gate (lines 31, 683-695) *)

Lemma joinGameResume_run cached now s n :
  pendingJoins s = S n ->
  joinGameResume cached now s =
    bind (if cached then setMe (Me.set_ready true) else emit (Console "error"))
      (fun _ => _ <- modify updateCamera ;;
                _ <- modify (set_canSendMoveCommands true) ;;
                startMovementLoop now)
      (set_pendingJoins n s).
Proof.
  intros Hpj. unfold joinGameResume. stepM. rewrite Hpj. stepM. reflexivity.
Qed.

Lemma startMovementLoop_keeps_gate now :
  keeps (fun s => canSendMoveCommands s = true) (startMovementLoop now).
Proof.
  unfold startMovementLoop, movementLoop. walk; apply keeps_modify; intros s0 Hs0; exact Hs0.
Qed.

Lemma joinGameResume_opens cached now s n :
  pendingJoins s = S n ->
  canSendMoveCommands (finalState (joinGameResume cached now) s) = true.
Proof.
  intros Hpj. unfold finalState. rewrite (joinGameResume_run _ _ _ _ Hpj).
  rewrite bind_run.
  assert (Hrest : forall s0,
    canSendMoveCommands
      (finalState (_ <- modify updateCamera ;;
                   _ <- modify (set_canSendMoveCommands true) ;;
                   startMovementLoop now) s0) = true).
  { intros s0. unfold finalState.
    rewrite (bind_silent (modify updateCamera) _ s0 tt _ eq_refl).
    rewrite (bind_silent (modify (set_canSendMoveCommands true)) _ _ tt _ eq_refl).
    apply (startMovementLoop_keeps_gate now). reflexivity. }
  destruct cached; cbn; apply Hrest.
Qed.

(** Close a goal [walk] leaves for a property of the gate and of the
    count of suspended joins. *)
Ltac gate_kept := intros; reshape; try assumption.

(** X19. Only the resumption of a join opens the gate, and only a
    [join_game] message that is not rejected arms a resumption: no other
    event changes [canSendMoveCommands] or raises the number of suspended
    joins. *)
Theorem gate_opened_by_join_only (s : State) (now : Z) (e : Event) :
  (canSendMoveCommands (step s now e) <> canSendMoveCommands s ->
   exists cached, e = AvatarsCached cached /\ pendingJoins s <> 0%nat /\
                  canSendMoveCommands (step s now e) = true) /\
  ((pendingJoins s < pendingJoins (step s now e))%nat ->
   exists data, e = SocketMessage (Some data) /\
                prop data "action" = VStr "join_game" /\
                prop data "success" <> VBool false).
Proof.
  assert (Hframe : forall c : M unit,
    keeps (fun s0 => canSendMoveCommands s0 = canSendMoveCommands s /\
                     pendingJoins s0 = pendingJoins s) c ->
    canSendMoveCommands (finalState c s) = canSendMoveCommands s /\
    pendingJoins (finalState c s) = pendingJoins s).
  { intros c Hc. apply Hc. split; reflexivity. }
  assert (Hloop : forall t, keeps (fun s0 => canSendMoveCommands s0 = canSendMoveCommands s /\
                                             pendingJoins s0 = pendingJoins s)
                              (movementLoop t)).
  { intros t. unfold movementLoop. walk; apply keeps_modify; gate_kept. }
  unfold step.
  destruct e; cbn [handler].
  1-9, 11-12:
    match goal with
    | |- context [finalState ?c ?x] =>
        assert (Hsame : canSendMoveCommands (finalState c x) = canSendMoveCommands x /\
                        pendingJoins (finalState c x) = pendingJoins x);
        [ apply Hframe;
          unfold onWorldLoaded, connectWebSocket, handleKeyDown, handleKeyUp, onClick,
            onChatEnter, onOpen, onClose, onError;
          walk; try (apply keeps_modify; gate_kept)
        | destruct Hsame as [Hg Hp]; rewrite Hg, Hp; split; intros Hne;
          [contradiction Hne; reflexivity | lia] ]
    end.
  - (* SocketMessage *)
    destruct parsed as [data |].
    2: { cbn. split; intros Hne; [contradiction Hne; reflexivity | lia]. }
    destruct (nullish data) eqn:Enn.
    { unfold finalState.
      change (onMessage (Some data) now s)
        with (handler now (SocketMessage (Some data)) s).
      rewrite (onMessage_null _ _ _ Enn). cbn.
      split; intros Hne; [contradiction Hne; reflexivity | lia]. }
    assert (Hgate : canSendMoveCommands (finalState (onMessage (Some data) now) s)
                    = canSendMoveCommands s).
    { assert (Hk : keeps (fun s0 => canSendMoveCommands s0 = canSendMoveCommands s)
                     (onMessage (Some data) now)).
      { unfold onMessage, joinGame, seedMe, suspendJoin, joinOther, playersMoved, moveMe,
          moveOther, retarget, playerJoined, playerLeft, chat.
        walk; apply keeps_modify; gate_kept. }
      apply Hk. reflexivity. }
    split; [intros Hne; contradiction Hne; exact Hgate |].
    intros Hmore. exists data. split; [reflexivity |].
    unfold finalState in Hmore. change (onMessage (Some data) now s)
      with (handler now (SocketMessage (Some data)) s) in Hmore.
    rewrite (onMessage_run _ _ _ Enn) in Hmore.
    destruct (is_str (prop data "action") "join_game") eqn:Ejoin.
    + assert (Hact : prop data "action" = VStr "join_game").
      { destruct (prop data "action"); try discriminate Ejoin.
        cbn in Ejoin. apply String.eqb_eq in Ejoin. congruence. }
      split; [exact Hact |]. intros Hrej.
      unfold joinGame in Hmore.
      rewrite (bind_silent _ _ s _ s (getProp_plain _ "success" _ Enn eq_refl)) in Hmore.
      rewrite Hrej in Hmore. cbn in Hmore. lia.
    + exfalso.
      assert (Hk : keeps (fun s0 => pendingJoins s0 = pendingJoins s)
                     (if is_str (prop data "action") "players_moved"
                      then playersMoved data now
                      else if is_str (prop data "action") "player_joined"
                      then playerJoined data now
                      else if is_str (prop data "action") "player_left"
                      then playerLeft data
                      else if is_str (prop data "action") "chat" then chat data
                      else ret tt)).
      { unfold playersMoved, moveMe, moveOther, retarget, playerJoined, playerLeft, chat.
        walk; apply keeps_modify; gate_kept. }
      specialize (Hk s eq_refl). unfold finalState in Hk. rewrite Hk in Hmore. lia.
  - (* AvatarsCached *)
    destruct (pendingJoins s) as [| n] eqn:Epj.
    + unfold finalState, joinGameResume.
      rewrite (bind_silent getState _ s s s eq_refl). rewrite Epj. cbn.
      split; intros Hne; [contradiction Hne; reflexivity | lia].
    + split.
      * intros _. exists cached. split; [reflexivity |]. split; [lia |].
        apply (joinGameResume_opens _ _ _ _ Epj).
      * intros Hmore. exfalso.
        assert (Hk : keeps (fun s0 => (pendingJoins s0 <= n)%nat)
                       (_ <- (if cached then setMe (Me.set_ready true)
                              else emit (Console "error")) ;;
                       _ <- modify updateCamera ;;
                       _ <- modify (set_canSendMoveCommands true) ;;
                       startMovementLoop now)).
        { unfold startMovementLoop, movementLoop.
          walk; apply keeps_modify; gate_kept. }
        unfold finalState in Hmore. rewrite (joinGameResume_run _ _ _ _ Epj) in Hmore.
        specialize (Hk (set_pendingJoins n s) (Nat.le_refl _)).
        unfold finalState in Hk. lia.
Qed.

(** X20. The gate does not wait for a position: when the players map of a
    successful [join_game] yields nothing truthy for the local identifier
    (no own entry, and nothing inherited under that name), the resumption
    of the join still sets [canSendMoveCommands], while
    [hasServerPosition] stays as it was and, if it was false, the camera
    stays where it was. *)
Theorem gate_opens_without_position (s : State) (t1 t2 : Z) (data : jsval)
    (cached : bool) (own : val) :
  prop data "action" = VStr "join_game" ->
  is_false (prop data "success") = false ->
  ownEntry s data = Some own -> truthy own = false ->
  outcome (handler t1 (SocketMessage (Some data))) s = Some tt ->
  let s2 := step (step s t1 (SocketMessage (Some data))) t2 (AvatarsCached cached) in
  canSendMoveCommands s2 = true /\
  Me.hasServerPosition (me s2) = Me.hasServerPosition (me s) /\
  (Me.hasServerPosition (me s) = false -> viewport s2 = viewport s).
Proof.
  intros Hact Hsucc Hown Hnone Hdone s2. subst s2.
  pose proof (action_not_nullish _ _ Hact) as Hnn.
  destruct (joinGame_local s t1 data Hact Hsucc) as (_ & _ & Hview & _ & Hme).
  rewrite Hown, Hnone in Hme.
  assert (Hpj : pendingJoins (step s t1 (SocketMessage (Some data))) = S (pendingJoins s)).
  { clear Hme Hview. unfold step. unfold outcome, finalState in *.
    rewrite (onMessage_join _ _ _ Hact) in *.
    rewrite (joinGame_run _ _ _ Hnn Hsucc) in *. cbv zeta in *.
    rewrite Hown in *. rewrite Hnone in *. cbn [when] in *.
    rewrite (bind_silent (ret tt) _ _ tt _ eq_refl) in *.
    match type of Hdone with
    | fst (fst (?c ?s1)) = _ =>
        fold (outcome c s1) in Hdone; fold (finalState c s1)
    end.
    apply (joinTail_pending _ _ _ _ _ Hnn) in Hdone as (Hpending & _). exact Hpending. }
  set (s1 := step s t1 (SocketMessage (Some data))) in *.
  assert (Hpos : Me.hasServerPosition (me s1) = Me.hasServerPosition (me s)).
  { rewrite Hme. reflexivity. }
  unfold step. cbn [handler].
  split; [apply (joinGameResume_opens _ _ _ _ Hpj) |].
  assert (Hk : keeps (fun s0 => Me.hasServerPosition (me s0) = Me.hasServerPosition (me s) /\
                                (Me.hasServerPosition (me s) = false ->
                                 viewport s0 = viewport s))
                 (joinGameResume cached t2)).
  { unfold joinGameResume, startMovementLoop, movementLoop.
    walk; apply keeps_modify; intros s0 [Hp0 Hv0]; unfold setMe; cbn;
      rewrite ?me_updateCamera; try (split; assumption).
    split; [exact Hp0 |]. intros Hfalse.
    rewrite updateCamera_not_ready; [auto |].
    unfold cameraReady. rewrite Hp0, Hfalse. apply andb_false_r. }
  apply Hk. split; [exact Hpos | intros _; exact Hview].
Qed.

(** ** Coordinates are 32-bit integers (lines 642-663, 702-719, 730-737) *)

Lemma ToInt32_of_int z : - 2 ^ 31 <= z < 2 ^ 31 -> ToInt32 (Finite (inject_Z z)) = z.
Proof.
  intros Hz. cbn [ToInt32]. unfold Qtrunc. cbn. rewrite Z.quot_1_r.
  apply wrap32_small, Hz.
Qed.

Lemma ToString_array elems :
  ToString (VArr elems) = String.concat "," <$> mapM elementString elems.
Proof.
  cbn [ToString].
  match goal with
  | |- match ?join elems with _ => _ end = _ =>
      assert (Hjoin : forall l, join l = mapM elementString l)
  end.
  { induction l as [| e rest IH]; [reflexivity |].
    cbn. rewrite IH. destruct e; cbn; try reflexivity. }
  rewrite Hjoin. destruct (mapM elementString elems); reflexivity.
Qed.

(** The conversion to a string throws exactly for the values whose
    conversion to a primitive throws. *)
Lemma ToString_thrown v : ToString v = None <-> unconvertibleValue v.
Proof.
  split.
  - induction v as [| | b | n | s | elems IH | props] using jsval_elements_ind;
      try discriminate.
    + destruct b; discriminate.
    + rewrite ToString_array. intros Hnone.
      assert (Hjoin : mapM elementString elems = None).
      { destruct (mapM elementString elems); [discriminate Hnone | reflexivity]. }
      clear Hnone. induction IH as [| e rest He _ IHrest]; [discriminate Hjoin |].
      cbn in Hjoin. destruct (elementString e) as [t |] eqn:Ee.
      * cbn in Hjoin. destruct (mapM elementString rest); [discriminate Hjoin |].
        specialize (IHrest eq_refl). inversion IHrest as [| elems' e' Hin Hun]; subst.
        eapply unconvertible_array; [right; exact Hin | exact Hun].
      * eapply unconvertible_array; [left |]. apply He.
        destruct e; try discriminate Ee; exact Ee.
    + cbn. destruct (hasKey "toString" props) eqn:Ekey; [| discriminate].
      intros _. constructor. exact Ekey.
  - induction 1 as [props Hkey | elems e Hin _ IH].
    + cbn. rewrite Hkey. reflexivity.
    + rewrite ToString_array.
      assert (Hjoin : mapM elementString elems = None).
      { induction elems as [| e' rest IHrest]; [inversion Hin |].
        cbn. apply elem_of_cons in Hin as [<- | Hin].
        - assert (He : elementString e = None).
          { destruct e; try discriminate IH; exact IH. }
          rewrite He. reflexivity.
        - rewrite (IHrest Hin). destruct (elementString e'); reflexivity. }
      rewrite Hjoin. reflexivity.
Qed.

Lemma ToNumber_thrown v : ToNumber v = None <-> unconvertibleValue v.
Proof.
  destruct v as [| | [] | n | s | elems | props];
    try (split; [discriminate | intros Hun; inversion Hun]).
  - rewrite <- ToString_thrown. unfold ToNumber.
    destruct (ToString (VArr elems)); split; (discriminate || reflexivity).
  - rewrite <- ToString_thrown. cbn.
    destruct (hasKey "toString" props); split; (discriminate || reflexivity).
Qed.

(** X21. [value | 0] yields a 32-bit integer whenever the conversion of
    the value completes, and is idempotent: a stored coordinate or
    animation frame goes through [| 0] again unchanged (as in
    [getMyCurrentFrame]).  It throws exactly for a value whose conversion
    to a primitive throws: an object with an own [toString] (never callable
    in a payload), or an array with such an element at any depth. *)
Theorem or0_int32_idempotent (v : jsval) :
  (forall q, or0 v = Some q ->
     isInt32 q /\
     or0 (VNum (Finite q)) = Some q /\
     inject_Z (ToInt32 (Finite q)) = q) /\
  (or0 v = None <-> unconvertibleValue v).
Proof.
  split.
  - intros q Hq. destruct (isInt32_or0 v q Hq) as (z & Ez & Hz).
    split; [exists z; auto |].
    unfold or0. cbn [ToNumber fmap option_fmap option_map].
    rewrite Ez, (ToInt32_of_int z Hz). auto.
  - rewrite <- ToNumber_thrown. unfold or0.
    destruct (ToNumber v); split; (discriminate || reflexivity).
Qed.

Lemma coordinatesInt32_same s s' :
  me s' = me s -> otherPlayers s' = otherPlayers s ->
  coordinatesInt32 s -> coordinatesInt32 s'.
Proof. unfold coordinatesInt32. intros -> ->. auto. Qed.

Lemma coordinatesInt32_insert s id p tx ty :
  isInt32 (Player.animationFrame p) ->
  Player.targetX p = Some tx -> Player.targetY p = Some ty ->
  isInt32 tx -> isInt32 ty ->
  coordinatesInt32 s ->
  coordinatesInt32 (set_otherPlayers (<[id := p]> (otherPlayers s)) s).
Proof.
  intros Ha Hx Hy Htx Hty (Hmx & Hmy & Hma & Hmap).
  split; [exact Hmx |]. split; [exact Hmy |]. split; [exact Hma |].
  intros id' p'. cbn. rewrite lookup_insert. case_decide.
  - intros [= <-]. split; [exact Ha |]. exists tx, ty. auto.
  - apply Hmap.
Qed.

Lemma coordinatesInt32_store s key p tx ty :
  isInt32 (Player.animationFrame p) ->
  Player.targetX p = Some tx -> Player.targetY p = Some ty ->
  isInt32 tx -> isInt32 ty ->
  coordinatesInt32 s -> coordinatesInt32 (store key p s).
Proof.
  intros Ha Hx Hy Htx Hty Hs. unfold store. destruct (String.eqb key "__proto__").
  - eapply coordinatesInt32_same; [| | exact Hs]; reflexivity.
  - eapply coordinatesInt32_insert; eassumption.
Qed.

(** An assignment of lines 716-720 that keeps the coordinates of a player
    32-bit integers keeps those of the state. *)
Lemma coordinatesInt32_assign t a s :
  (forall p,
     isInt32 (Player.animationFrame p) ->
     (exists tx ty, Player.targetX p = Some tx /\ Player.targetY p = Some ty /\
                    isInt32 tx /\ isInt32 ty) ->
     isInt32 (Player.animationFrame (onPlayer a p)) /\
     exists tx ty, Player.targetX (onPlayer a p) = Some tx /\
                   Player.targetY (onPlayer a p) = Some ty /\
                   isInt32 tx /\ isInt32 ty) ->
  coordinatesInt32 s -> coordinatesInt32 (assign t a s).
Proof.
  intros Hplayer Hs.
  destruct t as [id | | [| name | name] | |];
    try (eapply coordinatesInt32_same; [| | exact Hs]; reflexivity).
  destruct Hs as (Hmx & Hmy & Hma & Hmap).
  split; [exact Hmx |]. split; [exact Hmy |]. split; [exact Hma |].
  intros id' p'. cbn.
  destruct (decide (id = id')) as [<- | Hne].
  - rewrite lookup_alter_eq. destruct (otherPlayers s !! id) as [p |] eqn:Ep; cbn;
      [| discriminate].
    intros [= <-]. destruct (Hmap id p Ep) as [Hpa Hpt]. apply Hplayer; assumption.
  - rewrite lookup_alter_ne by exact Hne. apply Hmap.
Qed.

Lemma coordinatesInt32_delete s id :
  coordinatesInt32 s ->
  coordinatesInt32 (set_otherPlayers (delete id (otherPlayers s)) s).
Proof.
  intros (Hmx & Hmy & Hma & Hmap).
  split; [exact Hmx |]. split; [exact Hmy |]. split; [exact Hma |].
  intros id' p'. cbn. rewrite lookup_delete. case_decide; [discriminate | apply Hmap].
Qed.

Lemma interpolate_animationFrame p :
  Player.animationFrame (interpolate p) = Player.animationFrame p.
Proof.
  unfold interpolate.
  destruct (Player.targetX p), (Player.targetY p); try reflexivity.
  destruct (Qgtb _ _ || Qgtb _ _); reflexivity.
Qed.

Lemma coordinatesInt32_render s : coordinatesInt32 s -> coordinatesInt32 (render s).
Proof.
  intros Hs. unfold render. destruct (negb _); [exact Hs |].
  destruct Hs as (Hmx & Hmy & Hma & Hmap).
  split; [exact Hmx |]. split; [exact Hmy |]. split; [exact Hma |].
  intros id p'. rewrite interpolation_lookup.
  destruct (otherPlayers s !! id) as [p |] eqn:Ep; cbn; [| discriminate].
  intros [= <-]. rewrite interpolate_animationFrame.
  destruct (interpolate_targets p) as [-> ->]. apply (Hmap id p Ep).
Qed.

Lemma coordinatesInt32_setMe s (f : Me.t -> Me.t) :
  (isInt32 (Me.x (me s)) -> isInt32 (Me.x (f (me s)))) ->
  (isInt32 (Me.y (me s)) -> isInt32 (Me.y (f (me s)))) ->
  (isInt32 (Me.animationFrame (me s)) -> isInt32 (Me.animationFrame (f (me s)))) ->
  coordinatesInt32 s -> coordinatesInt32 (set_me (f (me s)) s).
Proof.
  intros Hx Hy Ha (Hmx & Hmy & Hma & Hmap).
  split; [apply Hx, Hmx |]. split; [apply Hy, Hmy |]. split; [apply Ha, Hma | exact Hmap].
Qed.

Ltac int32_leaf :=
  apply keeps_modify; intros ? ?;
  first
    [ apply coordinatesInt32_setMe; cbn; intros;
      first [assumption | eapply isInt32_or0; eassumption]
    | eapply coordinatesInt32_store;
      [eapply isInt32_or0; eassumption | reflexivity | reflexivity
      | eapply isInt32_or0; eassumption | eapply isInt32_or0; eassumption | assumption]
    | apply coordinatesInt32_assign;
      [ cbn; intros ? ? (? & ? & ? & ? & ? & ?);
        split; [first [assumption | eapply isInt32_or0; eassumption] |];
        eexists _, _; repeat split;
        first [eassumption | reflexivity | eapply isInt32_or0; eassumption]
      | assumption ]
    | apply coordinatesInt32_delete; assumption
    | apply coordinatesInt32_render; assumption
    | eapply coordinatesInt32_same; [| | eassumption]; reshape; reflexivity ].

Lemma handler_keeps_int32 now e : keeps coordinatesInt32 (handler now e).
Proof.
  destruct e; cbn [handler];
    unfold onWorldLoaded, connectWebSocket, handleKeyDown, handleKeyUp, onClick,
      onChatEnter, movementLoop, onOpen, onClose, onError, joinGameResume,
      startMovementLoop, movementLoop, onMessage, joinGame, seedMe, suspendJoin,
      joinOther, playersMoved, moveMe, moveOther, retarget, playerJoined, playerLeft,
      chat, setMe;
    walk; int32_leaf.
Qed.

Lemma initial_int32 : coordinatesInt32 initial.
Proof.
  split; [exists 1024; split; [reflexivity | lia] |].
  split; [exists 1024; split; [reflexivity | lia] |].
  split; [exists 0; split; [reflexivity | lia] |].
  intros id p Hp. cbn in Hp. rewrite lookup_empty in Hp. discriminate.
Qed.

(** X22. In every state an execution reaches from the state at load, the
    local position and animation frame, and the target and animation frame
    of every remote player, are 32-bit integers. *)
Theorem coordinates_always_int32 (evs : list (Z * Event)) :
  coordinatesInt32 (fst (run initial evs)).
Proof.
  assert (Hgen : forall s, coordinatesInt32 s -> coordinatesInt32 (fst (run s evs))).
  { induction evs as [| [now e] rest IH]; intros s Hs; [exact Hs |].
    cbn. apply IH. apply (handler_keeps_int32 now e s Hs). }
  apply Hgen, initial_int32.
Qed.

(** ** Merging in [players_moved] (lines 696-723) *)

Lemma playersMoved_skipped data now s :
  nullish data = false ->
  ToBoolean (prop data "players") = false ->
  playersMoved data now s = (Some tt, s, []).
Proof.
  intros Hnn Hfalsy. unfold playersMoved.
  rewrite (bind_silent _ _ s _ s (getProp_plain _ "players" _ Hnn eq_refl)).
  rewrite Hfalsy. reflexivity.
Qed.

(** X23. [players_moved] merges [facing] field-wise, unlike the
    coordinates: the local player takes the [facing] its update yields when
    that is truthy and keeps the previous one otherwise.  An own truthy
    [facing] of the update is what it yields, and an update without own
    [facing] yields nothing unless an earlier message left a [facing] on
    [Object.prototype].  A conversion of [x] or [y] that throws ends the
    update before [facing] is assigned.  The message never touches the
    local identifier, name, avatar, readiness flags or the gate, and a
    message without update for the local player leaves it as it was. *)
Theorem players_moved_merges_facing (s : State) (now : Z) (data : jsval) :
  prop data "action" = VStr "players_moved" ->
  let players := prop data "players" in
  let s' := step s now (SocketMessage (Some data)) in
  Me.id (me s') = Me.id (me s) /\
  Me.username (me s') = Me.username (me s) /\
  Me.avatarName (me s') = Me.avatarName (me s) /\
  Me.ready (me s') = Me.ready (me s) /\
  Me.hasServerPosition (me s') = Me.hasServerPosition (me s) /\
  canSendMoveCommands s' = canSendMoveCommands s /\
  (ToBoolean players = false -> me s' = me s) /\
  (ToString (Me.id (me s)) = None -> me s' = me s) /\
  (forall key,
     ToString (Me.id (me s)) = Some key -> ToBoolean players = true ->
     let myUpdate := lookup s players key in
     let facing := field s myUpdate "facing" in
     (truthy myUpdate = false -> me s' = me s) /\
     (truthy myUpdate = true ->
        (is_Some (or0 (field s myUpdate "x")) ->
         is_Some (or0 (field s myUpdate "y")) ->
         Me.facing (me s') = if ToBoolean facing then facing else Me.facing (me s)) /\
        (or0 (field s myUpdate "x") = None \/ or0 (field s myUpdate "y") = None ->
         Me.facing (me s') = Me.facing (me s))) /\
     (forall update : jsval,
        myUpdate = Val update ->
        (ToBoolean (prop update "facing") = true -> facing = prop update "facing") /\
        (hasOwn update "facing" = false ->
         Stray.facing (objectPrototype s) = None -> facing = VUndef))).
Proof.
  intros Hact players s'. subst s'.
  pose proof (action_not_nullish _ _ Hact) as Hnn.
  assert (Hkept : keeps (fun s0 => Me.id (me s0) = Me.id (me s) /\
                                   Me.username (me s0) = Me.username (me s) /\
                                   Me.avatarName (me s0) = Me.avatarName (me s) /\
                                   Me.ready (me s0) = Me.ready (me s) /\
                                   Me.hasServerPosition (me s0)
                                   = Me.hasServerPosition (me s) /\
                                   canSendMoveCommands s0 = canSendMoveCommands s)
                    (playersMoved data now)).
  { unfold playersMoved, moveMe, moveOther, retarget.
    walk; apply keeps_modify; intros sa Hsa; reshape; exact Hsa. }
  specialize (Hkept s (conj eq_refl (conj eq_refl (conj eq_refl
                         (conj eq_refl (conj eq_refl eq_refl)))))).
  unfold step, finalState in *. rewrite (onMessage_players_moved _ _ _ Hact).
  destruct Hkept as (Hid & Hname & Havatar & Hready & Hpos & Hgate).
  do 6 (split; [assumption |]). clear Hid Hname Havatar Hready Hpos Hgate.
  assert (Hloop : forall s1,
             me (finalState (forEach (entries players) (moveOther now)) s1) = me s1).
  { intros s1.
    apply (follows_forEach (keepsR (fun s0 => me s0 = me s1)) (entries players)
             (moveOther now) (moveOther_keeps_me _ now) s1 eq_refl). }
  split; [| split].
  - intros Hfalsy. rewrite (playersMoved_skipped _ _ _ Hnn Hfalsy). reflexivity.
  - intros Hkey. destruct (ToBoolean players) eqn:Etruthy.
    + rewrite (playersMoved_thrown _ _ _ Hnn Etruthy Hkey). reflexivity.
    + rewrite (playersMoved_skipped _ _ _ Hnn Etruthy). reflexivity.
  - intros key Hkey Htruthy.
    rewrite (playersMoved_run _ _ _ _ Hnn Htruthy Hkey). fold players.
    set (myUpdate := lookup s players key). set (facing := field s myUpdate "facing").
    unfold finalState in Hloop. rewrite bind_run.
    split; [| split].
    + intros Hnone. rewrite Hnone. cbn [when ret fst snd]. unfold finalState.
      apply Hloop.
    + intros Hsome. rewrite Hsome. cbn [when].
      pose proof (moveMe_result myUpdate s (truthy_not_nullishV _ Hsome)) as Hrun.
      split.
      * intros [x Hx] [y Hy]. rewrite Hx, Hy in Hrun. cbv zeta in Hrun.
        destruct (or0 (field s myUpdate "animationFrame")); rewrite Hrun;
          cbn [fst snd]; unfold finalState;
          rewrite ?Hloop, ?me_updateCamera; reflexivity.
      * intros [Hx | Hy].
        -- rewrite Hx in Hrun. rewrite Hrun. reflexivity.
        -- destruct (or0 (field s myUpdate "x")); rewrite ?Hy in Hrun; rewrite Hrun;
             reflexivity.
    + intros update Hval. subst facing. rewrite Hval. cbn [field]. split.
      * intros Hown. destruct (hasOwn update "facing") eqn:E; [reflexivity |].
        rewrite (prop_not_own _ _ E) in Hown. discriminate Hown.
      * intros Hmissing Hclean. rewrite Hmissing.
        unfold Stray.prop, Stray.own. cbn. rewrite Hclean. reflexivity.
Qed.
End JoinProperties.
(** ** Frames and drawing (lines 193-315) *)

Lemma Qmax_inject a b : Qmax (inject_Z a) (inject_Z b) = inject_Z (Z.max a b).
Proof.
  unfold Qmax, GenericMinMax.gmax, Qcompare, Z.max. cbn. rewrite !Z.mul_1_r.
  destruct (a ?= b); reflexivity.
Qed.

Lemma Qmin_inject a b : Qmin (inject_Z a) (inject_Z b) = inject_Z (Z.min a b).
Proof.
  unfold Qmin, GenericMinMax.gmin, Qcompare, Z.min. cbn. rewrite !Z.mul_1_r.
  destruct (a ?= b); reflexivity.
Qed.

Lemma arrayAt_int {A} (l : list A) (j : Z) :
  0 <= j -> arrayAt l (inject_Z j) = l !! Z.to_nat j.
Proof.
  intros Hj. unfold arrayAt. rewrite Qfloor_Z.
  assert (Heq : Qeqb (inject_Z j) (inject_Z j) = true).
  { unfold Qeqb. apply Qeq_bool_iff. reflexivity. }
  rewrite Heq. cbn [andb]. destruct (Z.leb_spec 0 j); [reflexivity | lia].
Qed.

(** The index [getMyCurrentFrame] and [getPlayerCurrentFrame] compute. *)
Lemma frame_index (count : nat) (animationFrame : Q) :
  clamp (inject_Z (ToInt32 (Finite animationFrame))) 0
    (Math_max 0 (inject_Z (Z.of_nat count) - 1))
  = inject_Z (Z.max 0 (Z.min (Z.max 0 (Z.of_nat count - 1))
                             (ToInt32 (Finite animationFrame)))).
Proof.
  unfold clamp, Math_max, Math_min.
  assert (Hm : (inject_Z (Z.of_nat count) - 1)%Q = inject_Z (Z.of_nat count - 1)).
  { unfold inject_Z, Qminus, Qplus, Qopp. cbn. f_equal. lia. }
  rewrite Hm. change 0%Q with (inject_Z 0).
  rewrite Qmax_inject, Qmin_inject, Qmax_inject. reflexivity.
Qed.

(** X24. Frame selection never reads outside the frame list: for a cached
    avatar the result is the frame at the animation frame number clamped
    into the list (below zero the first frame, past the end the last), and
    it is absent only when the list of that direction is empty. *)
Theorem currentFrame_in_bounds (f : Frames.t) (facing : jsval) (animationFrame : Q) :
  let frames := framesOf f (frameDirection facing) in
  let i := Z.to_nat (Z.max 0 (Z.min (Z.of_nat (length frames) - 1)
                                    (ToInt32 (Finite animationFrame)))) in
  currentFrame (Some f) facing animationFrame = frames !! i /\
  (frames <> [] -> (i < length frames)%nat /\
                   is_Some (currentFrame (Some f) facing animationFrame)) /\
  (frames = [] -> currentFrame (Some f) facing animationFrame = None).
Proof.
  intros frames i. unfold currentFrame. fold frames.
  rewrite frame_index, arrayAt_int by lia.
  assert (Hi : Z.to_nat (Z.max 0 (Z.min (Z.max 0 (Z.of_nat (length frames) - 1))
                                        (ToInt32 (Finite animationFrame)))) = i).
  { subst i. f_equal. lia. }
  rewrite Hi. split; [reflexivity |]. split.
  - intros Hne. assert (Hlen : (0 < length frames)%nat).
    { destruct frames; [contradiction | cbn; lia]. }
    assert (Hlt : (i < length frames)%nat) by (subst i; lia).
    split; [exact Hlt |]. apply lookup_lt_is_Some_2, Hlt.
  - intros ->. reflexivity.
Qed.

Lemma Math_ceil_ge (q : Q) : (q <= Math_ceil q)%Q.
Proof. unfold Math_ceil. apply Qle_ceiling. Qed.

Lemma Math_round_int (z : Z) : Math_round (inject_Z z) = inject_Z z.
Proof.
  unfold Math_round. f_equal.
  assert (Hlo : (inject_Z z <= inject_Z z + (1 # 2))%Q) by lra.
  assert (Hhi : (inject_Z z + (1 # 2) < inject_Z (z + 1))%Q).
  { rewrite inject_Z_plus. change (inject_Z 1) with 1%Q. lra. }
  pose proof (Qfloor_le (inject_Z z + (1 # 2))) as Hf.
  pose proof (Qlt_floor (inject_Z z + (1 # 2))) as Hc.
  assert (H1 : (inject_Z z < inject_Z (Qfloor (inject_Z z + (1 # 2)) + 1))%Q) by lra.
  assert (H2 : (inject_Z (Qfloor (inject_Z z + (1 # 2))) < inject_Z (z + 1))%Q) by lra.
  rewrite <- Zlt_Qlt in H1, H2. lia.
Qed.

(** X25. The name label: the text starts six pixels inside a box that is
    wide enough for it with six pixels to spare on the right, the box is
    centred on [xCenter] within half a pixel, and for an integer top and
    padding (as at both call sites) it ends exactly four pixels above
    [topY]. *)
Theorem name_label_box (measured : Q) (text : jsval) (xCenter : Q) (topY paddingY : Z) :
  exists boxX boxY boxWidth boxHeight,
    drawNameLabel measured text xCenter (inject_Z topY) (inject_Z paddingY)
      = [FillRect boxX boxY boxWidth boxHeight;
         FillText text (boxX + 6)%Q (boxY + inject_Z paddingY)%Q] /\
    (boxX + 6 + measured <= boxX + boxWidth - 6)%Q /\
    (xCenter - (1 # 2) < boxX + boxWidth / 2 <= xCenter + (1 # 2))%Q /\
    (boxY + boxHeight == inject_Z topY - 4)%Q.
Proof.
  unfold drawNameLabel. eexists _, _, _, _. split; [reflexivity |].
  pose proof (Math_ceil_ge measured) as Hceil.
  split; [lra |]. split.
  - destruct (Math_round_near (xCenter - (Math_ceil measured + 6 * 2) / 2))
      as (z & -> & Hz).
    lra.
  - assert (Hint : (inject_Z topY - (16 + inject_Z paddingY * 2) - 4
                    = inject_Z (topY - (16 + paddingY * 2) - 4))%Q).
    { unfold inject_Z, Qminus, Qplus, Qmult, Qopp. cbn. f_equal. lia. }
    rewrite Hint, Math_round_int, <- Hint. ring.
Qed.

Section DrawingProperties.
Context `{Host}.
Variable measureText : jsval -> option Q.
Variable byName : string -> AvatarEntry.


End DrawingProperties.

(** ** Chat panel, minimap and pixel ratio (lines 6-7, 509-551, 584-605) *)

Lemma addChatMessage_length type content username messages :
  (length messages <= 50)%nat ->
  (length (addChatMessage type content username messages) <= 50)%nat.
Proof.
  intros Hlen. unfold addChatMessage.
  destruct (Nat.ltb_spec 50 (length (messages ++ [chatLine type content username]))) as [Hgt | Hle].
  - rewrite length_drop, length_app. cbn. lia.
  - exact Hle.
Qed.


(** X28. For a world whose longer side is at least one pixel the minimap
    scale is a positive number of at most 200, the mapping of a coordinate
    is monotone, sends 0 to 0 and every coordinate between 0 and the longer
    side to a non-negative value below 201; a ready world of size zero has
    an infinite scale, under which the origin maps to [NaN]. *)
Theorem minimap_scale (s : State) :
  let side := Math_max (World.width (world s)) (World.height (world s)) in
  ((1 <= side)%Q ->
   exists k, minimapScale s = Finite k /\
     (0 < k <= 200)%Q /\
     (exists v0, scaleBy (minimapScale s) 0 = Finite v0 /\ (v0 == 0)%Q) /\
     forall x y, (0 <= x <= y)%Q -> (y <= side)%Q ->
       exists vx vy,
         scaleBy (minimapScale s) x = Finite vx /\
         scaleBy (minimapScale s) y = Finite vy /\
         (0 <= vx <= vy)%Q /\ (vy < 201)%Q) /\
  ((side == 0)%Q ->
   minimapScale s = Infinity false /\ scaleBy (minimapScale s) 0 = NaN).
Proof.
  intros side. unfold minimapScale, divide, minimapSize. fold side. split.
  - intros Hpos.
    assert (Hnz : Qeqb side 0 = false).
    { unfold Qeqb. destruct (Qeq_bool side 0) eqn:E; [| reflexivity].
      apply Qeq_bool_iff in E. lra. }
    rewrite Hnz. exists (200 / side)%Q. split; [reflexivity |].
    assert (Hk : (200 / side * side == 200)%Q).
    { field. lra. }
    assert (Hkpos : (0 < 200 / side)%Q).
    { apply Qlt_shift_div_l; lra. }
    assert (Hkle : (200 / side <= 200)%Q).
    { apply Qle_shift_div_r; lra. }
    split; [split; assumption |].
    split; [eexists; split; [reflexivity | ring] |].
    intros x y [Hx0 Hxy] Hy. exists (x * (200 / side))%Q, (y * (200 / side))%Q.
    split; [reflexivity |]. split; [reflexivity |].
    assert (Hmono : (y * (200 / side) <= side * (200 / side))%Q) by nra.
    assert (Hcomm : (side * (200 / side) == 200)%Q) by (rewrite Qmult_comm; exact Hk).
    split; [split; nra | lra].
  - intros Hzero.
    assert (Hz : Qeqb side 0 = true) by (apply Qeq_bool_iff; exact Hzero).
    rewrite Hz. split; reflexivity.
Qed.

(** X29. The pixel ratio is a whole number, at least one: the floor of the
    device's ratio when that is one or more, and one when the ratio is
    missing, zero or below one. *)
Theorem pixel_ratio_whole (devicePixelRatio : option Q) :
  exists z : Z,
    getPixelRatio devicePixelRatio = inject_Z z /\ 1 <= z /\
    match devicePixelRatio with
    | Some r => if Qle_bool 1 r then z = Qfloor r else z = 1
    | None => z = 1
    end.
Proof.
  unfold getPixelRatio, Math_max, Math_floor.
  assert (Hone : forall z, z = 1 ->
            Qmax 1 (inject_Z (Qfloor 1)) = inject_Z z).
  { intros z ->. reflexivity. }
  destruct devicePixelRatio as [r |]; [| exists 1; auto using Z.le_refl].
  destruct (Qeqb r 0) eqn:Ezero.
  - exists 1. split; [apply Hone; reflexivity |]. split; [lia |].
    apply Qeq_bool_iff in Ezero.
    destruct (Qle_bool 1 r) eqn:Ele; [| reflexivity].
    apply Qle_bool_iff in Ele. exfalso. lra.
  - exists (Z.max 1 (Qfloor r)).
    split; [exact (Qmax_inject 1 (Qfloor r)) |]. split; [lia |].
    destruct (Qle_bool 1 r) eqn:Ele.
    + apply Qle_bool_iff in Ele.
      pose proof (Qlt_floor r) as Hlt.
      assert (Hl : (inject_Z 1 < inject_Z (Qfloor r + 1))%Q)
        by (change (inject_Z 1) with 1%Q; lra).
      rewrite <- Zlt_Qlt in Hl. lia.
    + assert (Hlt : (r < 1)%Q).
      { apply Qnot_le_lt. intros Hle. apply Qle_bool_iff in Hle. congruence. }
      pose proof (Qfloor_le r) as Hf.
      assert (Hl : (inject_Z (Qfloor r) < inject_Z 1)%Q)
        by (change (inject_Z 1) with 1%Q; lra).
      rewrite <- Zlt_Qlt in Hl. lia.
Qed.

(** ** Closed instances of the further properties *)

(** ** Closed instances of the further properties *)

Lemma scanKeys_pressed_witness :
  snd (scanKeys (keysPressed holding)) = [Up] /\
  NoDup (snd (scanKeys (keysPressed holding))).
Proof.
  destruct (scanKeys_pressed (keysPressed holding)) as (_ & _ & Hplain & Hadded).
  destruct (Hplain eq_refl) as [Hdirs _].
  destruct Hadded as (_ & Hnodup & _).
  - split; [apply NoDup_nil; exact I |].
    intros name Hin. inversion Hin.
  - split; [exact Hdirs | exact Hnodup].
Defined.

Lemma key_down_up_witness :
  pressed (keysPressed (finalState (handleKeyDown "KeyW") (joined 100 200))) Up = true.
Proof.
  destruct (key_down_up "KeyW" (joined 100 200)) as (Hmapped & _).
  destruct (Hmapped Up eq_refl) as (Hdown & _). exact Hdown.
Defined.

Lemma camera_window_inside_world_witness :
  exists sx sy,
    drawWorld (updateCamera (joined 9000 (-50))) = [DrawWorld sx sy 800 600 0 0 800 600] /\
    (0 <= sx)%Q /\ (sx + 800 <= 2048)%Q /\ (0 <= sy)%Q /\ (sy + 600 <= 2048)%Q.
Proof.
  apply (camera_window_inside_world (joined 9000 (-50))).
  - vm_compute. reflexivity.
  - vm_compute. discriminate.
  - vm_compute. discriminate.
Defined.

Lemma camera_centres_player_witness :
  (1024 - Viewport.cameraX (viewport (updateCamera (joined 1024 1024)))
     == Math_floor (800 / 2))%Q.
Proof.
  apply (camera_centres_player (joined 1024 1024)).
  - vm_compute. reflexivity.
  - split; vm_compute; discriminate.
  - split; vm_compute; discriminate.
Defined.

Lemma interpolate_at_rest_witness : Nat.iter 3 interpolate (remote7 10 0) = remote7 10 0.
Proof.
  apply (interpolate_at_rest (remote7 10 0)). split; reflexivity.
Defined.

Lemma interpolation_reaches_target_witness :
  Player.x (Nat.iter 181 interpolate (remote7 0 0)) = 10%Q.
Proof.
  apply (interpolation_reaches_target (remote7 0 0) 10 0 eq_refl eq_refl 181%nat).
  vm_compute. reflexivity.
Defined.

Lemma render_moves_remote_only_witness :
  exists p,
    otherPlayers (withRemote7 0 0) !! "7" = Some p /\
    Player.targetX p = Some 10%Q.
Proof.
  destruct (render_moves_remote_only (withRemote7 0 0)) as (_ & _ & Hfields).
  destruct (Hfields "7" (interpolate (remote7 0 0))) as (p & Hp & _).
  - reflexivity.
  - exists p. split; [exact Hp |]. vm_compute in Hp. injection Hp as <-. reflexivity.
Defined.

Lemma tick_silent_unless_ready_witness :
  movementLoopId holding = true /\ ws_open holding = true /\
  canSendMoveCommands holding = true.
Proof.
  apply (tick_silent_unless_ready holding 1350). vm_compute. discriminate.
Defined.

Lemma tick_with_keys_held_witness :
  emitted holding 1350 Tick = [Send true (MoveDir Up)] /\
  step holding 1350 Tick = set_lastMoveTime 1350 holding.
Proof.
  destruct (tick_with_keys_held holding 1350) as [Htick _]; try reflexivity.
  exact Htick.
Defined.

Lemma idle_ticks_resend_stop_witness :
  snd (run (joined 100 200) [(1350, Tick); (1400, Tick)])
  = [(1350, [Send true Stop]); (1400, [Send true Stop])].
Proof.
  rewrite (idle_ticks_resend_stop (joined 100 200) [1350; 1400]).
  - reflexivity.
  - repeat split; reflexivity.
Defined.

Lemma unknown_message_dropped_witness :
  step (joined 100 200) 1500 (SocketMessage (Some pingPayload)) = joined 100 200.
Proof.
  apply (unknown_message_dropped (joined 100 200) 1500 (Some pingPayload)).
  intros data [= <-] known Hknown.
  repeat (apply elem_of_cons in Hknown as [-> | Hknown]; [reflexivity |]).
  inversion Hknown.
Defined.

Lemma player_left_unknown_noop_witness :
  step (joined 100 200) 1500 (SocketMessage (Some (leftPayload "99"))) = joined 100 200 /\
  emitted (joined 100 200) 1500 (SocketMessage (Some (leftPayload "constructor")))
  = [Console "log"; UpdateUI].
Proof.
  destruct (player_left_unknown_noop (joined 100 200) 1500 (leftPayload "99") eq_refl)
    as (Hnoop & _).
  destruct (player_left_unknown_noop (joined 100 200) 1500 (leftPayload "constructor")
              eq_refl) as (_ & _ & Hinherited).
  split.
  - apply Hnoop. right. exists "99". split; reflexivity.
  - apply (Hinherited "constructor"); reflexivity.
Defined.

Lemma player_left_removes_witness :
  otherPlayers (step (withRemote7 0 0) 1500 (SocketMessage (Some (leftPayload "7"))))
  = delete "7" (otherPlayers (withRemote7 0 0)).
Proof.
  apply (player_left_removes (withRemote7 0 0) 1500 (leftPayload "7") "7" (remote7 0 0));
    reflexivity.
Defined.

Lemma player_joined_creates_witness :
  otherPlayers (step (joined 100 200) 1500 (SocketMessage (Some (joinedPayload "8")))) !! "8"
  = Some (playerOf (joined 100 200) (VStr "8") (serverPlayer "8" 300 400) 300 400 1 1500) /\
  byIdPrototype (step (joined 100 200) 1500 (SocketMessage (Some (joinedPayload "__proto__"))))
  = Some (playerOf (joined 100 200) (VStr "__proto__") (serverPlayer "__proto__" 300 400)
            300 400 1 1500).
Proof.
  destruct (player_joined_creates (joined 100 200) 1500 (joinedPayload "8") eq_refl)
    as (_ & Hstored & _).
  destruct (player_joined_creates (joined 100 200) 1500 (joinedPayload "__proto__") eq_refl)
    as (_ & Hproto & _).
  split.
  - destruct (Hstored "8" 300%Q 400%Q 1%Q) as (_ & _ & _ & _ & _ & _ & _ & _ & Hown & _).
    + reflexivity.
    + repeat split; reflexivity.
    + reflexivity.
    + exact Hown.
  - destruct (Hproto "__proto__" 300%Q 400%Q 1%Q)
      as (_ & _ & _ & _ & _ & _ & _ & _ & Hplace & _).
    + reflexivity.
    + repeat split; reflexivity.
    + reflexivity.
    + exact Hplace.
Defined.

Lemma join_seeds_local_witness :
  myPosition (step initial 1200 (SocketMessage (Some crowdedJoin))) = (100%Q, 200%Q) /\
  canSendMoveCommands (step initial 1200 (SocketMessage (Some crowdedJoin))) = false.
Proof.
  destruct (join_seeds_local initial 1200 crowdedJoin eq_refl eq_refl)
    as (_ & Hgate & _ & _ & Hown).
  split; [| exact Hgate].
  change (ownEntry initial crowdedJoin) with (Some (Val (serverPlayer "42" 100 200))) in Hown.
  cbn [truthy ToBoolean serverPlayer] in Hown.
  destruct (Hown 100%Q 200%Q 1%Q) as (_ & Hpos & _); [repeat split; reflexivity |].
  exact Hpos.
Defined.

Lemma join_seeds_remote_witness :
  otherPlayers (step initial 1200 (SocketMessage (Some crowdedJoin))) !! "7"
  = Some (playerOf initial (VStr "7") (serverPlayer "7" 300 400) 300 400 1 1200).
Proof.
  destruct (join_seeds_remote initial 1200 crowdedJoin eq_refl eq_refl) as (Hseed & _).
  - vm_compute. repeat (apply NoDup_cons; split;
      [rewrite ?elem_of_cons, ?elem_of_nil; intuition discriminate |]).
    apply NoDup_nil. exact I.
  - reflexivity.
  - destruct (Hseed "7" (serverPlayer "7" 300 400)) as (x & y & a & Hconv & _ & Hstored).
    + apply elem_of_cons. right. apply elem_of_cons. left. reflexivity.
    + reflexivity.
    + destruct Hconv as (Hx & Hy & Ha).
      vm_compute in Hx, Hy, Ha. injection Hx as <-. injection Hy as <-. injection Ha as <-.
      exact Hstored.
Defined.

Lemma gate_opened_by_join_only_witness :
  exists cached, AvatarsCached true = AvatarsCached cached /\
                 pendingJoins joinPending <> 0%nat.
Proof.
  destruct (gate_opened_by_join_only joinPending 1300 (AvatarsCached true)) as [Hgate _].
  destruct Hgate as (cached & He & Hpj & _).
  - vm_compute. discriminate.
  - exists cached. auto.
Defined.

Lemma gate_opens_without_position_witness :
  canSendMoveCommands
    (step (step initial 1 (SocketMessage (Some strangerJoin))) 2 (AvatarsCached true))
  = true /\
  Me.hasServerPosition
    (me (step (step initial 1 (SocketMessage (Some strangerJoin))) 2 (AvatarsCached true)))
  = false.
Proof.
  destruct (gate_opens_without_position initial 1 2 strangerJoin true (Val VUndef)
              eq_refl eq_refl eq_refl eq_refl eq_refl) as (Hgate & Hpos & _).
  split; [exact Hgate | exact Hpos].
Defined.

Lemma or0_int32_idempotent_witness :
  or0 (VNum (Finite 7)) = Some 7%Q /\ or0 unconvertible = None.
Proof.
  destruct (or0_int32_idempotent (VNum (Finite (79 # 10)))) as (Hsome & _).
  destruct (Hsome 7%Q eq_refl) as (_ & Hagain & _).
  destruct (or0_int32_idempotent unconvertible) as (_ & Hthrown).
  split; [exact Hagain |].
  apply Hthrown. constructor. reflexivity.
Defined.

Lemma players_moved_merges_facing_witness :
  Me.facing (me (step (joined 100 200) 1500 (SocketMessage (Some partialMoved))))
  = VStr "south".
Proof.
  pose proof (players_moved_merges_facing (joined 100 200) 1500 partialMoved eq_refl)
    as Hmerge.
  cbv zeta in Hmerge.
  destruct Hmerge as (_ & _ & _ & _ & _ & _ & _ & _ & Hfacing).
  destruct (Hfacing "42" eq_refl eq_refl) as (_ & Hupdate & _).
  destruct (Hupdate eq_refl) as (Hmerged & _).
  apply Hmerged; eexists; reflexivity.
Defined.

Lemma currentFrame_in_bounds_witness :
  currentFrame (Some sampleFrames) (VStr "south") 7 = Some (sampleFrame 36 48).
Proof.
  destruct (currentFrame_in_bounds sampleFrames (VStr "south") 7) as (Hat & _).
  exact Hat.
Defined.



Lemma minimap_scale_witness :
  exists vx vy,
    scaleBy (minimapScale (joined 100 200)) 100 = Finite vx /\
    scaleBy (minimapScale (joined 100 200)) 1024 = Finite vy /\
    (0 <= vx <= vy)%Q /\ (vy < 201)%Q.
Proof.
  destruct (minimap_scale (joined 100 200)) as [Hfinite _].
  destruct Hfinite as (k & _ & _ & _ & Hinside).
  - vm_compute. discriminate.
  - apply Hinside; [split |]; vm_compute; discriminate.
Defined.
